(** * Geode front-end: program assembly and lowering

    A shallow embedding of the parts of [pkg/ast] that drive package
    loading ([ParseText], [ResolveDepPath], [SearchPaths]), function
    registration ([Congeal]), on-demand function compilation
    ([GetFunction]) and the lowering helpers ([createTypeCast],
    [branchIfNoTerminator], [UnaryNode.Codegen]).

    Go pointers are handles (natural numbers) into explicit heaps carried
    by the program state; Go [int] is [Z]; a Go [error] is its message.
    Collaborators whose source is outside the files embedded here (the
    lexer and parser, the scope tree, the IR library, the function
    node's own [Declare]/[Codegen]) are fields of an environment record,
    so that every statement below holds for any implementation of them. *)

From stdpp Require Import gmap strings list fin_maps pretty.
From Stdlib Require Import ZArith QArith.QArith_base Ascii Lia.

Local Open Scope Z_scope.
Local Open Scope string_scope.

(** ** LLVM types ([llvm/ir/types]) *)

Module types.

(** Modelled from the spec: the IR library's types ("the low-level IR
    datatypes themselves" are an external collaborator), as far as the
    lowering code tells them apart.  An integer type carries its bit
    size, a floating-point type its kind (an integer in the library), a
    pointer its element type. *)
Inductive Ty : Set :=
| IntType (Size : Z)
| FloatType (Kind : Z)
| PointerType (Elem : Ty)
| VoidType
| StructType (TypeName : string).

Definition I1 : Ty := IntType 1.
Definition I8 : Ty := IntType 8.
Definition I16 : Ty := IntType 16.
Definition I32 : Ty := IntType 32.
Definition I64 : Ty := IntType 64.
Definition Void : Ty := VoidType.
Definition NewPointer (elem : Ty) : Ty := PointerType elem.

(** Modelled from the spec: the library's tests on the kind of a type
    ("Int -> int", "Float -> float", "Pointer -> pointer" of the cast
    rules). *)
Definition IsInt (t : Ty) : bool :=
  match t with IntType _ => true | _ => false end.

Definition IsFloat (t : Ty) : bool :=
  match t with FloatType _ => true | _ => false end.

Definition IsPointer (t : Ty) : bool :=
  match t with PointerType _ => true | _ => false end.

(** [lib/types.IsNumber] *)
Definition IsNumber (t : Ty) : bool := IsInt t || IsFloat t.

(** Modelled from the spec: [types.Equal], equality of types ("if input
    and target types are equal"), by structure. *)
Fixpoint Equal (t u : Ty) : bool :=
  match t, u with
  | IntType a, IntType b => Z.eqb a b
  | FloatType a, FloatType b => Z.eqb a b
  | PointerType a, PointerType b => Equal a b
  | VoidType, VoidType => true
  | StructType a, StructType b => String.eqb a b
  | _, _ => false
  end.

(** Modelled from the spec: the printable form of a type ("carrying
    both printable names"); a floating-point type is shown by its kind. *)
Fixpoint TyString (t : Ty) : string :=
  match t with
  | IntType n => "i" +:+ pretty n
  | FloatType k => "f" +:+ pretty k
  | PointerType e => TyString e +:+ "*"
  | VoidType => "void"
  | StructType n => "%" +:+ n
  end.

End types.

Import types.

(** ** IR values, instructions and basic blocks ([llvm/ir]) *)

Module ir.

Definition BlockPtr := nat.
Definition FuncPtr := nat.

Inductive IntPred := IntEQ | IntNE.

(** Modelled from the spec: a [value.Value] of the IR library
    ("instruction constructors for add/sub/xor/icmp/cast family/load").
    Instructions are values: the value an instruction constructor
    returns is the instruction.  [Local] stands for any value built
    elsewhere (parameter, alloca, global, call result). *)
Inductive Value : Type :=
| ConstInt (X : Z) (Typ : Ty)
| ConstFloat (X : Q) (Typ : Ty)
| Local (id : nat) (Typ : Ty)
| InstICmp (Pred : IntPred) (X Y : Value)
| InstXor (X Y : Value)
| InstSub (X Y : Value)
| InstFSub (X Y : Value)
| InstLoad (Src : Value)
| InstZExt (From : Value) (To : Ty)
| InstSExt (From : Value) (To : Ty)
| InstTrunc (From : Value) (To : Ty)
| InstBitCast (From : Value) (To : Ty)
| InstFPToSI (From : Value) (To : Ty)
| InstSIToFP (From : Value) (To : Ty)
| InstFPExt (From : Value) (To : Ty)
| InstFPTrunc (From : Value) (To : Ty)
| InstPtrToInt (From : Value) (To : Ty)
| InstIntToPtr (From : Value) (To : Ty).

Fixpoint Type_ (v : Value) : Ty :=
  match v with
  | ConstInt _ t | ConstFloat _ t | Local _ t => t
  | InstICmp _ _ _ => I1
  | InstXor x _ | InstSub x _ | InstFSub x _ => Type_ x
  | InstLoad s => match Type_ s with PointerType e => e | t => t end
  | InstZExt _ t | InstSExt _ t | InstTrunc _ t | InstBitCast _ t
  | InstFPToSI _ t | InstSIToFP _ t | InstFPExt _ t | InstFPTrunc _ t
  | InstPtrToInt _ t | InstIntToPtr _ t => t
  end.

Inductive Terminator :=
| TermBr (Target : BlockPtr)
| TermCondBr (Cond : Value) (TargetTrue TargetFalse : BlockPtr)
| TermRet (X : option Value).

(** Modelled from the spec: a basic block ("basic blocks with an
    empty/occupied terminator slot"): its non-terminator instructions in
    emission order and its terminator slot, empty ([None]) until a
    terminator is set. *)
Record BasicBlock := mkBlock {
  Name : string;
  Insts : list Value;
  Term : option Terminator;
  Parent : FuncPtr
}.

(** Modelled from the spec: the IR library's instruction constructors
    on a block ("instruction constructors for add/sub/xor/icmp/cast
    family/load/.../br"): each appends the instruction to the block
    and returns it as a value. *)
Definition append (i : Value) (b : BasicBlock) : BasicBlock :=
  mkBlock (Name b) (Insts b ++ [i]) (Term b) (Parent b).

(** Modelled from the spec: [NewBr] fills the block's terminator slot
    with an unconditional branch ("basic blocks with an empty/occupied
    terminator slot"). *)
Definition NewBr (b : BasicBlock) (to : BlockPtr) : BasicBlock :=
  mkBlock (Name b) (Insts b) (Some (TermBr to)) (Parent b).

Definition False_ : Value := ConstInt 0 I1.
Definition True_ : Value := ConstInt 1 I1.

End ir.

Import ir.

(** ** File paths ([path/filepath])

    A path is kept in the form [filepath.Clean] returns: absolute or
    relative, and a list of elements without separators.  ["/"] is the
    absolute path with no element and ["."] the relative one; every path
    the loader handles comes out of [filepath.Join], [filepath.Dir] or
    [filepath.Abs], which all return cleaned paths. *)

Module filepath.

Record Path := mkPath { IsAbs : bool; Elems : list string }.

#[global] Instance Path_eq_dec : EqDecision Path.
Proof. solve_decision. Defined.

#[global] Instance Path_countable : Countable Path.
Proof.
  refine (inj_countable' (fun p => (IsAbs p, Elems p))
                         (fun q => mkPath q.1 q.2) _).
  by intros [].
Defined.

Definition Root : Path := mkPath true [].
Definition Dot : Path := mkPath false [].

(** Elements of a slash-separated string, empty ones included. *)
Fixpoint splitFrom (cur : string) (s : string) : list string :=
  match s with
  | EmptyString => [cur]
  | String c rest =>
      if Ascii.eqb c "/"%char then cur :: splitFrom "" rest
      else splitFrom (cur +:+ String c EmptyString) rest
  end.

Definition Split (s : string) : list string := splitFrom "" s.

(** One step of [Clean]: empty and ["."] elements vanish, [".."]
    removes the element before it, stays at the root, and piles up in
    front of a relative path. *)
Definition pushElem (p : Path) (e : string) : Path :=
  if String.eqb e "" || String.eqb e "." then p
  else if String.eqb e ".." then
    match rev (Elems p) with
    | [] => if IsAbs p then p else mkPath false [".."]
    | l :: before =>
        if String.eqb l ".." then mkPath (IsAbs p) (Elems p ++ [".."])
        else mkPath (IsAbs p) (rev before)
    end
  else mkPath (IsAbs p) (Elems p ++ [e]).

(** [filepath.Join(p, s)]: [Clean(p + "/" + s)]. *)
Definition Join (p : Path) (s : string) : Path :=
  fold_left pushElem (Split s) p.

(** [filepath.Clean] of a path written as a string. *)
Definition FromString (s : string) : Path :=
  Join (mkPath (String.prefix "/" s) []) s.

(** [filepath.Dir]: drop the last element; the root and ["."] are
    their own parent. *)
Definition Dir (p : Path) : Path :=
  mkPath (IsAbs p) (removelast (Elems p)).

Definition ToString (p : Path) : string :=
  match IsAbs p, Elems p with
  | true, es => "/" +:+ String.concat "/" es
  | false, [] => "."
  | false, es => String.concat "/" es
  end.

End filepath.

Import filepath.

(** ** The AST nodes the driver inspects, packages and scopes *)

Definition ScopePtr := nat.
Definition PkgPtr := nat.

(** [lexer.Token]: only carried around. *)
Record Token := mkToken { TokenPos : nat }.

(** Modelled from the spec: the declared type of a parameter ("each
    with a declared type, where a type may be marked unknown"): a type
    name and the mark. *)
Module TypeNode.
Record t := mk { Name : string; Unknown : bool }.
End TypeNode.

Module VariableDefnNode.
Record t := mk { Name : string; Type_ : TypeNode.t }.
End VariableDefnNode.

Module FunctionNode.
(** Modelled from the spec: a function node ("a name, parameter list, a
    variadic flag, a no-mangle flag, an external flag, the body AST, a
    back-pointer to its owning Package, a cache of compiled variants, and
    a scratch name cache slot"), with the fields [GetFunction] and
    [Congeal] use.  [Variants] is a Go map that starts out nil ([None]);
    a stored variant may itself be a nil function pointer.  The body is
    only lowered by the node's own [Codegen] and is not represented. *)
Record t := mk {
  Name : string;
  Args : list VariableDefnNode.t;
  Variadic : bool;
  Nomangle : bool;
  External : bool;
  Package : option PkgPtr;
  Variants : option (gmap string (option FuncPtr));
  NameCache : string;
  Compiled : bool;
  Tok : Token
}.

Definition set_Package (v : option PkgPtr) (n : t) : t :=
  mk (Name n) (Args n) (Variadic n) (Nomangle n) (External n) v
     (Variants n) (NameCache n) (Compiled n) (Tok n).
Definition set_Variants (v : option (gmap string (option FuncPtr))) (n : t) : t :=
  mk (Name n) (Args n) (Variadic n) (Nomangle n) (External n) (Package n)
     v (NameCache n) (Compiled n) (Tok n).
Definition set_NameCache (v : string) (n : t) : t :=
  mk (Name n) (Args n) (Variadic n) (Nomangle n) (External n) (Package n)
     (Variants n) v (Compiled n) (Tok n).
Definition set_Compiled (v : bool) (n : t) : t :=
  mk (Name n) (Args n) (Variadic n) (Nomangle n) (External n) (Package n)
     (Variants n) (NameCache n) v (Tok n).
End FunctionNode.

Module ClassNode.
Record t := mk { Name : string; Package : option PkgPtr }.
Definition set_Package (v : option PkgPtr) (n : t) : t := mk (Name n) v.
End ClassNode.

Module NamespaceNode.
Record t := mk { Name : string }.
End NamespaceNode.

Module DependencyNode.
Record t := mk { Paths : list string; CLinkage : bool }.
End DependencyNode.

Inductive NodeType :=
| nodeNamespace | nodeDependency | nodeFunction | nodeClass
| nodeGlobalDecl | nodeOther.

#[global] Instance NodeType_eq_dec : EqDecision NodeType.
Proof. solve_decision. Defined.

(** A parsed top-level node.  [OtherNode] covers every kind the driver
    passes through without looking inside. *)
Inductive Node :=
| NNamespace (n : NamespaceNode.t)
| NDependency (n : DependencyNode.t)
| NFunction (n : FunctionNode.t)
| NClass (n : ClassNode.t)
| NGlobalDecl (name : string)
| OtherNode (id : nat).

Definition Kind (n : Node) : NodeType :=
  match n with
  | NNamespace _ => nodeNamespace
  | NDependency _ => nodeDependency
  | NFunction _ => nodeFunction
  | NClass _ => nodeClass
  | NGlobalDecl _ => nodeGlobalDecl
  | OtherNode _ => nodeOther
  end.

Module Package.
(** Modelled from the spec: a package ("contains the files that declare
    it, their parsed node lists, and resolved dependency directories").
    [Files] maps the path of a source file to its source text. *)
Record t := mk {
  Name : string;
  Files : gmap Path string;
  Nodes : list Node;
  DependencyPaths : list Path
}.
Definition set_Files (v : gmap Path string) (k : t) : t :=
  mk (Name k) v (Nodes k) (DependencyPaths k).
Definition set_Nodes (v : list Node) (k : t) : t :=
  mk (Name k) (Files k) v (DependencyPaths k).
Definition set_DependencyPaths (v : list Path) (k : t) : t :=
  mk (Name k) (Files k) (Nodes k) v.
End Package.

Module Scope.
(** Modelled from the spec: a scope ("optional parent link, a
    package-name field, an index, and a symbol table"); of the symbol
    table only the type bindings are kept. *)
Record t := mk {
  Parent : option ScopePtr;
  PackageName : string;
  Index : nat;
  Types : gmap string (option Ty);
  DebugInfo : option string
}.
Definition set_PackageName (v : string) (s : t) : t :=
  mk (Parent s) v (Index s) (Types s) (DebugInfo s).
Definition set_Types (v : gmap string (option Ty)) (s : t) : t :=
  mk (Parent s) (PackageName s) (Index s) v (DebugInfo s).
Definition set_DebugInfo (v : option string) (s : t) : t :=
  mk (Parent s) (PackageName s) (Index s) (Types s) v.
End Scope.

Module Compiler.
(** Modelled from the spec: the compiler cursor ("emit SSA instructions
    into the current basic block"): the function being lowered and the
    stack of blocks under construction, innermost first. *)
Record t := mk { FN : option FuncPtr; blocks : list BlockPtr }.
End Compiler.

Module IRModule.
(** The IR module under construction: the heap of basic blocks and
    the named metadata attached so far. *)
Record t := mk { Blocks : list BasicBlock; NamedMetadata : list string }.
End IRModule.

Module Program.
(** The program context.  [scopes] and [packages] are the heaps that
    [Scope], [Package] and the back-pointers of nodes point into; the
    registry maps hold the nodes themselves, so that a registry key
    stands for the pointer stored under it.  Fields that none of the
    operations below read (entry path, target triple, precedence
    table, string and type-info pools) are left out. *)
Record t := mk {
  Scope : ScopePtr;
  Compiler : Compiler.t;
  Module_ : IRModule.t;
  ParsedFiles : list Path;
  Packages : gmap Path PkgPtr;
  Package : option PkgPtr;
  CLinkages : list Path;
  Functions : gmap string FunctionNode.t;
  Classes : gmap string ClassNode.t;
  scopes : list Scope.t;
  packages : list Package.t
}.

Definition set_Scope (v : ScopePtr) (p : t) : t :=
  mk v (Compiler p) (Module_ p) (ParsedFiles p) (Packages p) (Package p)
     (CLinkages p) (Functions p) (Classes p) (scopes p) (packages p).
Definition set_Compiler (v : Compiler.t) (p : t) : t :=
  mk (Scope p) v (Module_ p) (ParsedFiles p) (Packages p) (Package p)
     (CLinkages p) (Functions p) (Classes p) (scopes p) (packages p).
Definition set_Module (v : IRModule.t) (p : t) : t :=
  mk (Scope p) (Compiler p) v (ParsedFiles p) (Packages p) (Package p)
     (CLinkages p) (Functions p) (Classes p) (scopes p) (packages p).
Definition set_ParsedFiles (v : list Path) (p : t) : t :=
  mk (Scope p) (Compiler p) (Module_ p) v (Packages p) (Package p)
     (CLinkages p) (Functions p) (Classes p) (scopes p) (packages p).
Definition set_Packages (v : gmap Path PkgPtr) (p : t) : t :=
  mk (Scope p) (Compiler p) (Module_ p) (ParsedFiles p) v (Package p)
     (CLinkages p) (Functions p) (Classes p) (scopes p) (packages p).
Definition set_Package (v : option PkgPtr) (p : t) : t :=
  mk (Scope p) (Compiler p) (Module_ p) (ParsedFiles p) (Packages p) v
     (CLinkages p) (Functions p) (Classes p) (scopes p) (packages p).
Definition set_CLinkages (v : list Path) (p : t) : t :=
  mk (Scope p) (Compiler p) (Module_ p) (ParsedFiles p) (Packages p)
     (Package p) v (Functions p) (Classes p) (scopes p) (packages p).
Definition set_Functions (v : gmap string FunctionNode.t) (p : t) : t :=
  mk (Scope p) (Compiler p) (Module_ p) (ParsedFiles p) (Packages p)
     (Package p) (CLinkages p) v (Classes p) (scopes p) (packages p).
Definition set_Classes (v : gmap string ClassNode.t) (p : t) : t :=
  mk (Scope p) (Compiler p) (Module_ p) (ParsedFiles p) (Packages p)
     (Package p) (CLinkages p) (Functions p) v (scopes p) (packages p).
Definition set_scopes (v : list Scope.t) (p : t) : t :=
  mk (Scope p) (Compiler p) (Module_ p) (ParsedFiles p) (Packages p)
     (Package p) (CLinkages p) (Functions p) (Classes p) v (packages p).
Definition set_packages (v : list Package.t) (p : t) : t :=
  mk (Scope p) (Compiler p) (Module_ p) (ParsedFiles p) (Packages p)
     (Package p) (CLinkages p) (Functions p) (Classes p) (scopes p) v.
End Program.

(** ** Outcomes of running a piece of the compiler

    A run ends normally with a result and the new program state, or the
    process stops: a run-time panic (nil dereference, index out of
    range, failed type assertion) or a [log.Fatal] exit.  Go's
    [(value, error)] returns are ordinary results.  [OutOfFuel] is not a
    behaviour of the program: it marks a run of the loader's recursion
    that was cut at the bound given to it. *)

Inductive Outcome (A : Type) : Type :=
| Done (a : A) (p : Program.t)
| Panic
| Fatal (msg : string)
| OutOfFuel.

Arguments Done {A} a p.
Arguments Panic {A}.
Arguments Fatal {A} msg.
Arguments OutOfFuel {A}.

Definition M (A : Type) : Type := Program.t -> Outcome A.

Definition ret {A} (a : A) : M A := fun p => Done a p.

Definition bind {A B} (m : M A) (k : A -> M B) : M B :=
  fun p => match m p with
           | Done a p' => k a p'
           | Panic => Panic
           | Fatal msg => Fatal msg
           | OutOfFuel => OutOfFuel
           end.

Definition get : M Program.t := fun p => Done p p.
Definition modify (f : Program.t -> Program.t) : M unit := fun p => Done tt (f p).
Definition panic {A} : M A := fun _ => Panic.
Definition fatal {A} (msg : string) : M A := fun _ => Fatal msg.

Declare Scope go_scope.
Delimit Scope go_scope with go.
Notation "x <- m ;; k" := (bind m (fun x => k))
  (at level 100, m at next level, right associativity) : go_scope.
Notation "m ;;; k" := (bind m (fun _ => k))
  (at level 100, right associativity) : go_scope.

(** A Go [(T, error)] return: a value or an error message. *)
Inductive Result (T : Type) : Type :=
| Ok (v : T)
| Err (e : string).

Arguments Ok {T} v.
Arguments Err {T} e.

(** ** Emitting into the current block *)

(** Modelled from the spec: [Compiler.CurrentBlock], the block on top of the
    cursor's block stack ("emit SSA instructions into the current basic
    block"); nil when the stack is empty. *)
Definition CurrentBlock (p : Program.t) : option BlockPtr :=
  head (Compiler.blocks (Program.Compiler p)).

Definition blockAt (p : Program.t) (b : BlockPtr) : option BasicBlock :=
  IRModule.Blocks (Program.Module_ p) !! b.

Definition set_block (b : BlockPtr) (blk : BasicBlock) (p : Program.t) : Program.t :=
  Program.set_Module
    (IRModule.mk (<[b := blk]> (IRModule.Blocks (Program.Module_ p)))
                 (IRModule.NamedMetadata (Program.Module_ p))) p.

(** [prog.Compiler.CurrentBlock().NewX(...)]: append the instruction to
    the current block and return it.  Without a current block the call
    dereferences nil. *)
Definition emit (i : Value) : M Value :=
  fun p =>
    match CurrentBlock p with
    | Some b =>
        match blockAt p b with
        | Some blk => Done i (set_block b (append i blk) p)
        | None => Panic
        end
    | None => Panic
    end.

(** The instructions of the current block, in emission order. *)
Definition currentInsts (p : Program.t) : list Value :=
  match CurrentBlock p with
  | Some b => match blockAt p b with Some blk => Insts blk | None => [] end
  | None => []
  end.

Definition dquote : string := String (ascii_of_nat 34) EmptyString.

(** [%q] of a printable value. *)
Definition quote (s : string) : string := dquote +:+ s +:+ dquote.

(** ** The lowering helpers shared by both revisions of the node lowerer *)

Definition typeSize (t : Ty) : Z :=
  match t with
  | IntType size => size
  | FloatType kind => kind
  | _ => -1
  end.

Definition typesAreLooselyEqual (a b : Ty) : bool :=
  IsNumber a && IsNumber b.

(** The type assertions of [in] to a constant integer and to a constant
    float: the dynamic type of a value. *)
Definition isConstantInt (v : Value) : bool :=
  match v with ConstInt _ _ => true | _ => false end.

Definition isConstantFloat (v : Value) : bool :=
  match v with ConstFloat _ _ => true | _ => false end.

(** [c.Typ = to]: the constant with its type field overwritten. *)
Definition retype (v : Value) (to : Ty) : Value :=
  match v with
  | ConstInt x _ => ConstInt x to
  | ConstFloat x _ => ConstFloat x to
  | _ => v
  end.

(** [return prog.Compiler.CurrentBlock().NewX(in, to), nil] *)
Definition emitted (i : Value) : M (Result (option Value)) :=
  bind (emit i) (fun v => ret (Ok (Some v))).

Definition typecastError (inType to : Ty) : string :=
  "Failed to typecast type " +:+ TyString inType +:+ " to " +:+ TyString to.

Module UnaryNode.
Record t := mk { Operator : string; Operand : Node }.
End UnaryNode.

(** The lowering of the other node kinds, which a unary node reaches
    through its operand: [Codegen] of a node, and [Alloca] for the nodes
    that are references ([None] when the node is not addressable).
    [DoubleKind] is the kind of the IR's [double]. *)
Record NodeLowerer := mkNodeLowerer {
  NodeCodegen : Node -> M (Result (option Value));
  NodeAlloca : Node -> option (M (option Value));
  DoubleKind : Z
}.

(** ** Node lowerer, current revision (first lowering file of [pkg/ast]) *)

Module Lower.

(** [createTypeCast(prog, in, to)].  The result may be a nil value (a
    cast to [void]). *)
Definition createTypeCast (in_ : Value) (to : Ty) : M (Result (option Value)) :=
  let inType := Type_ in_ in
  let fromInt := IsInt inType in
  let fromFloat := IsFloat inType in
  let toInt := IsInt to in
  let toFloat := IsFloat to in
  let inSize := typeSize inType in
  let outSize := typeSize to in
  if Equal inType to then ret (Ok (Some in_))
  else if isConstantInt in_ && IsInt to then ret (Ok (Some (retype in_ to)))
  else if isConstantFloat in_ && IsFloat to then ret (Ok (Some (retype in_ to)))
  else if Equal to Void then ret (Ok None)
  else if IsPointer inType && IsPointer to then emitted (InstBitCast in_ to)
  else if fromFloat && toInt then emitted (InstFPToSI in_ to)
  else if fromInt && toFloat then emitted (InstSIToFP in_ to)
  else if fromInt && toInt then
    if (inSize <? outSize)%Z then emitted (InstSExt in_ to)
    else if (inSize =? outSize)%Z then ret (Ok (Some in_))
    else emitted (InstTrunc in_ to)
  else if fromFloat && toFloat then
    if (inSize <? outSize)%Z then emitted (InstFPExt in_ to)
    else if (inSize =? outSize)%Z then ret (Ok (Some in_))
    else emitted (InstFPTrunc in_ to)
  else if Equal inType to then ret (Ok (Some in_))
  else if IsPointer inType && IsInt to then emitted (InstPtrToInt in_ to)
  else if IsInt inType && IsPointer to then emitted (InstIntToPtr in_ to)
  else ret (Err (typecastError inType to)).

Section UnaryNode_Codegen.

Variable L : NodeLowerer.

(** [UnaryNode.Codegen].  In the [!] case the error of the cast is
    dropped, as in the source; a nil cast result would be dereferenced
    by the comparison. *)
Definition Codegen (n : UnaryNode.t) : M (Result (option Value)) :=
  if String.eqb (UnaryNode.Operator n) "&" then
    match NodeAlloca L (UnaryNode.Operand n) with
    | None => ret (Err "'&' operator called on non-addressable operand")
    | Some alloca => bind alloca (fun v => ret (Ok v))
    end
  else
    (r <- NodeCodegen L (UnaryNode.Operand n) ;;
     match r with
     | Err e => ret (Err e)
     | Ok None => ret (Err "nil operand")
     | Ok (Some operandValue) =>
         if String.eqb (UnaryNode.Operator n) "-" then
           if IsFloat (Type_ operandValue) then
             emitted (InstFSub (ConstFloat 0 (FloatType (DoubleKind L))) operandValue)
           else if IsInt (Type_ operandValue) then
             emitted (InstSub (ConstInt 0 I64) operandValue)
           else ret (Err "Unable to make a non integer/float into a negative")
         else if String.eqb (UnaryNode.Operator n) "!" then
           if negb (IsInt (Type_ operandValue)) then
             ret (Err ("unable to '!' (not) type "
                       +:+ quote (TyString (Type_ operandValue))))
           else
             c <- createTypeCast operandValue I1 ;;
             match c with
             | Ok (Some opVal) =>
                 eq <- emit (InstICmp IntNE opVal False_) ;;
                 inv <- emit (InstXor eq True_) ;;
                 ext <- emit (InstZExt inv I32) ;;
                 ret (Ok (Some ext))
             | _ => panic
             end
         else if String.eqb (UnaryNode.Operator n) "*" then
           if IsPointer (Type_ operandValue) then emitted (InstLoad operandValue)
           else ret (Err "attempt to dereference a non-pointer variable")
         else ret (Ok (Some operandValue))
     end)%go.

End UnaryNode_Codegen.

End Lower.

(** ** Node lowerer, earlier revision (second lowering file of [pkg/ast]) *)

Module LowerPrev.

(** [branchIfNoTerminator(blk, to)], as the effect on the block [blk]
    points to. *)
Definition branchIfNoTerminator (blk : BasicBlock) (to : BlockPtr) : BasicBlock :=
  match Term blk with
  | None => NewBr blk to
  | Some _ => blk
  end.

(** [createTypeCast(prog, in, to)] of this revision: the equal-types
    test only comes after the constant, void, pointer and numeric cases. *)
Definition createTypeCast (in_ : Value) (to : Ty) : M (Result (option Value)) :=
  let inType := Type_ in_ in
  let fromInt := IsInt inType in
  let fromFloat := IsFloat inType in
  let toInt := IsInt to in
  let toFloat := IsFloat to in
  let inSize := typeSize inType in
  let outSize := typeSize to in
  if isConstantInt in_ && IsInt to then ret (Ok (Some (retype in_ to)))
  else if isConstantFloat in_ && IsFloat to then ret (Ok (Some (retype in_ to)))
  else if Equal to Void then ret (Ok None)
  else if IsPointer inType && IsPointer to then emitted (InstBitCast in_ to)
  else if fromFloat && toInt then emitted (InstFPToSI in_ to)
  else if fromInt && toFloat then emitted (InstSIToFP in_ to)
  else if fromInt && toInt then
    if (inSize <? outSize)%Z then emitted (InstSExt in_ to)
    else if (inSize =? outSize)%Z then ret (Ok (Some in_))
    else emitted (InstTrunc in_ to)
  else if fromFloat && toFloat then
    if (inSize <? outSize)%Z then emitted (InstFPExt in_ to)
    else if (inSize =? outSize)%Z then ret (Ok (Some in_))
    else emitted (InstFPTrunc in_ to)
  else if Equal inType to then ret (Ok (Some in_))
  else if IsPointer inType && IsInt to then emitted (InstPtrToInt in_ to)
  else if IsInt inType && IsPointer to then emitted (InstIntToPtr in_ to)
  else ret (Err (typecastError inType to)).

End LowerPrev.

(** ** What a cast of an integer value to [i1] amounts to

    Used to state the lowering of [!]: the value the cast returns and
    the instructions it appends, by the shape of the operand. *)



(** A program whose cursor sits in one empty block, used to run the
    lowering helpers on concrete inputs. *)
Definition oneBlockProgram : Program.t :=
  Program.mk 0%nat (Compiler.mk (Some 0%nat) [0%nat])
             (IRModule.mk [mkBlock "entry" [] None 0%nat] [])
             [] ∅ None [] ∅ ∅
             [Scope.mk None "" 0 ∅ None] [].

(** ** The scope tree ([Scope], outside the embedded files) *)

Definition scopeAt (p : Program.t) (s : ScopePtr) : option Scope.t :=
  Program.scopes p !! s.

Fixpoint rootFrom (fuel : nat) (scopes : list Scope.t) (s : ScopePtr) : ScopePtr :=
  match fuel with
  | O => s
  | S fuel' =>
      match scopes !! s with
      | Some sc =>
          match Scope.Parent sc with
          | Some parent => rootFrom fuel' scopes parent
          | None => s
          end
      | None => s
      end
  end.

(** Modelled from the spec: [Scope.GetRoot] follows the parent links up
    to the scope without a parent ("a Scope's parent chain is acyclic and
    terminates at a root"). *)
Definition GetRoot (p : Program.t) (s : ScopePtr) : ScopePtr :=
  rootFrom (length (Program.scopes p)) (Program.scopes p) s.

(** Modelled from the spec: [Scope.SpawnChild] allocates a child of the
    scope ("scope push acquires a child"), with the parent's package
    context, an empty symbol table and the next index ("monotonic within
    the tree").  The result is the new scope's pointer. *)
Definition SpawnChild (s : ScopePtr) : M ScopePtr :=
  fun p =>
    match scopeAt p s with
    | Some parent =>
        let child := length (Program.scopes p) in
        Done child
             (Program.set_scopes
                (Program.scopes p
                 ++ [Scope.mk (Some s) (Scope.PackageName parent) child ∅ None]) p)
    | None => Panic
    end.

Definition updateScope (s : ScopePtr) (f : Scope.t -> Scope.t) : M unit :=
  fun p =>
    match scopeAt p s with
    | Some sc => Done tt (Program.set_scopes (<[s := f sc]> (Program.scopes p)) p)
    | None => Panic
    end.

(** Modelled from the spec: [Scope.RegisterType] binds a type name in the
    scope's symbol table ("bind its type-variable name to the supplied
    concrete type in the current scope"). *)
Definition RegisterType (s : ScopePtr) (name : string) (t : option Ty) : M unit :=
  updateScope s (fun sc => Scope.set_Types (<[name := t]> (Scope.Types sc)) sc).

(** Modelled from the spec: [Compiler.Copy] returns a copy of the
    compiler cursor ("save current active Package, Scope, and Compiler
    cursor"). *)
Definition Compiler_Copy (c : Compiler.t) : Compiler.t :=
  Compiler.mk (Compiler.FN c) (Compiler.blocks c).

(** ** The program context: scopes *)

(** [Program.ScopeUp] *)
Definition ScopeUp : M (option string) :=
  fun p =>
    match scopeAt p (Program.Scope p) with
    | Some sc =>
        match Scope.Parent sc with
        | None => Done (Some "scope step up failed. Ask the developer") p
        | Some parent => Done None (Program.set_Scope parent p)
        end
    | None => Panic
    end.

(** [Program.ScopeDown]; [debug] is the command line's debug flag. *)
Definition ScopeDown (debug : bool) (tok : Token) : M unit :=
  (p <- get ;;
   child <- SpawnChild (Program.Scope p) ;;
   modify (Program.set_Scope child) ;;;
   if debug then
     let md := "scope_" +:+ pretty child in
     modify (fun p =>
               Program.set_Module
                 (IRModule.mk (IRModule.Blocks (Program.Module_ p))
                              (IRModule.NamedMetadata (Program.Module_ p) ++ [md])) p) ;;;
     updateScope child (Scope.set_DebugInfo (Some md))
   else ret tt)%go.

(** ** The function compiler *)

Module FunctionCompilationOptions.
(** [ArgTypes] is a Go slice: [None] is the nil slice.  An argument type
    may itself be nil. *)
Record t := mk { ArgTypes : option (list (option Ty)) }.
End FunctionCompilationOptions.

(** What [FunctionNode.Codegen] hands back as a value: an IR function
    (possibly a nil pointer), or a value of another dynamic type. *)
Inductive Generated :=
| GenFunction (f : option FuncPtr)
| GenOther.

(** The function node's own methods and the discovery worker, whose
    source is outside the embedded files.  A node is passed by its
    registry key, which stands for the pointer the registry holds.
    [DeclareFn] returns both the function and the error, as the caller
    stores the function before it looks at the error. *)
Record FunctionCompiler := mkFunctionCompiler {
  EnableDebug : bool;
  Discover : string -> option PkgPtr -> option (list (option Ty)) -> M unit;
  Arguments : string -> M (Result (list (option Ty)));
  MangledName : FunctionNode.t -> list (option Ty) -> Program.t -> string;
  DeclareFn : string -> M (option FuncPtr * option string);
  CodegenFn : string -> M (Result Generated)
}.

(** The node a registry key points to.  The fields the parser and
    [Congeal] fix are read from [node], the node found at entry; the
    fields compilation changes ([Variants], [NameCache], [Compiled]) are
    read and written through the registry. *)
Definition nodeAt (name : string) (node : FunctionNode.t) (p : Program.t) : FunctionNode.t :=
  default node (Program.Functions p !! name).

Definition updateNode (name : string) (f : FunctionNode.t -> FunctionNode.t) : M unit :=
  modify (fun p => Program.set_Functions (alter f name (Program.Functions p)) p).

(** [node.Variants[key] = f] *)
Definition storeVariant (key : string) (f : option FuncPtr) (n : FunctionNode.t) : FunctionNode.t :=
  FunctionNode.set_Variants
    (Some (<[key := f]> (default ∅ (FunctionNode.Variants n)))) n.

(** [node.Variants[key]]: the stored function, nil when absent. *)
Definition variantAt (key : string) (n : FunctionNode.t) : option FuncPtr :=
  match default ∅ (FunctionNode.Variants n) !! key with
  | Some f => f
  | None => None
  end.

Definition variadicArityError (name : string) (declared given : nat) : string :=
  "variadic function " +:+ name +:+ " expects a minimum of "
  +:+ pretty declared +:+ " arguments. given: " +:+ pretty given.

Definition arityError (name : string) (declared given : nat) : string :=
  "incorrect number of arguments passed to function " +:+ quote name
  +:+ ". Expected " +:+ pretty declared +:+ ", given " +:+ pretty given.

Definition printType (t : option Ty) : string :=
  match t with Some t => TyString t | None => "<nil>" end.

Definition typeError (fname : string) (given expected : option Ty) : string :=
  "incorrect type passed into function " +:+ fname +:+ ". given: "
  +:+ quote (printType given) +:+ ", expected: " +:+ quote (printType expected).

(** The arity test of [GetFunction]: the error it returns, if any. *)
Definition checkArity (name : string) (node : FunctionNode.t)
    (rawTypes : list (option Ty)) (argTypes : option (list (option Ty))) : option string :=
  match argTypes with
  | Some args =>
      if negb (length rawTypes =? length args)%nat then
        if FunctionNode.Variadic node then
          if (length args <? length rawTypes)%nat then
            Some (variadicArityError name (length rawTypes) (length args))
          else None
        else Some (arityError name (length rawTypes) (length args))
      else None
  | None => None
  end.

(** [!types.Equal(expected, given) && !typesAreLooselyEqual(given,
    expected)] behind the nil guard. *)
Definition typesMismatch (expected given : option Ty) : bool :=
  match expected, given with
  | Some e, Some g => negb (Equal e g) && negb (typesAreLooselyEqual g e)
  | _, _ => false
  end.

(** The loop over the declared parameter types, from index [i] on;
    [correctTypes] accumulates the effective parameter types. *)
Fixpoint checkTypes (node : FunctionNode.t) (args : list (option Ty)) (i : nat)
    (rawTypes : list (option Ty)) (correctTypes : list (option Ty))
  : M (Result (list (option Ty))) :=
  match rawTypes with
  | [] => ret (Ok correctTypes)
  | expected :: rest =>
      match FunctionNode.Args node !! i, args !! i with
      | Some param, Some given =>
          let nodeParamType := VariableDefnNode.Type_ param in
          let unknown := TypeNode.Unknown nodeParamType in
          if typesMismatch expected given && negb unknown then
            ret (Err (typeError (FunctionNode.Name node) given expected))
          else if unknown then
            (p <- get ;;
             RegisterType (Program.Scope p) (TypeNode.Name nodeParamType) given ;;;
             checkTypes node args (S i) rest (correctTypes ++ [given]))%go
          else checkTypes node args (S i) rest (correctTypes ++ [expected])
      | _, _ => panic
      end
  end.

(** [p.Package = node.Package; p.Scope.PackageName = p.Package.Name] *)
Definition enterPackage (pkg : PkgPtr) : M unit :=
  (modify (Program.set_Package (Some pkg)) ;;;
   p <- get ;;
   match Program.packages p !! pkg with
   | Some k => updateScope (Program.Scope p) (Scope.set_PackageName (Package.Name k))
   | None => panic
   end)%go.

(** The context [GetFunction] saves on entry and puts back before its
    final return. *)
Record SavedContext := mkSaved {
  previousPackage : option PkgPtr;
  previousScope : ScopePtr;
  previousCompiler : Compiler.t
}.

Definition saveContext (p : Program.t) : SavedContext :=
  mkSaved (Program.Package p) (Program.Scope p) (Compiler_Copy (Program.Compiler p)).

(** [p.Package = previousPackage; p.Scope = previousScope; p.Compiler =
    previousCompiler] *)
Definition restoreContext (s : SavedContext) : M unit :=
  (modify (Program.set_Package (previousPackage s)) ;;;
   modify (Program.set_Scope (previousScope s)) ;;;
   modify (Program.set_Compiler (previousCompiler s)))%go.

(** [GetFunction], "prime the program's new state": re-root the scope,
    enter the node's package, push a scope, run discovery. *)
Definition primeState (C : FunctionCompiler) (name : string)
    (options : FunctionCompilationOptions.t) (node : FunctionNode.t) : M unit :=
  (modify (fun p => Program.set_Scope (GetRoot p (Program.Scope p)) p) ;;;
   match FunctionNode.Package node with
   | Some pkg => enterPackage pkg
   | None => ret tt
   end ;;;
   ScopeDown (EnableDebug C) (FunctionNode.Tok node) ;;;
   p <- get ;;
   Discover C name (Program.Package p) (FunctionCompilationOptions.ArgTypes options))%go.

(** [if node.Variants == nil { node.Variants = make(...) }] *)
Definition makeVariants (name : string) (node : FunctionNode.t) : M unit :=
  (p <- get ;;
   match FunctionNode.Variants (nodeAt name node p) with
   | None => updateNode name (FunctionNode.set_Variants (Some ∅))
   | Some _ => ret tt
   end)%go.

(** [GetFunction], the effective parameter types: the loop runs only
    for a non-nil argument list and a function that is not variadic. *)
Definition effectiveTypes (node : FunctionNode.t)
    (options : FunctionCompilationOptions.t) (rawTypes : list (option Ty))
  : M (Result (list (option Ty))) :=
  match FunctionCompilationOptions.ArgTypes options with
  | Some args =>
      if negb (FunctionNode.Variadic node)
      then checkTypes node args 0 rawTypes []
      else ret (Ok [])
  | None => ret (Ok [])
  end.

(** [GetFunction], from the mangling on: name the variant, return the
    cached one or declare and lower it, restore the saved context. *)
Definition compileVariant (C : FunctionCompiler) (name : string)
    (node : FunctionNode.t) (saved : SavedContext)
    (correctTypes : list (option Ty)) : M (Result (option FuncPtr)) :=
  (p <- get ;;
   updateNode name
     (FunctionNode.set_NameCache
        (if FunctionNode.Nomangle node then FunctionNode.Name node
         else MangledName C (nodeAt name node p) correctTypes p)) ;;;
   p <- get ;;
   let key := FunctionNode.NameCache (nodeAt name node p) in
   match default ∅ (FunctionNode.Variants (nodeAt name node p)) !! key with
   | Some f =>
       restoreContext saved ;;;
       ret (Ok f)
   | None =>
       d <- DeclareFn C name ;;
       updateNode name (storeVariant key (fst d)) ;;;
       match snd d with
       | Some err => ret (Err err)
       | None =>
           updateNode name (FunctionNode.set_Compiled true) ;;;
           g <- (if negb (FunctionNode.External node) then
                   gen <- CodegenFn C name ;;
                   match gen with
                   | Err err => ret (Some err)
                   | Ok (GenFunction f) =>
                       p <- get ;;
                       updateNode name
                         (storeVariant (FunctionNode.NameCache (nodeAt name node p)) f) ;;;
                       ret None
                   | Ok GenOther => panic
                   end
                 else ret None) ;;
           match g with
           | Some err => ret (Err err)
           | None =>
               p <- get ;;
               let compiledVal :=
                 variantAt (FunctionNode.NameCache (nodeAt name node p))
                           (nodeAt name node p) in
               restoreContext saved ;;;
               ret (Ok compiledVal)
           end
       end
   end)%go.

(** [Program.GetFunction] *)
Definition GetFunction (C : FunctionCompiler) (name : string)
    (options : FunctionCompilationOptions.t) : M (Result (option FuncPtr)) :=
  (p0 <- get ;;
   let saved := saveContext p0 in
   match Program.Functions p0 !! name with
   | None => ret (Ok None)
   | Some node =>
       primeState C name options node ;;;
       r <- Arguments C name ;;
       match r with
       | Err err => ret (Err err)
       | Ok rawTypes =>
           match checkArity name node rawTypes
                   (FunctionCompilationOptions.ArgTypes options) with
           | Some err => ret (Err err)
           | None =>
               makeVariants name node ;;;
               c <- effectiveTypes node options rawTypes ;;
               match c with
               | Err err => ret (Err err)
               | Ok correctTypes => compileVariant C name node saved correctTypes
               end
           end
       end
   end)%go.

(** [Program.FindFunction] *)
Fixpoint FindFunction_loop (C : FunctionCompiler) (searchNames : list string)
    (argTypes : option (list (option Ty))) : M (Result (option FuncPtr)) :=
  match searchNames with
  | [] => ret (Ok None)
  | name :: rest =>
      (r <- GetFunction C name (FunctionCompilationOptions.mk argTypes) ;;
       match r with
       | Err err => ret (Err err)
       | Ok (Some callee) => ret (Ok (Some callee))
       | Ok None => FindFunction_loop C rest argTypes
       end)%go
  end.

Definition FindFunction (C : FunctionCompiler) (searchNames : list string)
    (argTypes : option (list (option Ty))) : M (Result FuncPtr) :=
  (r <- FindFunction_loop C searchNames argTypes ;;
   match r with
   | Err err => ret (Err err)
   | Ok (Some callee) => ret (Ok callee)
   | Ok None =>
       ret (Err ("unable to find function with names ["
                 +:+ String.concat " " searchNames +:+ "]"))
   end)%go.

(** ** Sample inputs for the function compiler *)

(** Collaborators that leave the program alone: the declared parameter
    types are [rawTypes], the mangled name is the function's name
    followed by the printed effective types, declaring yields function
    [7] and lowering returns it. *)
Definition sampleCompiler (rawTypes : list (option Ty)) : FunctionCompiler :=
  mkFunctionCompiler false
    (fun _ _ _ => ret tt)
    (fun _ => ret (Ok rawTypes))
    (fun n tys _ => String.concat "_" (FunctionNode.Name n :: map printType tys))
    (fun _ => ret (Some 7%nat, None))
    (fun _ => ret (Ok (GenFunction (Some 7%nat)))).

(** [func <fname>(int x, ...)] of package [0], one declared parameter. *)
Definition sampleNode (fname : string) (variadic : bool) : FunctionNode.t :=
  FunctionNode.mk fname
    [VariableDefnNode.mk "x" (TypeNode.mk "int" false)]
    variadic false false (Some 0%nat) None "" false (mkToken 0).

(** A program after registration: package [m] at pointer [0], the root
    scope, the given node registered under [key], no active package. *)
Definition sampleProgram (key : string) (node : FunctionNode.t) : Program.t :=
  Program.mk 0%nat (Compiler.mk None []) (IRModule.mk [] [])
             [] ∅ None [] {[ key := node ]} ∅
             [Scope.mk None "" 0 ∅ None]
             [Package.mk "m" ∅ [NFunction node] []].

(** [sampleProgram] once [GetFunction] has primed it for the node: the
    root scope carries the package name, the pushed scope is active and
    the node's package is the active one. *)
Definition samplePrimed (key : string) (node : FunctionNode.t) : Program.t :=
  Program.mk 1%nat (Compiler.mk None []) (IRModule.mk [] [])
             [] ∅ (Some 0%nat) [] {[ key := node ]} ∅
             [Scope.mk None "m" 0 ∅ None; Scope.mk (Some 0%nat) "m" 1 ∅ None]
             [Package.mk "m" ∅ [NFunction node] []].

(** ** Path resolver *)

(** The file system, the standard-library locator, the lexer and parser,
    the package constructor and the logger, as the loader sees them.
    [Stat] is [os.Open] followed by [Stat]: [None] when either fails,
    otherwise whether the path is a directory.  [ErrorExits] tells
    whether [log.Error] ends the process. *)
Record Loader := mkLoader {
  Stat : Path -> option bool;
  Readdir : Path -> option (list string);
  ReadFile : Path -> option string;
  Abs : Path -> option Path;
  StdLibFile : string -> Path;
  NewSourcefile : Path -> bool;
  Parse : string -> list Node;
  NewPackage : string -> M PkgPtr;
  ErrorExits : bool
}.

(** [PathIsDir]: the answer and whether an error came with it. *)
Definition PathIsDir (L : Loader) (pth : Path) : bool * bool :=
  match Stat L pth with
  | None => (false, true)
  | Some isDir => (isDir, false)
  end.

(** [ReduceToDir] *)
Definition ReduceToDir (L : Loader) (path : Path) : Path :=
  let '(isDir, err) := PathIsDir L path in
  if negb isDir || err then Dir path else path.

Definition packagedir : string := "geodepkgs".

(** The loop of [SearchPaths]; each round drops one element of [base]. *)
Fixpoint SearchPaths_loop (fuel : nat) (base : Path) (sp : list Path) : list Path :=
  match fuel with
  | O => sp
  | S fuel' =>
      if negb (bool_decide (base = Root)) && negb (bool_decide (base = Dot)) then
        let dir := Join base packagedir in
        let base := Dir base in
        SearchPaths_loop fuel' base (sp ++ [dir])
      else sp
  end.

(** [SearchPaths] *)
Definition SearchPaths (base : Path) : list Path :=
  SearchPaths_loop (S (length (Elems base))) base
                   [base; FromString "/usr/local/lib/geodelib"].

(** [strings.Replace(s, old, "", -1)]: every occurrence of [old] removed,
    scanning left to right; [skip] counts the characters of a match still
    to be dropped. *)
Fixpoint removeAll_from (skip : nat) (old : string) (s : string) : string :=
  match s with
  | EmptyString => EmptyString
  | String c rest =>
      match skip with
      | S k => removeAll_from k old rest
      | O =>
          if negb (String.eqb old "") && String.prefix old s
          then removeAll_from (String.length old - 1) old rest
          else String c (removeAll_from O old rest)
      end
  end.

Definition removeAll (old s : string) : string := removeAll_from 0 old s.

(** The loop of [ResolveDepPath] over the search paths. *)
Fixpoint firstDir (L : Loader) (filename : string) (searchPaths : list Path) : option Path :=
  match searchPaths with
  | [] => None
  | sp :: rest =>
      let abs := Join sp filename in
      if fst (PathIsDir L abs) then Some abs else firstDir L filename rest
  end.

(** [ResolveDepPath] *)
Definition ResolveDepPath (L : Loader) (base : Path) (filename : string) : Path :=
  if String.prefix "std:" filename then
    let filename := removeAll "std:" filename in
    let base := StdLibFile L filename in
    Join base filename
  else
    let searchPaths := Join base filename :: SearchPaths base in
    match firstDir L filename searchPaths with
    | Some abs => abs
    | None => Join base filename
    end.

(** The directories [SearchPaths] walks through: [base], its parent, and
    so on up to, and without, the root (or ["."]). *)
Fixpoint ancestorsFrom (n : nat) (base : Path) : list Path :=
  match n with
  | O => []
  | S k => mkPath (IsAbs base) (take (S k) (Elems base)) :: ancestorsFrom k base
  end.

Definition ancestors (base : Path) : list Path :=
  ancestorsFrom (length (Elems base)) base.

(** The candidates [ResolveDepPath] tests, in order: the specifier
    joined onto [base/specifier], onto [base], onto the system directory,
    and onto the [geodepkgs] directory of [base] and of each of its
    ancestors. *)
Definition candidates (base : Path) (filename : string) : list Path :=
  map (fun sp => Join sp filename)
      (Join base filename :: base :: FromString "/usr/local/lib/geodelib"
       :: map (fun b => Join b packagedir) (ancestors base)).

(** The candidate list as the specification words it: the search
    locations themselves. *)
Definition statedCandidates (base : Path) (filename : string) : list Path :=
  Join base filename :: base :: FromString "/usr/local/lib/geodelib"
  :: map (fun b => Join b packagedir) (ancestors base).

(** ** File and package loader *)

(** [NamespaceFromNodes] *)
Fixpoint NamespaceFromNodes (nodes : list Node) : Result string :=
  match nodes with
  | [] => Err "nodes have no package name"
  | n :: rest =>
      match n with
      | NNamespace ns => Ok (NamespaceNode.Name ns)
      | _ => NamespaceFromNodes rest
      end
  end.

(** [FilterNodes] *)
Definition FilterNodes (nodes : list Node) (t : NodeType) : list Node :=
  filter (fun n => Kind n = t) nodes.

(** [Program.CanParse] *)
Definition CanParse (p : Program.t) (file : Path) : bool :=
  negb (existsb (fun parsed => bool_decide (parsed = file)) (Program.ParsedFiles p)).

Definition isLowerOrUnderscore (c : ascii) : bool :=
  let n := nat_of_ascii c in
  ((97 <=? n)%nat && (n <=? 122)%nat) || (n =? 95)%nat.

(** [regexp.Compile("[a-z_]+")] followed by [MatchString]: the pattern
    has no anchors, so it matches as soon as the name contains one
    character of the class. *)
Definition namespacePattern_MatchString (name : string) : bool :=
  existsb isLowerOrUnderscore (String.list_ascii_of_string name).

(** What the error message of [ParseText] asks of a namespace name: it
    consists of lowercase letters and underscores only (and is not
    empty), the pattern matched against the whole name. *)
Definition namespaceWellFormed (name : string) : bool :=
  negb (String.eqb name "")
  && forallb isLowerOrUnderscore (String.list_ascii_of_string name).

(** [log.Error]: prints, and ends the process only if the logger does. *)
Definition logError (L : Loader) (msg : string) : M unit :=
  if ErrorExits L then fatal msg else ret tt.

Definition updatePackage (k : PkgPtr) (f : Package.t -> Package.t) : M unit :=
  fun p =>
    match Program.packages p !! k with
    | Some pkg => Done tt (Program.set_packages (<[k := f pkg]> (Program.packages p)) p)
    | None => Panic
    end.

(** [strings.HasSuffix] *)
Definition HasSuffix (s suffix : string) : bool :=
  (String.length suffix <=? String.length s)%nat
  && String.eqb (String.substring (String.length s - String.length suffix)
                           (String.length suffix) s) suffix.

(** [Program.ParseDir] *)
Definition ParseDir (L : Loader) (path : Path) (p : Program.t) : Result (list Path) :=
  match Stat L path, Readdir L path with
  | Some _, Some list =>
      Ok (filter (fun filename => CanParse p filename = true)
                 (map (fun name => Join path name)
                      (filter (fun name => HasSuffix name ".g" = true) list)))
  | _, _ => Err "open failed"
  end.

Section Loader.

Variable L : Loader.

(** The loader's functions call each other in a cycle ([ParseText] ->
    [ParseDep] -> [ParsePath] -> [ParseFile] -> [ParseText]); the cycle
    is cut at [ParseText], which the others receive as [parseText]. *)
Variable parseText : string -> Path -> M unit.

(** [Program.ParseFile] *)
Definition ParseFile_with (path : Path) : M unit :=
  match ReadFile L path with
  | None => fatal "read failed"
  | Some bytes => parseText bytes path
  end.

Fixpoint parseFiles_with (files : list Path) : M unit :=
  match files with
  | [] => ret tt
  | file :: rest => (ParseFile_with file ;;; parseFiles_with rest)%go
  end.

(** [Program.ParsePath] *)
Definition ParsePath_with (dir : Path) : M unit :=
  let dir := if negb (fst (PathIsDir L dir)) then Dir dir else dir in
  let dir := ReduceToDir L dir in
  match Abs L dir with
  | None => fatal "Error with parsing entry location"
  | Some absEntry =>
      (p <- get ;;
       match ParseDir L absEntry p with
       | Err _ => fatal "Error parsing folder for geode source files"
       | Ok files => parseFiles_with files
       end)%go
  end.

(** [Program.ParseDep] *)
Definition ParseDep_with (base : Path) (path : string) : M unit :=
  let depPath := ResolveDepPath L base path in
  (p <- get ;;
   if CanParse p depPath then ParsePath_with depPath else ret tt)%go.

(** [ParseText], the inner loop over the paths of one dependency node. *)
Fixpoint parseDepPaths_with (newPkg : PkgPtr) (base : Path) (cLinkage : bool)
    (paths : list string) : M unit :=
  match paths with
  | [] => ret tt
  | depPath :: rest =>
      ((if cLinkage then
          modify (fun p => Program.set_CLinkages
                             (Program.CLinkages p ++ [ResolveDepPath L base depPath]) p)
        else
          updatePackage newPkg
            (fun k => Package.set_DependencyPaths
                        (Package.DependencyPaths k
                         ++ [ReduceToDir L (ResolveDepPath L base depPath)]) k) ;;;
          ParseDep_with base depPath) ;;;
       parseDepPaths_with newPkg base cLinkage rest)%go
  end.

(** [ParseText], the loop over the dependency nodes of the file. *)
Fixpoint parseDependencies_with (newPkg : PkgPtr) (path : Path)
    (nodes : list Node) : M unit :=
  match nodes with
  | [] => ret tt
  | node :: rest =>
      (match node with
       | NDependency dep =>
           let base := Dir path in
           parseDepPaths_with newPkg base (DependencyNode.CLinkage dep)
                              (DependencyNode.Paths dep)
       | _ => panic
       end ;;;
       parseDependencies_with newPkg path rest)%go
  end.

(** [Program.ParseText], one level of the cycle. *)
Definition ParseText_with (code : string) (path : Path) : M unit :=
  (modify (fun p => Program.set_ParsedFiles (Program.ParsedFiles p ++ [path]) p) ;;;
   if negb (NewSourcefile L path) then
     fatal ("Error creating Sourcefile context for file at " +:+ quote (ToString path))
   else
     let nodes := Parse L code in
     match NamespaceFromNodes nodes with
     | Err _ =>
         fatal ("Unable to decide on namespace for file " +:+ quote (ToString path))
     | Ok name =>
         (if negb (namespacePattern_MatchString name) then
            logError L ("Invalid Namespace name " +:+ quote name
                        +:+ ". Namespaces can only contain lowercase letters and underscores")
          else ret tt) ;;;
         newPkg <- NewPackage L name ;;
         updatePackage newPkg
           (fun k => Package.set_Nodes nodes
                       (Package.set_Files (<[path := code]> (Package.Files k)) k)) ;;;
         p <- get ;;
         match Program.Packages p !! path with
         | Some _ => ret tt
         | None =>
             modify (fun p => Program.set_Packages (<[path := newPkg]> (Program.Packages p)) p)
         end ;;;
         parseDependencies_with newPkg path (FilterNodes nodes nodeDependency)
     end)%go.

End Loader.

(** [Program.ParseText], with the depth of the dependency recursion
    bounded by [fuel]. *)
Fixpoint ParseText (L : Loader) (fuel : nat) (code : string) (path : Path) : M unit :=
  match fuel with
  | O => fun _ => OutOfFuel
  | S fuel' => ParseText_with L (ParseText L fuel') code path
  end.

Definition ParseFile (L : Loader) (fuel : nat) : Path -> M unit :=
  ParseFile_with L (ParseText L fuel).

Definition ParsePath (L : Loader) (fuel : nat) : Path -> M unit :=
  ParsePath_with L (ParseText L fuel).

Definition ParseDep (L : Loader) (fuel : nat) : Path -> string -> M unit :=
  ParseDep_with L (ParseText L fuel).

(** Modelled from the spec: [NewPackage] makes a package of the given
    name with no file, node or dependency yet ("contains the files that
    declare it, their parsed node lists, and resolved dependency
    directories"); here as a fresh object on the package heap. *)
Definition freshPackage (name : string) : M PkgPtr :=
  fun p =>
    Done (length (Program.packages p))
         (Program.set_packages (Program.packages p ++ [Package.mk name ∅ [] []]) p).

(** ** Program driver *)

(** [PackagedNode]: a node with the package it came from. *)
Module PackagedNode.
Record t := mk { Pkg : PkgPtr; Node_ : Node }.
End PackagedNode.

(** The class and global-variable nodes' own methods and the compiler
    constructor, whose source is outside the embedded files.  Each
    method returns its error, if any. *)
Record Driver := mkDriver {
  NewCompiler : Program.t -> Compiler.t;
  ClassDeclare : ClassNode.t -> M (option string);
  ClassVerifyCorrectness : ClassNode.t -> M unit;
  ClassCodegen : ClassNode.t -> M (option string);
  GlobalDeclare : string -> M (option string)
}.

(** [Program.RegisterFunction] *)
Definition RegisterFunction (name : string) (fn : FunctionNode.t) : M unit :=
  modify (fun p => Program.set_Functions (<[name := fn]> (Program.Functions p)) p).

(** [Congeal], the body of the loop over the nodes of a package: put a
    function or class node into its registry. *)
Definition congealNode (pkgPtr : PkgPtr) (pkg : Package.t) (node : Node) : M unit :=
  match node with
  | NFunction fn =>
      let name := Package.Name pkg +:+ ":" +:+ FunctionNode.Name fn in
      let name :=
        if String.eqb (FunctionNode.Name fn) "main"
           || String.eqb (Package.Name pkg) "runtime"
        then FunctionNode.Name fn else name in
      RegisterFunction name (FunctionNode.set_Package (Some pkgPtr) fn)
  | NClass cls =>
      let name := Package.Name pkg +:+ ":" +:+ ClassNode.Name cls in
      let name :=
        if String.eqb (Package.Name pkg) "runtime" then ClassNode.Name cls else name in
      modify (fun p => Program.set_Classes
                         (<[name := ClassNode.set_Package (Some pkgPtr) cls]>
                            (Program.Classes p)) p)
  | _ => ret tt
  end.

Fixpoint congealNodes (pkgPtr : PkgPtr) (pkg : Package.t) (pkgNodes : list Node)
    (nodes : list PackagedNode.t) : M (list PackagedNode.t) :=
  match pkgNodes with
  | [] => ret nodes
  | node :: rest =>
      (congealNode pkgPtr pkg node ;;;
       congealNodes pkgPtr pkg rest (nodes ++ [PackagedNode.mk pkgPtr node]))%go
  end.

(** [Congeal], the loop over the packages.  [order] lists the packages
    in the order the range over the package map yields them, which Go
    leaves unspecified. *)
Fixpoint congealPackages (order : list PkgPtr) (nodes : list PackagedNode.t)
  : M (list PackagedNode.t) :=
  match order with
  | [] => ret nodes
  | pkgPtr :: rest =>
      (p <- get ;;
       match Program.packages p !! pkgPtr with
       | Some pkg =>
           nodes <- congealNodes pkgPtr pkg (Package.Nodes pkg) nodes ;;
           congealPackages rest nodes
       | None => panic
       end)%go
  end.

(** [Congeal], up to and including the registration loop: fresh module,
    empty registries, fresh compiler, then every node of every package. *)
Definition congealRegister (D : Driver) (order : list PkgPtr) : M (list PackagedNode.t) :=
  (modify (Program.set_Module (IRModule.mk [] [])) ;;;
   modify (Program.set_Functions ∅) ;;;
   modify (Program.set_Classes ∅) ;;;
   modify (fun p => Program.set_Compiler (NewCompiler D p) p) ;;;
   congealPackages order [])%go.

(** [FilterPackagedNodes] *)
Definition FilterPackagedNodes (nodes : list PackagedNode.t) (t : NodeType)
  : list PackagedNode.t :=
  filter (fun n => Kind (PackagedNode.Node_ n) = t) nodes.

(** [PackagedNode.SetupContext] *)
Definition SetupContext (n : PackagedNode.t) : M unit :=
  enterPackage (PackagedNode.Pkg n).

(** A loop of [Congeal] over packaged nodes that stops at the first
    error. *)
Fixpoint forEachNode (f : Node -> M (option string)) (nodes : list PackagedNode.t)
  : M (option string) :=
  match nodes with
  | [] => ret None
  | n :: rest =>
      (SetupContext n ;;;
       err <- f (PackagedNode.Node_ n) ;;
       match err with
       | Some e => ret (Some e)
       | None => forEachNode f rest
       end)%go
  end.

(** [Program.Congeal]: the error it returns, if any; the module is the
    program's. *)
Definition Congeal (D : Driver) (order : list PkgPtr) : M (option string) :=
  (nodes <- congealRegister D order ;;
   e1 <- forEachNode (fun n => match n with
                               | NClass c => ClassDeclare D c
                               | _ => panic
                               end)
                     (FilterPackagedNodes nodes nodeClass) ;;
   match e1 with
   | Some e => ret (Some e)
   | None =>
       e2 <- forEachNode (fun n => match n with
                                   | NClass c =>
                                       ClassVerifyCorrectness D c ;;; ClassCodegen D c
                                   | _ => panic
                                   end)
                         (FilterPackagedNodes nodes nodeClass) ;;
       match e2 with
       | Some e => ret (Some e)
       | None =>
           forEachNode (fun n => match n with
                                 | NGlobalDecl g => GlobalDeclare D g
                                 | _ => panic
                                 end)
                       (FilterPackagedNodes nodes nodeGlobalDecl)
       end
   end)%go.

(** The registry key the specification states for a function [fnName]
    of package [pkgName]. *)
Definition statedFunctionKey (pkgName fnName : string) : string :=
  if bool_decide (fnName = "main" \/ pkgName = "runtime") then fnName
  else pkgName +:+ ":" +:+ fnName.

(** ** Sample inputs for the loader *)

(** A file system in which exactly the paths of [dirs] are directories
    and the files of [files] hold their text; a parser that knows the
    node list of each text; packages made fresh; [log.Error] as
    [errorExits] says. *)
Definition sampleLoader (dirs : list Path) (files : list (Path * string))
    (parses : list (string * list Node)) (errorExits : bool) : Loader :=
  mkLoader
    (fun p => if bool_decide (p ∈ dirs) then Some true
              else if bool_decide (p ∈ map fst files) then Some false else None)
    (fun d => if bool_decide (d ∈ dirs)
              then Some (omap (fun f => if bool_decide (Dir f.1 = d)
                                        then last (Elems f.1) else None) files)
              else None)
    (fun f => snd <$> list_find (fun e => e.1 = f) files ≫= fun r => Some r.2)
    (fun p => Some p)
    (fun _ => FromString "/usr/local/lib/geode")
    (fun _ => true)
    (fun code => default [] (snd <$> (list_find (fun e => e.1 = code) parses ≫= fun r => Some r.2)))
    freshPackage
    errorExits.

Definition emptyProgram : Program.t :=
  Program.mk 0%nat (Compiler.mk None []) (IRModule.mk [] [])
             [] ∅ None [] ∅ ∅ [Scope.mk None "" 0 ∅ None] [].

(** A project directory [/proj] with nothing else on disk. *)
Definition projOnly : Loader :=
  sampleLoader [FromString "/proj"] [] [] false.

(** A project directory with a package directory next to the sources. *)
Definition projWithUtil : Loader :=
  sampleLoader [FromString "/proj"; FromString "/proj/util"] [] [] false.

(** Two packages as the loader leaves them: [m] with [f] and [main],
    and [runtime] with [print]. *)
Definition samplePackages : Program.t :=
  Program.mk 0%nat (Compiler.mk None []) (IRModule.mk [] [])
             [] ∅ None [] ∅ ∅ [Scope.mk None "" 0 ∅ None]
             [Package.mk "m" ∅ [NNamespace (NamespaceNode.mk "m");
                                NFunction (sampleNode "f" false);
                                NFunction (sampleNode "main" false)] [];
              Package.mk "runtime" ∅ [NFunction (sampleNode "print" true)] []].

Definition sampleDriver : Driver :=
  mkDriver (fun _ => Compiler.mk None []) (fun _ => ret None) (fun _ => ret tt)
           (fun _ => ret None) (fun _ => ret None).

(** Two source files of [/proj] that both declare the namespace [m],
    and a file that declares the namespace [Foo]. *)
Definition fileA : Path := FromString "/proj/a.g".
Definition fileB : Path := FromString "/proj/b.g".

Definition nodesA : list Node :=
  [NNamespace (NamespaceNode.mk "m"); NFunction (sampleNode "f" false)].
Definition nodesB : list Node :=
  [NNamespace (NamespaceNode.mk "m"); NFunction (sampleNode "g" false)].

Definition twoFiles : Loader :=
  sampleLoader [FromString "/proj"] [(fileA, "A"); (fileB, "B")]
               [("A", nodesA); ("B", nodesB)] false.

Definition fooFile (errorExits : bool) : Loader :=
  sampleLoader [FromString "/proj"] [(fileA, "A")]
               [("A", [NNamespace (NamespaceNode.mk "Foo")])] errorExits.

(** A computation never drops or changes an entry of the package map. *)
Definition keepsPackages {A} (m : M A) : Prop :=
  forall p a p', m p = Done a p' ->
    forall k v, Program.Packages p !! k = Some v -> Program.Packages p' !! k = Some v.

(** A computation leaves the package map as it is. *)
Definition leavesPackages {A} (m : M A) : Prop :=
  forall p a p', m p = Done a p' -> Program.Packages p' = Program.Packages p.

(** * Further functions of the embedded files *)

(** ** Node lowerer, earlier revision: unary operators *)

Module LowerPrevUnary.

Section UnaryNode_Codegen.

Variable L : NodeLowerer.

(** The nodes' [SyntaxError] method, whose source is outside the
    embedded files: [SyntaxError n] is [n.SyntaxError()] of the unary
    node, [OperandSyntaxError] is [n.Operand.SyntaxError()]. *)
Variable SyntaxError : UnaryNode.t -> M unit.
Variable OperandSyntaxError : Node -> M unit.

(** [UnaryNode.Codegen] of the earlier revision: the operand is lowered
    first, whatever the operator; [&] hands the operand's value back and
    there is no case for [!]. *)
Definition Codegen (n : UnaryNode.t) : M (Result (option Value)) :=
  (r <- NodeCodegen L (UnaryNode.Operand n) ;;
   match r with
   | Err e => ret (Err e)
   | Ok None =>
       OperandSyntaxError (UnaryNode.Operand n) ;;;
       ret (Err "nil operand")
   | Ok (Some operandValue) =>
       if String.eqb (UnaryNode.Operator n) "-" then
         if IsFloat (Type_ operandValue) then
           emitted (InstFSub (ConstFloat 0 (FloatType (DoubleKind L))) operandValue)
         else if IsInt (Type_ operandValue) then
           emitted (InstSub (ConstInt 0 I64) operandValue)
         else
           SyntaxError n ;;;
           ret (Err "Unable to make a non integer/float into a negative")
       else if String.eqb (UnaryNode.Operator n) "&" then
         ret (Ok (Some operandValue))
       else if String.eqb (UnaryNode.Operator n) "*" then
         if IsPointer (Type_ operandValue) then emitted (InstLoad operandValue)
         else
           SyntaxError n ;;;
           ret (Err "attempt to dereference a non-pointer variable")
       else ret (Ok (Some operandValue))
   end)%go.

End UnaryNode_Codegen.

End LowerPrevUnary.

(** ** Literals *)

Module BooleanNode.
Record t := mk { Value : string }.
End BooleanNode.

(** The table of [BooleanNode.Codegen]. *)
Definition booleanOptions : gmap string Z := {[ "true" := 1; "false" := 0 ]}.

(** [BooleanNode.Codegen]: a literal that is not in the table reads as
    the zero value of the table's element type. *)
Definition BooleanNode_Codegen (n : BooleanNode.t) : Value :=
  ConstInt (default 0 (booleanOptions !! BooleanNode.Value n)) I1.

(** [BooleanNode.GenAccess] *)
Definition BooleanNode_GenAccess (n : BooleanNode.t) : Value :=
  BooleanNode_Codegen n.

(** [BooleanNode.String] *)
Definition BooleanNode_String (n : BooleanNode.t) : string := BooleanNode.Value n.

(** A constant array of the IR library, as [newCharArray] builds it:
    its elements and the flag that marks it as a character array. *)
Module ConstantArray.
Record t := mk { Elems : list Value; CharArray : bool }.
End ConstantArray.

(** [newCharArray]: one [i8] constant per byte of the string, then a
    zero byte. *)
Definition newCharArray (s : string) : ConstantArray.t :=
  ConstantArray.mk
    (map (fun c => ConstInt (Z.of_nat (nat_of_ascii c)) I8) (String.list_ascii_of_string s)
     ++ [ConstInt 0 I8])
    true.

(** The byte an [i8] constant holds, and the text a run of such
    constants spells. *)
Definition constantByte (v : Value) : option ascii :=
  match v with
  | ConstInt x _ => if (0 <=? x)%Z && (x <? 256)%Z then Some (ascii_of_nat (Z.to_nat x)) else None
  | _ => None
  end.

Definition isZeroByte (v : Value) : bool :=
  match v with ConstInt x _ => (x =? 0)%Z | _ => false end.

(** The text of a zero-terminated character array, read the way C reads
    it: the bytes before the first zero. *)
Fixpoint cString (elems : list Value) : string :=
  match elems with
  | [] => ""
  | v :: rest =>
      if isZeroByte v then ""
      else match constantByte v with
           | Some c => String c (cString rest)
           | None => ""
           end
  end.

(** ** Name mangling of blocks *)

(** A Go [int] after an arithmetic step: 64 bits, two's complement. *)
Definition wrapInt (z : Z) : Z := ((z + 2 ^ 63) mod 2 ^ 64 - 2 ^ 63)%Z.

(** [mangleName]: the package-level counter [nameNumber] is passed in
    and handed back. *)
Definition mangleName (name : string) (nameNumber : Z) : string * Z :=
  let nameNumber := wrapInt (nameNumber + 1) in
  (name +:+ "_" +:+ pretty nameNumber, nameNumber).

(** Successive calls of [mangleName], one per name. *)
Fixpoint mangleNames (names : list string) (nameNumber : Z) : list string :=
  match names with
  | [] => []
  | name :: rest =>
      let '(mangled, nameNumber) := mangleName name nameNumber in
      mangled :: mangleNames rest nameNumber
  end.

(** ** Casts: which pairs of types [createTypeCast] can handle *)

Definition isScalar (t : Ty) : bool := IsInt t || IsFloat t || IsPointer t.

(** The kinds of source and target for which one of the cast cases
    applies: both among integer, float and pointer, except pointer with
    float. *)
Definition castableKinds (from to : Ty) : bool :=
  isScalar from && isScalar to
  && negb (IsPointer from && IsFloat to) && negb (IsFloat from && IsPointer to).

Definition castable (from to : Ty) : bool :=
  Equal from to || Equal to Void || castableKinds from to.

(** A constant carries a type of its own kind: the type field of a
    constant integer is an integer type, that of a constant float a
    float type. *)
Definition constantWellTyped (v : Value) : bool :=
  match v with
  | ConstInt _ t => IsInt t
  | ConstFloat _ t => IsFloat t
  | _ => true
  end.

(** The characters of a string. *)
Definition chars (s : string) : list ascii := String.list_ascii_of_string s.

(** The operators for which the two revisions of [UnaryNode.Codegen]
    differ. *)
Definition revisedOperator (op : string) : bool :=
  String.eqb op "&" || String.eqb op "!".

(** A string without a zero byte. *)
Definition noZeroByte (s : string) : bool :=
  forallb (fun c => negb (Ascii.eqb c zero)) (chars s).

(** ** [ReturnNode.Codegen], earlier revision *)

Module ReturnNode.
(** [Value] is nil for a bare [return]. *)
Record t := mk { Value : option Node }.
End ReturnNode.

(** Modelled from the spec: the IR functions the cursor can be on
    ("functions (with parameter lists, return-type signatures, variant
    support)"), with the two helpers of other files of the package that
    the error path of [ReturnNode.Codegen] calls, each returning its
    error, if any. *)
Record FunctionTable := mkFunctionTable {
  SigRet : FuncPtr -> Ty;
  FuncName : FuncPtr -> string;
  UnmangleFunctionName : string -> Result string;
  FindTypeName : Ty -> Program.t -> Result string
}.

(** Modelled from the spec: [NewRet] fills the block's terminator slot
    with a return of the given value, nil for [ret void] ("basic blocks
    with an empty/occupied terminator slot", "instruction constructors
    for .../br/ret"). *)
Definition NewRet (b : BasicBlock) (x : option Value) : BasicBlock :=
  mkBlock (Name b) (Insts b) (Some (TermRet x)) (Parent b).

(** [prog.Compiler.CurrentBlock().NewRet(retVal)] *)
Definition newRet (x : option Value) : M unit :=
  fun p =>
    match CurrentBlock p with
    | Some b =>
        match blockAt p b with
        | Some blk => Done tt (set_block b (NewRet blk x) p)
        | None => Panic
        end
    | None => Panic
    end.

(** [prog.Compiler.FN]; reading its signature through a nil pointer
    panics. *)
Definition currentFN : M FuncPtr :=
  fun p =>
    match Compiler.FN (Program.Compiler p) with
    | Some fn => Done fn p
    | None => Panic
    end.

Definition incorrectReturnError (fnName expectedName : string) (expected : Ty)
    (givenName : string) (given : Ty) : string :=
  "incorrect return value for function " +:+ fnName
  +:+ ". =expected: " +:+ expectedName +:+ " (" +:+ TyString expected
  +:+ "). given: " +:+ givenName +:+ " (" +:+ TyString given +:+ ")".

Module LowerPrevReturn.

Section ReturnNode_Codegen.

Variable L : NodeLowerer.
Variable F : FunctionTable.

(** The node's [SyntaxError] method, whose source is outside the
    embedded files: [SyntaxError n] is [n.SyntaxError()]. *)
Variable SyntaxError : ReturnNode.t -> M unit.

(** [ReturnNode.Codegen].  The void type is the one object
    [types.Void], so the comparison [!= types.Void] is a comparison of
    types; [retVal.Type()] on a nil value panics. *)
Definition Codegen (n : ReturnNode.t) : M (Result (option Value)) :=
  (fn <- currentFN ;;
   r <- (if negb (Equal (SigRet F fn) Void) then
           match ReturnNode.Value n with
           | Some value =>
               r <- NodeCodegen L value ;;
               match r with
               | Err e => ret (Err e)
               | Ok None => panic
               | Ok (Some retVal) =>
                   let given := Type_ retVal in
                   fn <- currentFN ;;
                   let expected := SigRet F fn in
                   if negb (Equal given expected) then
                     if negb (IsInt given && IsInt expected) then
                       SyntaxError n ;;;
                       fn <- currentFN ;;
                       match UnmangleFunctionName F (FuncName F fn) with
                       | Err e => ret (Err e)
                       | Ok fnName =>
                           p <- get ;;
                           match FindTypeName F expected p with
                           | Err e => ret (Err e)
                           | Ok expectedName =>
                               match FindTypeName F given p with
                               | Err e => ret (Err e)
                               | Ok givenName =>
                                   SyntaxError n ;;;
                                   ret (Err (incorrectReturnError
                                               fnName expectedName expected
                                               givenName given))
                               end
                           end
                       end
                     else LowerPrev.createTypeCast retVal expected
                   else ret (Ok (Some retVal))
               end
           | None => ret (Ok None)
           end
         else ret (Ok None)) ;;
   match r with
   | Err e => ret (Err e)
   | Ok retVal => newRet retVal ;;; ret (Ok retVal)
   end)%go.

End ReturnNode_Codegen.

End LowerPrevReturn.

(** Sample collaborators for the lowering of [return]: every operand
    lowers to [v] without touching the program; every function returns
    [t] and is called [f]; names are found as printed. *)
Definition sampleLowerer (v : Value) : NodeLowerer :=
  mkNodeLowerer (fun _ => ret (Ok (Some v))) (fun _ => None) 64.

Definition sampleFunctions (t : Ty) : FunctionTable :=
  mkFunctionTable (fun _ => t) (fun _ => "f") (fun s => Ok s)
                  (fun t _ => Ok (TyString t)).

(** ** The list of parsed files *)

(** A computation only ever appends to the list of parsed files. *)
Definition growsParsedFiles {A} (m : M A) : Prop :=
  forall p a p', m p = Done a p' ->
    exists added, Program.ParsedFiles p' = (Program.ParsedFiles p ++ added)%list.

(** The paths a list of dependency nodes of the file at [path] links
    against: the resolved paths of the nodes, in order. *)
Definition linkedPaths (L : Loader) (path : Path) (nodes : list Node) : list Path :=
  flat_map (fun n => match n with
                     | NDependency dep =>
                         map (ResolveDepPath L (Dir path)) (DependencyNode.Paths dep)
                     | _ => []
                     end) nodes.

(** Every dependency node of the list is a C linkage. *)
Definition onlyCLinkage (nodes : list Node) : bool :=
  forallb (fun n => match n with
                    | NDependency dep => DependencyNode.CLinkage dep
                    | _ => true
                    end) nodes.

(** ** The driver's node list and class registry *)

(** The nodes of the packages of [order], each with its package, in the
    order of the packages and, within a package, of its node list. *)
Definition packagedNodes (p : Program.t) (order : list PkgPtr) : list PackagedNode.t :=
  flat_map (fun k => match Program.packages p !! k with
                     | Some pkg => map (PackagedNode.mk k) (Package.Nodes pkg)
                     | None => []
                     end) order.

(** The registry key of a class [clsName] of package [pkgName]. *)
Definition classKey (pkgName clsName : string) : string :=
  if bool_decide (pkgName = "runtime") then clsName
  else pkgName +:+ ":" +:+ clsName.

(** A file of [/proj] that links against a C source. *)
Definition linkFile : Loader :=
  sampleLoader [FromString "/proj"] [(fileA, "A")]
               [("A", [NNamespace (NamespaceNode.mk "m");
                       NDependency (DependencyNode.mk ["lib.c"] true)])] false.

(** Two packages with classes: [m] with the classes [main] and [point],
    and [runtime] with the class [string]. *)
Definition sampleClasses : Program.t :=
  Program.mk 0%nat (Compiler.mk None []) (IRModule.mk [] [])
             [] ∅ None [] ∅ ∅ [Scope.mk None "" 0 ∅ None]
             [Package.mk "m" ∅ [NNamespace (NamespaceNode.mk "m");
                                NClass (ClassNode.mk "main" None);
                                NClass (ClassNode.mk "point" None)] [];
              Package.mk "runtime" ∅ [NClass (ClassNode.mk "string" None)] []].

(** A driver whose lowering of the class [point] fails. *)
Definition failingDriver : Driver :=
  mkDriver (fun _ => Compiler.mk None []) (fun _ => ret None) (fun _ => ret tt)
           (fun c => ret (if String.eqb (ClassNode.Name c) "point"
                          then Some "cannot lower point" else None))
           (fun _ => ret None).

(** A step that only reports: it returns and leaves the program as it
    is. *)
Definition onlyReports (m : M unit) : Prop := forall p, m p = Done tt p.

(** ** [GetFunction]: naming and compiling a variant *)

(** The program with the registry entry [name] changed by [f]. *)
Definition withNode (name : string) (f : FunctionNode.t -> FunctionNode.t)
    (p : Program.t) : Program.t :=
  Program.set_Functions (alter f name (Program.Functions p)) p.

(** The program with the saved context put back. *)
Definition restored (s : SavedContext) (p : Program.t) : Program.t :=
  Program.set_Compiler (previousCompiler s)
    (Program.set_Scope (previousScope s)
       (Program.set_Package (previousPackage s) p)).

(** The name of the variant for an empty list of effective parameter
    types: the mangling of the empty list, or the source name for a
    function that is not mangled. *)
Definition emptyListKey (C : FunctionCompiler) (name : string)
    (node : FunctionNode.t) (p : Program.t) : string :=
  if FunctionNode.Nomangle node then FunctionNode.Name node
  else MangledName C (nodeAt name node p) [] p.

(** * Properties *)

(** ** Types and paths *)

Lemma Equal_refl (t : Ty) : Equal t t = true.
Proof.
  induction t; simpl; auto using Z.eqb_refl, String.eqb_refl.
Qed.

Lemma Equal_eq (t u : Ty) : Equal t u = true <-> t = u.
Proof.
  split.
  - revert u; induction t; intros [] H; simpl in H; try discriminate.
    + apply Z.eqb_eq in H. congruence.
    + apply Z.eqb_eq in H. congruence.
    + f_equal. auto.
    + reflexivity.
    + apply String.eqb_eq in H. congruence.
  - intros ->. apply Equal_refl.
Qed.

Example Join_example :
  Join (FromString "/proj/src") "../util/./x" = FromString "/proj/util/x".
Proof. reflexivity. Qed.

Example Dir_example :
  ToString (Dir (FromString "/proj/main.g")) = "/proj"
  /\ Dir Root = Root /\ Dir Dot = Dot /\ Dir (FromString "a") = Dot.
Proof. repeat split. Qed.


(** ** Emission into the current block *)

Lemma CurrentBlock_set_block b blk p :
  CurrentBlock (set_block b blk p) = CurrentBlock p.
Proof. reflexivity. Qed.

Lemma blockAt_set_block b blk blk0 p :
  blockAt p b = Some blk0 -> blockAt (set_block b blk p) b = Some blk.
Proof.
  unfold blockAt, set_block; simpl. intros H.
  apply list_lookup_insert_eq. eapply lookup_lt_Some; eauto.
Qed.

Lemma emit_run i b blk p :
  CurrentBlock p = Some b -> blockAt p b = Some blk ->
  emit i p = Done i (set_block b (append i blk) p).
Proof. intros Hc Hb. unfold emit. now rewrite Hc, Hb. Qed.

Lemma currentInsts_emit i b blk p :
  CurrentBlock p = Some b -> blockAt p b = Some blk ->
  currentInsts (set_block b (append i blk) p) = (currentInsts p ++ [i])%list.
Proof.
  intros Hc Hb. unfold currentInsts.
  rewrite CurrentBlock_set_block, Hc, Hb.
  now rewrite (blockAt_set_block b _ blk p Hb).
Qed.

(** ** C2: branch if no terminator *)

(** C2. [branchIfNoTerminator(b, t)] gives [b] the unconditional branch
    to [t] exactly when [b]'s terminator slot is empty: with an empty
    slot the block becomes [b] with the branch as its terminator (name,
    instructions and parent as before), with an occupied slot the block
    is returned unchanged, and the block changes if and only if the slot
    was empty. *)
Theorem branchIfNoTerminator_iff_empty (b : BasicBlock) (t : BlockPtr) :
  (Term b = None ->
   LowerPrev.branchIfNoTerminator b t
   = mkBlock (Name b) (Insts b) (Some (TermBr t)) (Parent b))
  /\ (Term b <> None -> LowerPrev.branchIfNoTerminator b t = b)
  /\ (LowerPrev.branchIfNoTerminator b t <> b <-> Term b = None).
Proof.
  unfold LowerPrev.branchIfNoTerminator, NewBr.
  destruct b as [n ins [tm|] par]; simpl.
  - split; [discriminate|]. split; [reflexivity|].
    split; [intros H; now elim H | discriminate].
  - split; [reflexivity|]. split; [intros H; now elim H|].
    split; [reflexivity | intros _; discriminate].
Qed.

Example branchIfNoTerminator_empty :
  LowerPrev.branchIfNoTerminator (mkBlock "then" [] None 0%nat) 3%nat
  = mkBlock "then" [] (Some (TermBr 3%nat)) 0%nat.
Proof. reflexivity. Qed.

Example branchIfNoTerminator_returned :
  LowerPrev.branchIfNoTerminator
    (mkBlock "then" [] (Some (TermRet None)) 0%nat) 3%nat
  = mkBlock "then" [] (Some (TermRet None)) 0%nat.
Proof. reflexivity. Qed.

(** ** C3: casting to the type a value already has *)

(** In the current revision the equal-types test comes first: the value
    is returned as it is and the program state, hence every block, is
    untouched. *)
Lemma createTypeCast_same_type (v : Value) (T : Ty) (p : Program.t) :
  Type_ v = T -> Lower.createTypeCast v T p = Done (Ok (Some v)) p.
Proof.
  intros <-. unfold Lower.createTypeCast. now rewrite Equal_refl.
Qed.

(** C3, earlier revision.  A value of pointer type cast to its own type
    does not come back unchanged: the pointer-to-pointer case is reached
    before the equal-types test, and a bitcast is appended to the
    current block and returned. *)
Theorem createTypeCast_prev_pointer_bitcast
    (v : Value) (p : Program.t) (b : BlockPtr) (blk : BasicBlock) :
  IsPointer (Type_ v) = true ->
  CurrentBlock p = Some b -> blockAt p b = Some blk ->
  LowerPrev.createTypeCast v (Type_ v) p
  = Done (Ok (Some (InstBitCast v (Type_ v))))
         (set_block b (append (InstBitCast v (Type_ v)) blk) p)
  /\ currentInsts (set_block b (append (InstBitCast v (Type_ v)) blk) p)
     = (currentInsts p ++ [InstBitCast v (Type_ v)])%list.
Proof.
  intros Hp Hc Hb. split; [|now apply currentInsts_emit].
  unfold LowerPrev.createTypeCast.
  destruct (Type_ v) eqn:Ht; try discriminate. simpl.
  rewrite !andb_false_r. simpl.
  unfold emitted, bind. now rewrite (emit_run _ b blk p Hc Hb).
Qed.

Lemma createTypeCast_prev_pointer_bitcast_witness :
  LowerPrev.createTypeCast (Local 0 (PointerType I8)) (PointerType I8) oneBlockProgram
  = Done (Ok (Some (InstBitCast (Local 0 (PointerType I8)) (PointerType I8))))
         (set_block 0%nat
            (append (InstBitCast (Local 0 (PointerType I8)) (PointerType I8))
                    (mkBlock "entry" [] None 0%nat)) oneBlockProgram)
  /\ currentInsts
       (set_block 0%nat
          (append (InstBitCast (Local 0 (PointerType I8)) (PointerType I8))
                  (mkBlock "entry" [] None 0%nat)) oneBlockProgram)
     = (currentInsts oneBlockProgram
        ++ [InstBitCast (Local 0 (PointerType I8)) (PointerType I8)])%list.
Proof.
  apply (createTypeCast_prev_pointer_bitcast
           (Local 0 (PointerType I8)) oneBlockProgram 0%nat
           (mkBlock "entry" [] None 0%nat)); reflexivity.
Defined.

(** ** C9: lowering of unary [!] *)





Example unary_not_block :
  match Lower.Codegen
          (mkNodeLowerer (fun _ => ret (Ok (Some (Local 0 I32)))) (fun _ => None) 64)
          (UnaryNode.mk "!" (OtherNode 0)) oneBlockProgram with
  | Done r p => r = Ok (Some (InstZExt (InstXor (InstICmp IntNE (InstTrunc (Local 0 I32) I1) False_) True_) I32))
                /\ currentInsts p
                   = [InstTrunc (Local 0 I32) I1;
                      InstICmp IntNE (InstTrunc (Local 0 I32) I1) False_;
                      InstXor (InstICmp IntNE (InstTrunc (Local 0 I32) I1) False_) True_;
                      InstZExt (InstXor (InstICmp IntNE (InstTrunc (Local 0 I32) I1) False_) True_) I32]
  | _ => False
  end.
Proof. vm_compute. split; reflexivity. Qed.

Example unary_not_double :
  Lower.Codegen
    (mkNodeLowerer (fun _ => ret (Ok (Some (Local 0 (FloatType 64))))) (fun _ => None) 64)
    (UnaryNode.mk "!" (OtherNode 0)) oneBlockProgram
  = Done (Err ("unable to '!' (not) type " +:+ quote "f64")) oneBlockProgram.
Proof. vm_compute. reflexivity. Qed.

(** ** The function compiler: saved context, arity, nil argument list *)

Lemma Compiler_Copy_eq (c : Compiler.t) : Compiler_Copy c = c.
Proof. now destruct c. Qed.

(** Case analysis on every scrutinee met while running a computation
    that a hypothesis says ended normally. *)
Ltac run_cases :=
  repeat match goal with
         | H : ?lhs = Done _ _ |- _ =>
             match lhs with
             | context [match ?x with _ => _ end] =>
                 let E := fresh "E" in
                 destruct x eqn:E; cbv beta in H; try discriminate H
             end
         end.

Lemma GetFunction_unfold C name options node rawTypes p p1 p2 :
  Program.Functions p !! name = Some node ->
  primeState C name options node p = Done tt p1 ->
  Arguments C name p1 = Done (Ok rawTypes) p2 ->
  GetFunction C name options p
  = match checkArity name node rawTypes
            (FunctionCompilationOptions.ArgTypes options) with
    | Some err => Done (Err err) p2
    | None =>
        (makeVariants name node ;;;
         c <- effectiveTypes node options rawTypes ;;
         match c with
         | Err err => ret (Err err)
         | Ok correctTypes =>
             compileVariant C name node (saveContext p) correctTypes
         end)%go p2
    end.
Proof.
  intros Hreg Hprime Hargs.
  unfold GetFunction. unfold bind at 1. unfold get at 1. cbv beta iota zeta.
  rewrite Hreg. unfold bind at 1. rewrite Hprime.
  unfold bind at 1. rewrite Hargs.
  now destruct (checkArity _ _ _ _).
Qed.

(** Whenever [compileVariant] returns a function, the saved context is
    back in place. *)
Lemma compileVariant_restores C name node saved tys q f q' :
  compileVariant C name node saved tys q = Done (Ok f) q' ->
  Program.Package q' = previousPackage saved
  /\ Program.Scope q' = previousScope saved
  /\ Program.Compiler q' = previousCompiler saved.
Proof.
  unfold compileVariant, restoreContext, updateNode, modify, get, bind, ret, panic.
  intros H. run_cases; inversion H; subst; auto.
Qed.

(** An error out of [compileVariant] is one that declaring or lowering
    the function returned. *)
Lemma compileVariant_error_origin C name node saved tys q e q' :
  compileVariant C name node saved tys q = Done (Err e) q' ->
  (exists q1 q2 f, DeclareFn C name q1 = Done (f, Some e) q2)
  \/ (exists q1 q2, CodegenFn C name q1 = Done (Err e) q2).
Proof.
  unfold compileVariant, restoreContext, updateNode, modify, get, bind, ret, panic.
  intros H. run_cases.
  all: repeat match goal with
              | H : Done _ _ = Done _ _ |- _ => inversion H; subst; clear H
              end.
  all: first
    [ left;
      match goal with
      | a : (_ * _)%type |- _ =>
          destruct a; simpl in *; subst; do 3 eexists; eassumption
      end
    | right; do 2 eexists; eassumption ].
Qed.

(** Every return of [GetFunction] that hands back a function (or "no
    match") leaves the active package, the active scope and the
    compiler cursor as they were on entry, whatever the collaborators
    do. *)
Lemma GetFunction_success_restores C name options p f p' :
  GetFunction C name options p = Done (Ok f) p' ->
  Program.Package p' = Program.Package p
  /\ Program.Scope p' = Program.Scope p
  /\ Program.Compiler p' = Program.Compiler p.
Proof.
  unfold GetFunction. unfold bind at 1. unfold get at 1. cbv beta iota zeta.
  destruct (Program.Functions p !! name) as [node|] eqn:Hreg.
  2:{ unfold ret. intros H. now inversion H. }
  unfold bind at 1. destruct (primeState C name options node p) as [[] p1| | |]; try discriminate.
  unfold bind at 1. destruct (Arguments C name p1) as [[rawTypes|err] p2| | |]; try discriminate.
  destruct (checkArity _ _ _ _); try discriminate.
  unfold bind at 1. destruct (makeVariants name node p2) as [[] p3| | |]; try discriminate.
  unfold bind at 1.
  destruct (effectiveTypes node options rawTypes p3) as [[tys|err] p4| | |]; try discriminate.
  intros H. apply compileVariant_restores in H. simpl in H.
  now rewrite Compiler_Copy_eq in H.
Qed.

(** Priming pushes a fresh scope: when it is done the active scope is
    the scope allocated by the push, whose pointer is the size of the
    scope heap at entry, provided discovery leaves the scope pointer
    alone. *)
Lemma primeState_scope C name options node p p1 :
  (forall nm pk args q r q',
      Discover C nm pk args q = Done r q' -> Program.Scope q' = Program.Scope q) ->
  primeState C name options node p = Done tt p1 ->
  Program.Scope p1 = length (Program.scopes p).
Proof.
  intros Hdisc H.
  unfold primeState, enterPackage, ScopeDown, SpawnChild, updateScope, scopeAt,
    modify, get, bind, ret, panic in H.
  cbv beta iota in H.
  run_cases.
  all: repeat match goal with
              | E : Done _ _ = Done _ _ |- _ => inversion E; subst; clear E
              end.
  all: apply Hdisc in H; rewrite H; simpl; rewrite ?length_insert; reflexivity.
Qed.

(** On an arity error [GetFunction] returns the state the node's
    [Arguments] left: nothing is restored.  If discovery and [Arguments]
    leave the scope pointer alone, the active scope on that return is
    the scope pushed for the callee, which differs from the scope that
    was active at entry. *)
Lemma GetFunction_arity_error_scope
    C name options node rawTypes err p p1 p2 :
  (forall nm pk args q r q',
      Discover C nm pk args q = Done r q' -> Program.Scope q' = Program.Scope q) ->
  Program.Functions p !! name = Some node ->
  (Program.Scope p < length (Program.scopes p))%nat ->
  primeState C name options node p = Done tt p1 ->
  Arguments C name p1 = Done (Ok rawTypes) p2 ->
  Program.Scope p2 = Program.Scope p1 ->
  checkArity name node rawTypes (FunctionCompilationOptions.ArgTypes options) = Some err ->
  GetFunction C name options p = Done (Err err) p2
  /\ Program.Scope p2 = length (Program.scopes p)
  /\ Program.Scope p2 <> Program.Scope p.
Proof.
  intros Hdisc Hreg Hvalid Hprime Hargs Hsame Harity.
  rewrite (GetFunction_unfold C name options node rawTypes p p1 p2 Hreg Hprime Hargs).
  rewrite Harity. split; [reflexivity|].
  rewrite Hsame, (primeState_scope C name options node p p1 Hdisc Hprime).
  split; [reflexivity|lia].
Qed.

(** ** C1: the saved context on error returns *)

(** C1, failing input.  [f] is registered under ["m:f"] with one
    declared parameter and is called with an empty, non-nil list of
    argument types.  [GetFunction] returns the wrong-number-of-arguments
    error, and on that return the active scope is the scope pushed for
    the callee (pointer 1), not the scope at entry (pointer 0), and the
    active package is the callee's package, not the one at entry (none):
    the restore before the final return is skipped. *)
Theorem GetFunction_arity_error_skips_restore :
  let p := sampleProgram "m:f" (sampleNode "f" false) in
  exists p',
    GetFunction (sampleCompiler [Some I32]) "m:f"
                (FunctionCompilationOptions.mk (Some [])) p
    = Done (Err (arityError "m:f" 1 0)) p'
    /\ Program.Scope p = 0%nat /\ Program.Scope p' = 1%nat
    /\ Program.Package p = None /\ Program.Package p' = Some 0%nat.
Proof.
  cbv zeta. eexists. split; [vm_compute; reflexivity|].
  repeat split.
Qed.

(** ** C6: the arity check *)

(** C6 as stated fails for a nil argument list: a variadic function
    with one declared parameter, and a function that is not variadic
    with one declared parameter, both called with the nil list (no
    argument type supplied), are compiled and returned; no arity error
    is raised. *)
Lemma GetFunction_nil_list_passes_arity :
  (exists p',
     GetFunction (sampleCompiler [Some I32]) "m:g"
                 (FunctionCompilationOptions.mk None)
                 (sampleProgram "m:g" (sampleNode "g" true))
     = Done (Ok (Some 7%nat)) p')
  /\ (exists p',
        GetFunction (sampleCompiler [Some I32]) "m:f"
                    (FunctionCompilationOptions.mk None)
                    (sampleProgram "m:f" (sampleNode "f" false))
        = Done (Ok (Some 7%nat)) p').
Proof.
  split; eexists; vm_compute; reflexivity.
Qed.

(** C6, amended.  Let [name] be registered, the state be primed, and the
    node declare [d] parameter types; let the call supply a non-nil list
    of [n] argument types.  A variadic function with [n < d] fails with
    the "expects a minimum of" error; a variadic function with [n >= d]
    passes the arity check and goes on to compile the variant (with an
    empty list of effective types); a function that is not variadic
    fails with the wrong-number-of-arguments error whenever [n <> d]. *)
Theorem GetFunction_arity_check
    C name options node rawTypes args p p1 p2 :
  Program.Functions p !! name = Some node ->
  primeState C name options node p = Done tt p1 ->
  Arguments C name p1 = Done (Ok rawTypes) p2 ->
  FunctionCompilationOptions.ArgTypes options = Some args ->
  (FunctionNode.Variadic node = true ->
   (length args < length rawTypes)%nat ->
   GetFunction C name options p
   = Done (Err (variadicArityError name (length rawTypes) (length args))) p2)
  /\ (FunctionNode.Variadic node = true ->
      (length rawTypes <= length args)%nat ->
      GetFunction C name options p
      = (makeVariants name node ;;;
         compileVariant C name node (saveContext p) [])%go p2)
  /\ (FunctionNode.Variadic node = false ->
      length args <> length rawTypes ->
      GetFunction C name options p
      = Done (Err (arityError name (length rawTypes) (length args))) p2).
Proof.
  intros Hreg Hprime Hargs Hopt.
  rewrite (GetFunction_unfold C name options node rawTypes p p1 p2 Hreg Hprime Hargs).
  unfold checkArity, effectiveTypes. rewrite Hopt.
  split; [|split].
  - intros Hv Hlt. rewrite Hv.
    destruct (Nat.eqb_spec (length rawTypes) (length args)); [lia|]. simpl.
    destruct (Nat.ltb_spec (length args) (length rawTypes)); [reflexivity|lia].
  - intros Hv Hle. rewrite Hv. simpl.
    destruct (Nat.eqb_spec (length rawTypes) (length args)); simpl.
    + unfold bind, ret. now destruct (makeVariants name node p2).
    + destruct (Nat.ltb_spec (length args) (length rawTypes)); [lia|].
      unfold bind, ret. now destruct (makeVariants name node p2).
  - intros Hv Hne. rewrite Hv.
    destruct (Nat.eqb_spec (length rawTypes) (length args)); [congruence|].
    reflexivity.
Qed.

(** The boundary scenario of the specification: [g] variadic with one
    declared parameter, called with a supplied, empty list. *)
Lemma GetFunction_arity_check_witness :
  GetFunction (sampleCompiler [Some I32]) "m:g"
              (FunctionCompilationOptions.mk (Some []))
              (sampleProgram "m:g" (sampleNode "g" true))
  = Done (Err "variadic function m:g expects a minimum of 1 arguments. given: 0")
         (Program.mk 1%nat (Compiler.mk None []) (IRModule.mk [] [])
            [] ∅ (Some 0%nat) []
            {[ "m:g" := sampleNode "g" true ]} ∅
            [Scope.mk None "m" 0 ∅ None; Scope.mk (Some 0%nat) "m" 1 ∅ None]
            [Package.mk "m" ∅ [NFunction (sampleNode "g" true)] []]).
Proof.
  exact (proj1 (GetFunction_arity_check
                  (sampleCompiler [Some I32]) "m:g"
                  (FunctionCompilationOptions.mk (Some []))
                  (sampleNode "g" true) [Some I32] []
                  (sampleProgram "m:g" (sampleNode "g" true))
                  _ _ eq_refl eq_refl eq_refl eq_refl)
               eq_refl (le_n 1)).
Defined.

(** ** C10: a nil argument-type list *)

(** C10. For a registered function called with a nil argument-type list,
    once the state is primed: the arity test raises nothing whatever the
    declared parameter types are; the effective parameter types are the
    empty list, computed without touching the program (no type check, no
    binding of an unknown type in the scope); when the node's parameter
    types are computed, [GetFunction] goes straight on to name and compile
    the variant from the empty list; and any error [GetFunction] returns
    is one that computing the parameter types, declaring the function or
    lowering it returned.  The variant is named from the empty list:
    once the parameter types are computed and the variant table is
    there, the node's cached name is set to the mangling of the empty
    list of effective types (the source name for a function that is not
    mangled); a variant stored under that name is returned as it is,
    with the saved context restored; otherwise the function is declared
    from that state, the declared function is stored under that name,
    and the outcome is that of declaring and lowering it. *)
Theorem GetFunction_nil_argument_list C name options node p p1 :
  Program.Functions p !! name = Some node ->
  FunctionCompilationOptions.ArgTypes options = None ->
  primeState C name options node p = Done tt p1 ->
  (forall rawTypes,
     checkArity name node rawTypes (FunctionCompilationOptions.ArgTypes options) = None)
  /\ (forall rawTypes q,
        effectiveTypes node options rawTypes q = Done (Ok []) q)
  /\ (forall rawTypes p2,
        Arguments C name p1 = Done (Ok rawTypes) p2 ->
        GetFunction C name options p
        = (makeVariants name node ;;;
           compileVariant C name node (saveContext p) [])%go p2)
  /\ (forall e p',
        GetFunction C name options p = Done (Err e) p' ->
        Arguments C name p1 = Done (Err e) p'
        \/ (exists q1 q2 f, DeclareFn C name q1 = Done (f, Some e) q2)
        \/ (exists q1 q2, CodegenFn C name q1 = Done (Err e) q2))
  /\ (forall rawTypes p2 p3,
        Arguments C name p1 = Done (Ok rawTypes) p2 ->
        makeVariants name node p2 = Done tt p3 ->
        let key := emptyListKey C name node p3 in
        let q := withNode name (FunctionNode.set_NameCache key) p3 in
        let cached := FunctionNode.NameCache (nodeAt name node q) in
        (forall n3,
            Program.Functions p3 !! name = Some n3 ->
            Program.Functions q !! name = Some (FunctionNode.set_NameCache key n3)
            /\ cached = key)
        /\ (forall f,
              default ∅ (FunctionNode.Variants (nodeAt name node q)) !! cached = Some f ->
              GetFunction C name options p
              = Done (Ok f) (restored (saveContext p) q))
        /\ (default ∅ (FunctionNode.Variants (nodeAt name node q)) !! cached = None ->
            GetFunction C name options p
            = match DeclareFn C name q with
              | Done d q2 =>
                  let q3 := withNode name (storeVariant cached (fst d)) q2 in
                  match snd d with
                  | Some err => Done (Err err) q3
                  | None =>
                      let q4 := withNode name (FunctionNode.set_Compiled true) q3 in
                      if FunctionNode.External node then
                        Done (Ok (variantAt (FunctionNode.NameCache (nodeAt name node q4))
                                            (nodeAt name node q4)))
                             (restored (saveContext p) q4)
                      else
                        match CodegenFn C name q4 with
                        | Done (Err err) q5 => Done (Err err) q5
                        | Done (Ok (GenFunction f)) q5 =>
                            let q6 :=
                              withNode name
                                (storeVariant (FunctionNode.NameCache (nodeAt name node q5)) f)
                                q5 in
                            Done (Ok (variantAt (FunctionNode.NameCache (nodeAt name node q6))
                                                (nodeAt name node q6)))
                                 (restored (saveContext p) q6)
                        | Done (Ok GenOther) _ => Panic
                        | Panic => Panic
                        | Fatal msg => Fatal msg
                        | OutOfFuel => OutOfFuel
                        end
                  end
              | Panic => Panic
              | Fatal msg => Fatal msg
              | OutOfFuel => OutOfFuel
              end)).
Proof.
  intros Hreg Hopt Hprime.
  assert (Harity : forall rawTypes,
             checkArity name node rawTypes
               (FunctionCompilationOptions.ArgTypes options) = None)
    by (intros; now rewrite Hopt).
  assert (Heff : forall rawTypes q,
             effectiveTypes node options rawTypes q = Done (Ok []) q)
    by (intros; unfold effectiveTypes; now rewrite Hopt).
  assert (Hgo : forall rawTypes p2,
             Arguments C name p1 = Done (Ok rawTypes) p2 ->
             GetFunction C name options p
             = (makeVariants name node ;;;
                compileVariant C name node (saveContext p) [])%go p2).
  { intros rawTypes p2 Hargs.
    rewrite (GetFunction_unfold C name options node rawTypes p p1 p2 Hreg Hprime Hargs).
    rewrite Harity. unfold bind.
    destruct (makeVariants name node p2); try reflexivity.
    now rewrite Heff. }
  split; [exact Harity|]. split; [exact Heff|]. split; [exact Hgo|]. split.
  { intros e p' H.
    destruct (Arguments C name p1) as [[rawTypes|err] p2| | |] eqn:Hargs.
    - rewrite (Hgo rawTypes p2 eq_refl) in H. right.
      unfold bind in H.
      destruct (makeVariants name node p2) as [[] p3| | |]; try discriminate.
      eapply compileVariant_error_origin; eauto.
    - left. revert H. unfold GetFunction. unfold bind at 1. unfold get at 1.
      cbv beta iota zeta. rewrite Hreg. unfold bind at 1. rewrite Hprime.
      unfold bind at 1. rewrite Hargs. unfold ret. congruence.
    - revert H. unfold GetFunction. unfold bind at 1. unfold get at 1.
      cbv beta iota zeta. rewrite Hreg. unfold bind at 1. rewrite Hprime.
      unfold bind at 1. rewrite Hargs. discriminate.
    - revert H. unfold GetFunction. unfold bind at 1. unfold get at 1.
      cbv beta iota zeta. rewrite Hreg. unfold bind at 1. rewrite Hprime.
      unfold bind at 1. rewrite Hargs. discriminate.
    - revert H. unfold GetFunction. unfold bind at 1. unfold get at 1.
      cbv beta iota zeta. rewrite Hreg. unfold bind at 1. rewrite Hprime.
      unfold bind at 1. rewrite Hargs. discriminate. }
  intros rawTypes p2 p3 Ha Hmk key q cached.
  assert (Hrun : GetFunction C name options p
                 = compileVariant C name node (saveContext p) [] p3).
  { rewrite (Hgo rawTypes p2 Ha). unfold bind. now rewrite Hmk. }
  split; [|split].
  - intros n3 Hn3. subst cached q key. unfold withNode, nodeAt.
    cbn [Program.Functions Program.set_Functions].
    rewrite lookup_alter_eq, Hn3. split; reflexivity.
  - intros f Hf. rewrite Hrun. subst cached q key.
    unfold withNode, emptyListKey in Hf.
    unfold compileVariant, restoreContext, updateNode, modify, get, bind, ret.
    cbv beta iota zeta. rewrite Hf. reflexivity.
  - intros Hnone. rewrite Hrun. subst cached q key.
    unfold withNode, emptyListKey in *.
    unfold compileVariant, restoreContext, updateNode, modify, get, bind, ret, panic.
    cbv beta iota zeta. rewrite Hnone.
    destruct (DeclareFn C name _) as [[f0 [e0|]] q2| | |]; try reflexivity.
    cbn [fst snd].
    destruct (FunctionNode.External node); cbn [negb]; [reflexivity|].
    destruct (CodegenFn C name _) as [[[g|]|e] q5| | |]; reflexivity.
Qed.

(** A function that is not variadic, with one declared parameter, called
    with the nil list: no arity error; the variant is named ["f"], the
    mangling of the empty list of effective types, is declared and
    lowered, and is stored under that name. *)
Lemma GetFunction_nil_argument_list_witness :
  exists p',
    GetFunction (sampleCompiler [Some I32]) "m:f"
                (FunctionCompilationOptions.mk None)
                (sampleProgram "m:f" (sampleNode "f" false))
    = Done (Ok (Some 7%nat)) p'
    /\ emptyListKey (sampleCompiler [Some I32]) "m:f" (sampleNode "f" false)
                    (withNode "m:f" (FunctionNode.set_Variants (Some ∅))
                              (samplePrimed "m:f" (sampleNode "f" false)))
       = "f"
    /\ FunctionNode.NameCache <$> Program.Functions p' !! "m:f" = Some "f"
    /\ variantAt "f" (nodeAt "m:f" (sampleNode "f" false) p') = Some 7%nat.
Proof.
  destruct (proj2 (proj2 (proj2 (proj2
             (GetFunction_nil_argument_list
                (sampleCompiler [Some I32]) "m:f"
                (FunctionCompilationOptions.mk None)
                (sampleNode "f" false)
                (sampleProgram "m:f" (sampleNode "f" false))
                (samplePrimed "m:f" (sampleNode "f" false))
                eq_refl eq_refl eq_refl))))
             [Some I32] (samplePrimed "m:f" (sampleNode "f" false))
             (withNode "m:f" (FunctionNode.set_Variants (Some ∅))
                       (samplePrimed "m:f" (sampleNode "f" false)))
             eq_refl eq_refl) as (_ & _ & Hmiss).
  specialize (Hmiss eq_refl).
  eexists. split; [etransitivity; [exact Hmiss|vm_compute; reflexivity]|].
  repeat split; vm_compute; reflexivity.
Defined.

(** With the nil list the variant key is the mangling of the empty list
    (here the bare name); with a supplied list it is the mangling of the
    checked types. *)
Example GetFunction_nil_list_variant_key :
  match GetFunction (sampleCompiler [Some I32]) "m:f"
                    (FunctionCompilationOptions.mk None)
                    (sampleProgram "m:f" (sampleNode "f" false)),
        GetFunction (sampleCompiler [Some I32]) "m:f"
                    (FunctionCompilationOptions.mk (Some [Some I32]))
                    (sampleProgram "m:f" (sampleNode "f" false)) with
  | Done _ p, Done _ q =>
      FunctionNode.NameCache <$> (Program.Functions p !! "m:f") = Some "f"
      /\ FunctionNode.NameCache <$> (Program.Functions q !! "m:f") = Some "f_i32"
      /\ Program.scopes p = Program.scopes q
  | _, _ => False
  end.
Proof. vm_compute. repeat split. Qed.

(** ** C5: dependency path resolution *)

Lemma Path_eta (p : Path) : mkPath (IsAbs p) (Elems p) = p.
Proof. now destruct p. Qed.

Lemma ancestorsFrom_Dir (k : nat) (base : Path) :
  (k < length (Elems base))%nat ->
  ancestorsFrom k (Dir base) = ancestorsFrom k base.
Proof.
  intros Hk. induction k as [|k IH]; [reflexivity|].
  simpl. rewrite IH by lia. f_equal. f_equal.
  rewrite removelast_firstn_len.
  change firstn with (@take string).
  rewrite take_take. f_equal. lia.
Qed.

Lemma SearchPaths_loop_ancestors (n : nat) :
  forall (base : Path) (sp : list Path),
    length (Elems base) = n ->
    SearchPaths_loop (S n) base sp
    = (sp ++ map (fun b => Join b packagedir) (ancestorsFrom n base))%list.
Proof.
  induction n as [|n IH]; intros base sp Hlen.
  - destruct base as [[] [|e es]]; try discriminate; simpl;
      now rewrite app_nil_r.
  - assert (Hne : base <> Root /\ base <> Dot).
    { split; intros ->; discriminate. }
    destruct Hne as [Hr Hd].
    change (SearchPaths_loop (S (S n)) base sp)
      with (if negb (bool_decide (base = Root)) && negb (bool_decide (base = Dot))
            then SearchPaths_loop (S n) (Dir base) (sp ++ [Join base packagedir])
            else sp).
    rewrite (bool_decide_eq_false_2 _ Hr), (bool_decide_eq_false_2 _ Hd). simpl negb.
    cbv iota. simpl andb. cbv iota.
    assert (Hdir : length (Elems (Dir base)) = n).
    { simpl. rewrite removelast_firstn_len, length_take. lia. }
    rewrite (IH (Dir base) _ Hdir).
    rewrite ancestorsFrom_Dir by lia.
    rewrite <- app_assoc. f_equal.
    change (ancestorsFrom (S n) base)
      with (mkPath (IsAbs base) (take (S n) (Elems base)) :: ancestorsFrom n base).
    rewrite <- Hlen, firstn_all, Path_eta. reflexivity.
Qed.

(** The search paths are the base, the system directory, and the
    [geodepkgs] directory of the base and of each ancestor short of the
    root. *)
Lemma SearchPaths_eq (base : Path) :
  SearchPaths base
  = base :: FromString "/usr/local/lib/geodelib"
    :: map (fun b => Join b packagedir) (ancestors base).
Proof.
  unfold SearchPaths, ancestors.
  now rewrite (SearchPaths_loop_ancestors _ base _ eq_refl).
Qed.

Lemma firstDir_spec (L : Loader) (filename : string) (sps : list Path) :
  match firstDir L filename sps with
  | Some abs =>
      exists i sp,
        sps !! i = Some sp /\ abs = Join sp filename
        /\ fst (PathIsDir L abs) = true
        /\ forall j sp', (j < i)%nat -> sps !! j = Some sp' ->
                         fst (PathIsDir L (Join sp' filename)) = false
  | None =>
      forall sp, sp ∈ sps -> fst (PathIsDir L (Join sp filename)) = false
  end.
Proof.
  induction sps as [|sp rest IH]; simpl.
  - intros sp H. inversion H.
  - destruct (fst (PathIsDir L (Join sp filename))) eqn:Hd.
    + exists 0%nat, sp. repeat split; auto. intros j sp' Hj. lia.
    + destruct (firstDir L filename rest) as [abs|].
      * destruct IH as (i & sp0 & Hi & -> & Hdir & Hbefore).
        exists (S i), sp0. repeat split; auto.
        intros [|j] sp' Hj Hsp'; simpl in Hsp'.
        -- now inversion Hsp'; subst.
        -- eapply Hbefore; eauto. lia.
      * intros sp' Hin. apply elem_of_cons in Hin as [->|Hin]; auto.
Qed.

(** C5 as stated fails.  With [/proj] the only directory on disk, the
    first of the stated candidates that is a directory is the base
    itself, yet [ResolveDepPath] returns [/proj/util]; with [/proj/util]
    a directory too, the first stated candidate [/proj/util] is a
    directory and is what is returned, but only because it is the base
    joined with the specifier: what is tested first is
    [/proj/util/util]. *)
Lemma ResolveDepPath_not_first_stated_candidate :
  let base := FromString "/proj" in
  list_find (fun c => fst (PathIsDir projOnly c) = true) (statedCandidates base "util")
  = Some (1%nat, base)
  /\ ResolveDepPath projOnly base "util" = FromString "/proj/util"
  /\ FromString "/proj/util" <> base
  /\ head (candidates base "util") = Some (FromString "/proj/util/util").
Proof.
  cbv zeta. repeat split; try reflexivity. discriminate.
Qed.

(** C5, amended.  For a specifier that does not start with [std:],
    [ResolveDepPath] joins the specifier onto each search location, in
    this order: [base/specifier], [base], [/usr/local/lib/geodelib], then
    the [geodepkgs] directory of [base] and of each of its ancestors
    short of the root; it returns the first of these joined paths that
    is a directory, and [base/specifier] when none is. *)
Theorem ResolveDepPath_first_joined_candidate
    (L : Loader) (base : Path) (filename : string) :
  String.prefix "std:" filename = false ->
  (exists i c,
      candidates base filename !! i = Some c
      /\ fst (PathIsDir L c) = true
      /\ (forall j c', (j < i)%nat -> candidates base filename !! j = Some c' ->
                       fst (PathIsDir L c') = false)
      /\ ResolveDepPath L base filename = c)
  \/ ((forall c, c ∈ candidates base filename -> fst (PathIsDir L c) = false)
      /\ ResolveDepPath L base filename = Join base filename).
Proof.
  intros Hstd. unfold ResolveDepPath. rewrite Hstd, SearchPaths_eq.
  unfold candidates.
  set (sps := Join base filename :: base :: FromString "/usr/local/lib/geodelib"
              :: map (fun b => Join b packagedir) (ancestors base)).
  pose proof (firstDir_spec L filename sps) as H.
  destruct (firstDir L filename sps) as [abs|].
  - left. destruct H as (i & sp & Hi & -> & Hdir & Hbefore).
    exists i, (Join sp filename). repeat split; auto.
    + now rewrite list_lookup_fmap, Hi.
    + intros j c' Hj Hc'. rewrite list_lookup_fmap in Hc'.
      destruct (sps !! j) as [sp'|] eqn:Hsp'; simpl in Hc'; [|discriminate].
      inversion Hc'; subst. eapply Hbefore; eauto.
  - right. split; [|reflexivity].
    intros c Hc. apply list_elem_of_fmap in Hc as (sp & -> & Hsp). auto.
Qed.

(** [include "util"] from [/proj/main.g] with [/proj/util] a directory:
    the second joined candidate is the first directory. *)
Lemma ResolveDepPath_first_joined_candidate_witness :
  (exists i c,
      candidates (FromString "/proj") "util" !! i = Some c
      /\ fst (PathIsDir projWithUtil c) = true
      /\ (forall j c', (j < i)%nat ->
                       candidates (FromString "/proj") "util" !! j = Some c' ->
                       fst (PathIsDir projWithUtil c') = false)
      /\ ResolveDepPath projWithUtil (FromString "/proj") "util" = c)
  \/ ((forall c, c ∈ candidates (FromString "/proj") "util" ->
                 fst (PathIsDir projWithUtil c) = false)
      /\ ResolveDepPath projWithUtil (FromString "/proj") "util"
         = Join (FromString "/proj") "util").
Proof.
  exact (ResolveDepPath_first_joined_candidate
           projWithUtil (FromString "/proj") "util" eq_refl).
Defined.

Example ResolveDepPath_examples :
  ResolveDepPath projWithUtil (FromString "/proj") "util" = FromString "/proj/util"
  /\ map ToString (candidates (FromString "/home/u/proj") "util")
     = ["/home/u/proj/util/util"; "/home/u/proj/util";
        "/usr/local/lib/geodelib/util"; "/home/u/proj/geodepkgs/util";
        "/home/u/geodepkgs/util"; "/home/geodepkgs/util"]
  /\ ToString (ResolveDepPath projOnly (FromString "/proj") "std:io")
     = "/usr/local/lib/geode/io".
Proof. repeat split. Qed.

(** ** C7: registry keys *)

Lemma congealNode_key (pkgName fnName : string) :
  (if String.eqb fnName "main" || String.eqb pkgName "runtime"
   then fnName else pkgName +:+ ":" +:+ fnName)
  = statedFunctionKey pkgName fnName.
Proof.
  unfold statedFunctionKey.
  destruct (String.eqb_spec fnName "main") as [Hn|Hn];
    destruct (String.eqb_spec pkgName "runtime") as [Hp|Hp];
    cbn [orb]; case_bool_decide as Hd; try reflexivity.
  - elim Hd; auto.
  - elim Hd; auto.
  - elim Hd; auto.
  - destruct Hd; contradiction.
Qed.

(** What one package's nodes add to the function registry. *)
Lemma congealNodes_registry (pkgPtr : PkgPtr) (pkg : Package.t) (pkgNodes : list Node) :
  forall acc p nodes p',
    congealNodes pkgPtr pkg pkgNodes acc p = Done nodes p' ->
    Program.packages p' = Program.packages p
    /\ (forall key node,
          Program.Functions p' !! key = Some node ->
          Program.Functions p !! key = Some node
          \/ exists fn, NFunction fn ∈ pkgNodes
                        /\ node = FunctionNode.set_Package (Some pkgPtr) fn
                        /\ key = statedFunctionKey (Package.Name pkg) (FunctionNode.Name fn))
    /\ (forall key, is_Some (Program.Functions p !! key) ->
                    is_Some (Program.Functions p' !! key))
    /\ (forall fn, NFunction fn ∈ pkgNodes ->
                   is_Some (Program.Functions p'
                            !! statedFunctionKey (Package.Name pkg) (FunctionNode.Name fn))).
Proof.
  induction pkgNodes as [|node rest IH]; intros acc p nodes p' H.
  - simpl in H. inversion H; subst. repeat split; auto.
    intros fn Hin. inversion Hin.
  - simpl in H. unfold bind in H.
    destruct (congealNode pkgPtr pkg node p) as [[] p1| | |] eqn:Hnode; try discriminate.
    apply IH in H as (Hpk & Hsound & Hmono & Hcomplete).
    assert (Hstep :
              Program.packages p1 = Program.packages p
              /\ ((Program.Functions p1 = Program.Functions p
                   /\ forall fn, node <> NFunction fn)
                  \/ exists fn, node = NFunction fn
                                /\ Program.Functions p1
                                   = <[statedFunctionKey (Package.Name pkg) (FunctionNode.Name fn)
                                       := FunctionNode.set_Package (Some pkgPtr) fn]>
                                       (Program.Functions p))).
    { destruct node; simpl in Hnode; inversion Hnode; subst; simpl;
        try (split; [reflexivity|]; left; split; [reflexivity|]; intros fn; discriminate).
      split; [reflexivity|]. right. eexists. split; [reflexivity|].
      now rewrite congealNode_key. }
    destruct Hstep as [Hpk1 Hfun]. split; [congruence|].
    split; [|split].
    + intros key nd Hk. destruct (Hsound key nd Hk) as [Hold|(fn & Hin & -> & ->)].
      * destruct Hfun as [[Hsame _]|(fn & -> & Hf)];
          [left; now rewrite <- Hsame|].
        rewrite Hf in Hold.
        destruct (decide (statedFunctionKey (Package.Name pkg) (FunctionNode.Name fn) = key))
          as [<-|Hne].
        -- rewrite lookup_insert_eq in Hold. inversion Hold; subst.
           right. exists fn. split; [apply list_elem_of_here|]. auto.
        -- rewrite lookup_insert_ne in Hold by auto. now left.
      * right. exists fn. split; [now apply list_elem_of_further|]. auto.
    + intros key Hk. apply Hmono.
      destruct Hfun as [[-> _]|(fn & -> & ->)]; [auto|].
      destruct (decide (statedFunctionKey (Package.Name pkg) (FunctionNode.Name fn) = key))
        as [<-|Hne].
      * rewrite lookup_insert_eq. eauto.
      * now rewrite lookup_insert_ne by auto.
    + intros fn Hin. apply elem_of_cons in Hin as [Heq|Hin]; [|now apply Hcomplete].
      apply Hmono. destruct Hfun as [[_ Hno]|(fn' & Heq' & ->)].
      * now elim (Hno fn).
      * rewrite <- Heq in Heq'. inversion Heq'; subst fn'.
        rewrite lookup_insert_eq. eauto.
Qed.

Lemma congealPackages_registry (order : list PkgPtr) :
  forall acc p nodes p',
    congealPackages order acc p = Done nodes p' ->
    Program.packages p' = Program.packages p
    /\ (forall key node,
          Program.Functions p' !! key = Some node ->
          Program.Functions p !! key = Some node
          \/ exists pkgPtr pkg fn,
               pkgPtr ∈ order /\ Program.packages p !! pkgPtr = Some pkg
               /\ NFunction fn ∈ Package.Nodes pkg
               /\ node = FunctionNode.set_Package (Some pkgPtr) fn
               /\ key = statedFunctionKey (Package.Name pkg) (FunctionNode.Name fn))
    /\ (forall key, is_Some (Program.Functions p !! key) ->
                    is_Some (Program.Functions p' !! key))
    /\ (forall pkgPtr pkg fn,
          pkgPtr ∈ order -> Program.packages p !! pkgPtr = Some pkg ->
          NFunction fn ∈ Package.Nodes pkg ->
          is_Some (Program.Functions p'
                   !! statedFunctionKey (Package.Name pkg) (FunctionNode.Name fn))).
Proof.
  induction order as [|pkgPtr rest IH]; intros acc p nodes p' H.
  - simpl in H. inversion H; subst. repeat split; auto.
    intros pkgPtr pkg fn Hin. inversion Hin.
  - simpl in H. unfold bind, get in H.
    destruct (Program.packages p !! pkgPtr) as [pkg|] eqn:Hpkg; [|discriminate].
    destruct (congealNodes pkgPtr pkg (Package.Nodes pkg) acc p)
      as [nodes1 p1| | |] eqn:Hnodes; try discriminate.
    apply congealNodes_registry in Hnodes as (Hpk1 & Hsound1 & Hmono1 & Hcomplete1).
    apply IH in H as (Hpk & Hsound & Hmono & Hcomplete).
    split; [congruence|]. split; [|split].
    + intros key nd Hk.
      destruct (Hsound key nd Hk) as [Hold|(k & pk & fn & Hin & Hat & Hfn & -> & ->)].
      * destruct (Hsound1 key nd Hold) as [Hold1|(fn & Hin & -> & ->)]; [now left|].
        right. exists pkgPtr, pkg, fn. repeat split; auto. apply list_elem_of_here.
      * right. exists k, pk, fn. rewrite Hpk1 in Hat. repeat split; auto.
        now apply list_elem_of_further.
    + intros key Hk. auto.
    + intros k pk fn Hin Hat Hfn.
      apply elem_of_cons in Hin as [->|Hin].
      * rewrite Hpkg in Hat. inversion Hat; subst pk. auto.
      * eapply Hcomplete; eauto. now rewrite Hpk1.
Qed.

(** C7. After the registration loop of [Congeal], whatever the order in
    which the packages are visited: every entry of the function registry
    holds a function node of one of the packages, with its package
    back-pointer set, under the key ["<pkg>:<name>"], or under the bare
    name when the function is called [main] or its package is called
    [runtime]; and every function node of every package has an entry
    under its key. *)
Theorem congealRegister_keys
    (D : Driver) (order : list PkgPtr) (p p' : Program.t)
    (nodes : list PackagedNode.t) :
  congealRegister D order p = Done nodes p' ->
  (forall key node,
      Program.Functions p' !! key = Some node ->
      exists pkgPtr pkg fn,
        pkgPtr ∈ order /\ Program.packages p !! pkgPtr = Some pkg
        /\ NFunction fn ∈ Package.Nodes pkg
        /\ node = FunctionNode.set_Package (Some pkgPtr) fn
        /\ key = statedFunctionKey (Package.Name pkg) (FunctionNode.Name fn))
  /\ (forall pkgPtr pkg fn,
        pkgPtr ∈ order -> Program.packages p !! pkgPtr = Some pkg ->
        NFunction fn ∈ Package.Nodes pkg ->
        is_Some (Program.Functions p'
                 !! statedFunctionKey (Package.Name pkg) (FunctionNode.Name fn))).
Proof.
  unfold congealRegister, bind, modify. intros H.
  apply congealPackages_registry in H as (Hpk & Hsound & _ & Hcomplete).
  simpl in *. split.
  - intros key node Hk. destruct (Hsound key node Hk) as [Hold|Hnew]; [|exact Hnew].
    now rewrite lookup_empty in Hold.
  - exact Hcomplete.
Qed.

(** The registry of the sample packages: [f] of [m] under ["m:f"],
    [main] and the runtime's [print] under their bare names. *)
Lemma congealRegister_keys_witness :
  is_Some (Program.Functions
             (Program.set_Functions
                {[ "m:f" := FunctionNode.set_Package (Some 0%nat) (sampleNode "f" false);
                   "main" := FunctionNode.set_Package (Some 0%nat) (sampleNode "main" false);
                   "print" := FunctionNode.set_Package (Some 1%nat) (sampleNode "print" true) ]}
                samplePackages)
           !! statedFunctionKey "runtime" "print").
Proof.
  assert (Hrun : exists nodes,
             congealRegister sampleDriver [0%nat; 1%nat] samplePackages
             = Done nodes
                 (Program.set_Functions
                    {[ "m:f" := FunctionNode.set_Package (Some 0%nat) (sampleNode "f" false);
                       "main" := FunctionNode.set_Package (Some 0%nat) (sampleNode "main" false);
                       "print" := FunctionNode.set_Package (Some 1%nat) (sampleNode "print" true) ]}
                    samplePackages)).
  { eexists. vm_compute. reflexivity. }
  destruct Hrun as [nodes Hrun].
  apply (proj2 (congealRegister_keys sampleDriver [0%nat; 1%nat] samplePackages _ nodes Hrun)
               1%nat
               (Package.mk "runtime" ∅ [NFunction (sampleNode "print" true)] [])
               (sampleNode "print" true)).
  - apply list_elem_of_further, list_elem_of_here.
  - reflexivity.
  - apply list_elem_of_here.
Defined.

(** ** C4: the package map *)

Lemma keeps_ret {A} (a : A) : keepsPackages (ret a).
Proof. intros p a' p' H. inversion H; subst. auto. Qed.

Lemma keeps_bind {A B} (m : M A) (f : A -> M B) :
  keepsPackages m -> (forall a, keepsPackages (f a)) -> keepsPackages (bind m f).
Proof.
  intros Hm Hf p b p' H k v Hk. unfold bind in H.
  destruct (m p) as [a p1| | |] eqn:Hmp; try discriminate.
  eapply Hf; eauto.
Qed.

Lemma keeps_modify (f : Program.t -> Program.t) :
  (forall p, Program.Packages (f p) = Program.Packages p) -> keepsPackages (modify f).
Proof. intros Hf p a p' H k v Hk. inversion H; subst. now rewrite Hf. Qed.

Lemma keeps_get : keepsPackages get.
Proof. intros p a p' H. inversion H; subst. auto. Qed.

Lemma keeps_fatal {A} msg : keepsPackages (@fatal A msg).
Proof. intros p a p' H. discriminate. Qed.

Lemma keeps_panic {A} : keepsPackages (@panic A).
Proof. intros p a p' H. discriminate. Qed.

Lemma keeps_updatePackage k f : keepsPackages (updatePackage k f).
Proof.
  intros p a p' H. unfold updatePackage in H.
  destruct (Program.packages p !! k); inversion H; subst. auto.
Qed.

Create HintDb keeps.

#[local] Hint Resolve keeps_ret keeps_get keeps_fatal keeps_panic
  keeps_updatePackage : keeps.

Section LoaderKeeps.

Variable L : Loader.
Variable parseText : string -> Path -> M unit.
Hypothesis parseText_keeps : forall code path, keepsPackages (parseText code path).

Lemma keeps_ParseFile_with path : keepsPackages (ParseFile_with L parseText path).
Proof. unfold ParseFile_with. destruct (ReadFile L path); auto with keeps. Qed.

Lemma keeps_parseFiles_with files : keepsPackages (parseFiles_with L parseText files).
Proof.
  induction files; simpl; auto with keeps.
  apply keeps_bind; auto using keeps_ParseFile_with.
Qed.

Lemma keeps_ParsePath_with dir : keepsPackages (ParsePath_with L parseText dir).
Proof.
  unfold ParsePath_with. destruct (Abs L _) as [absEntry|]; auto with keeps.
  apply keeps_bind; auto with keeps. intros q.
  destruct (ParseDir L absEntry q); auto using keeps_parseFiles_with with keeps.
Qed.

Lemma keeps_ParseDep_with base path : keepsPackages (ParseDep_with L parseText base path).
Proof.
  unfold ParseDep_with. apply keeps_bind; auto with keeps. intros p.
  destruct (CanParse p _); auto using keeps_ParsePath_with with keeps.
Qed.

Lemma keeps_parseDepPaths_with newPkg base cLinkage paths :
  keepsPackages (parseDepPaths_with L parseText newPkg base cLinkage paths).
Proof.
  induction paths as [|depPath rest IH]; simpl; auto with keeps.
  apply keeps_bind; [|auto]. destruct cLinkage.
  - now apply keeps_modify.
  - apply keeps_bind; auto using keeps_ParseDep_with with keeps.
Qed.

Lemma keeps_parseDependencies_with newPkg path nodes :
  keepsPackages (parseDependencies_with L parseText newPkg path nodes).
Proof.
  induction nodes as [|node rest IH]; simpl; auto with keeps.
  apply keeps_bind; [|auto].
  destruct node; auto using keeps_parseDepPaths_with with keeps.
Qed.

End LoaderKeeps.

Lemma keeps_logError L msg : keepsPackages (logError L msg).
Proof. unfold logError. destruct (ErrorExits L); auto with keeps. Qed.

Lemma leaves_keeps {A} (m : M A) : leavesPackages m -> keepsPackages m.
Proof. intros H p a p' Hr k v Hk. now rewrite (H p a p' Hr). Qed.

Lemma keeps_ParseText_with L parseText code path :
  (forall name, leavesPackages (NewPackage L name)) ->
  (forall c f, keepsPackages (parseText c f)) ->
  keepsPackages (ParseText_with L parseText code path).
Proof.
  intros Hnew Hrec. unfold ParseText_with.
  apply keeps_bind; [now apply keeps_modify|]. intros _.
  destruct (negb (NewSourcefile L path)); auto with keeps.
  destruct (NamespaceFromNodes (Parse L code)) as [name|]; auto with keeps.
  apply keeps_bind.
  { destruct (negb _); auto using keeps_logError with keeps. }
  intros _. apply keeps_bind; [apply leaves_keeps, Hnew|]. intros newPkg.
  apply keeps_bind; auto with keeps. intros _.
  intros p0 a p1 H k v Hk.
  unfold bind at 1 in H. unfold get in H. cbv beta iota in H.
  unfold bind at 1 in H.
  destruct (Program.Packages p0 !! path) eqn:Hp;
    unfold ret, modify in H; cbv beta iota in H.
  - exact (keeps_parseDependencies_with L parseText Hrec _ _ _ _ _ _ H k v Hk).
  - apply (keeps_parseDependencies_with L parseText Hrec _ _ _ _ _ _ H k v).
    simpl. rewrite lookup_insert_ne; auto. congruence.
Qed.

Lemma keeps_ParseText L fuel :
  (forall name, leavesPackages (NewPackage L name)) ->
  forall code path, keepsPackages (ParseText L fuel code path).
Proof.
  intros Hnew. induction fuel as [|fuel IH]; intros code path.
  - intros p a p' H. discriminate.
  - simpl. now apply keeps_ParseText_with.
Qed.

Lemma leaves_freshPackage name : leavesPackages (freshPackage name).
Proof. intros p a p' H. inversion H; subst. reflexivity. Qed.

(** C4 as stated fails.  Two files of one directory that both declare
    the namespace [m] are parsed one after the other: the package map
    ends with two entries, under the two file paths, pointing to two
    different packages that are both called [m]; under the namespace
    name there is no entry. *)
Lemma ParseText_same_namespace_two_packages :
  exists p,
    (ParseText twoFiles 1 "A" fileA ;;; ParseText twoFiles 1 "B" fileB)%go emptyProgram
    = Done tt p
    /\ Program.Packages p !! fileA = Some 0%nat
    /\ Program.Packages p !! fileB = Some 1%nat
    /\ Package.Name <$> Program.packages p !! 0%nat = Some "m"
    /\ Package.Name <$> Program.packages p !! 1%nat = Some "m"
    /\ Program.Packages p !! FromString "m" = None
    /\ size (Program.Packages p) = 2%nat.
Proof.
  eexists. split; [vm_compute; reflexivity|].
  repeat split; vm_compute; reflexivity.
Qed.

(** What [ParseText(code, path)] does to the package map: every entry
    the map had is still there, unchanged; and if [path] had no entry,
    it now has one, the package that [NewPackage] returned when called,
    for this file, with the namespace name the file declares.  (The
    constructor is taken not to touch the map itself.) *)
Lemma ParseText_package_entry
    (L : Loader) (fuel : nat) (code : string) (path : Path) (p p' : Program.t) :
  (forall name, leavesPackages (NewPackage L name)) ->
  ParseText L fuel code path p = Done tt p' ->
  (forall k v, Program.Packages p !! k = Some v -> Program.Packages p' !! k = Some v)
  /\ (Program.Packages p !! path = None ->
      exists name q newPkg q',
        NamespaceFromNodes (Parse L code) = Ok name
        /\ NewPackage L name q = Done newPkg q'
        /\ Program.Packages p' !! path = Some newPkg).
Proof.
  intros Hnew H. split.
  { eapply keeps_ParseText; eauto. }
  intros Hnone. destruct fuel as [|fuel]; [discriminate|].
  simpl in H. unfold ParseText_with in H.
  unfold bind at 1 in H. unfold modify at 1 in H.
  set (q := Program.set_ParsedFiles _ p) in H.
  destruct (negb (NewSourcefile L path)); [discriminate|].
  destruct (NamespaceFromNodes (Parse L code)) as [name|]; [|discriminate].
  unfold bind at 1 in H.
  destruct ((if negb (namespacePattern_MatchString name) then logError L _ else ret tt) q)
    as [[] q1| | |] eqn:Hlog; try discriminate.
  assert (Hq1 : q1 = q).
  { destruct (negb _); [unfold logError in Hlog; destruct (ErrorExits L)|];
      inversion Hlog; reflexivity. }
  subst q1. unfold bind at 1 in H.
  destruct (NewPackage L name q) as [newPkg q2| | |] eqn:Hnp; try discriminate.
  exists name, q, newPkg, q2. split; [reflexivity|]. split; [exact Hnp|].
  assert (Hq2 : Program.Packages q2 !! path = None).
  { rewrite (Hnew name q newPkg q2 Hnp). exact Hnone. }
  unfold bind at 1 in H.
  destruct (updatePackage newPkg _ q2) as [[] q3| | |] eqn:Hup; try discriminate.
  assert (Hq3 : Program.Packages q3 = Program.Packages q2).
  { unfold updatePackage in Hup.
    destruct (Program.packages q2 !! newPkg); inversion Hup; reflexivity. }
  unfold bind at 1 in H. unfold get in H. cbv beta iota in H.
  rewrite Hq3, Hq2 in H. unfold bind at 1 in H. unfold modify in H.
  cbv beta iota in H.
  apply (keeps_parseDependencies_with L (ParseText L fuel)
           (keeps_ParseText L fuel Hnew) _ _ _ _ _ _ H).
  simpl. apply lookup_insert_eq.
Qed.

(** C4, amended.  The package map is keyed by file path.  For every two
    source files, at different paths not yet in the map, that declare
    the same namespace name and are parsed one after the other:
    [NewPackage] is called once for each file with that name, and the
    two packages it returned are stored under the two file paths, one
    entry per file; entries that were in the map before are still there,
    unchanged.  (The constructor is taken not to touch the map itself.) *)
Theorem ParseText_same_namespace_entries
    (L : Loader) (fuelA fuelB : nat) (codeA codeB : string) (pathA pathB : Path)
    (name : string) (p p1 p2 : Program.t) :
  (forall n, leavesPackages (NewPackage L n)) ->
  NamespaceFromNodes (Parse L codeA) = Ok name ->
  NamespaceFromNodes (Parse L codeB) = Ok name ->
  pathA <> pathB ->
  Program.Packages p !! pathA = None ->
  ParseText L fuelA codeA pathA p = Done tt p1 ->
  Program.Packages p1 !! pathB = None ->
  ParseText L fuelB codeB pathB p1 = Done tt p2 ->
  (exists qA pkgA qA' qB pkgB qB',
      NewPackage L name qA = Done pkgA qA'
      /\ NewPackage L name qB = Done pkgB qB'
      /\ Program.Packages p2 !! pathA = Some pkgA
      /\ Program.Packages p2 !! pathB = Some pkgB)
  /\ (forall k v, Program.Packages p !! k = Some v -> Program.Packages p2 !! k = Some v).
Proof.
  intros Hnew HnsA HnsB Hne HnoneA HrunA HnoneB HrunB.
  destruct (ParseText_package_entry L fuelA codeA pathA p p1 Hnew HrunA) as [HkeepA HentryA].
  destruct (ParseText_package_entry L fuelB codeB pathB p1 p2 Hnew HrunB) as [HkeepB HentryB].
  destruct (HentryA HnoneA) as (nA & qA & pkgA & qA' & HnA & HcallA & HatA).
  destruct (HentryB HnoneB) as (nB & qB & pkgB & qB' & HnB & HcallB & HatB).
  rewrite HnsA in HnA. rewrite HnsB in HnB.
  inversion HnA; subst nA. inversion HnB; subst nB.
  split.
  - exists qA, pkgA, qA', qB, pkgB, qB'. repeat split; auto.
  - intros k v Hk. auto.
Qed.

(** The two files of [/proj] that both declare [m]: two entries, under
    [/proj/a.g] and [/proj/b.g]. *)
Lemma ParseText_same_namespace_entries_witness :
  exists qA pkgA qA' qB pkgB qB',
    NewPackage twoFiles "m" qA = Done pkgA qA'
    /\ NewPackage twoFiles "m" qB = Done pkgB qB'
    /\ Program.Packages
         (Program.mk 0%nat (Compiler.mk None []) (IRModule.mk [] [])
            [fileA; fileB] {[ fileA := 0%nat; fileB := 1%nat ]} None [] ∅ ∅
            [Scope.mk None "" 0 ∅ None]
            [Package.mk "m" {[ fileA := "A" ]} nodesA [];
             Package.mk "m" {[ fileB := "B" ]} nodesB []])
       !! fileA = Some pkgA
    /\ Program.Packages
         (Program.mk 0%nat (Compiler.mk None []) (IRModule.mk [] [])
            [fileA; fileB] {[ fileA := 0%nat; fileB := 1%nat ]} None [] ∅ ∅
            [Scope.mk None "" 0 ∅ None]
            [Package.mk "m" {[ fileA := "A" ]} nodesA [];
             Package.mk "m" {[ fileB := "B" ]} nodesB []])
       !! fileB = Some pkgB.
Proof.
  assert (Hne : fileA <> fileB) by discriminate.
  exact (proj1 (ParseText_same_namespace_entries
                  twoFiles 1 1 "A" "B" fileA fileB "m" emptyProgram
                  (Program.mk 0%nat (Compiler.mk None []) (IRModule.mk [] [])
                     [fileA] {[ fileA := 0%nat ]} None [] ∅ ∅
                     [Scope.mk None "" 0 ∅ None]
                     [Package.mk "m" {[ fileA := "A" ]} nodesA []])
                  (Program.mk 0%nat (Compiler.mk None []) (IRModule.mk [] [])
                     [fileA; fileB] {[ fileA := 0%nat; fileB := 1%nat ]} None [] ∅ ∅
                     [Scope.mk None "" 0 ∅ None]
                     [Package.mk "m" {[ fileA := "A" ]} nodesA [];
                      Package.mk "m" {[ fileB := "B" ]} nodesB []])
                  leaves_freshPackage eq_refl eq_refl Hne
                  eq_refl eq_refl eq_refl eq_refl)).
Defined.

(** ** C8: malformed namespace names *)

(** The unanchored pattern accepts any name that contains a lowercase
    letter or an underscore. *)
Lemma namespacePattern_accepts_substring (name : string) (c : ascii) :
  In c (String.list_ascii_of_string name) -> isLowerOrUnderscore c = true ->
  namespacePattern_MatchString name = true.
Proof.
  intros Hin Hc. unfold namespacePattern_MatchString.
  apply existsb_exists. eauto.
Qed.

Lemma namespaceWellFormed_matches (name : string) :
  namespaceWellFormed name = true -> namespacePattern_MatchString name = true.
Proof.
  unfold namespaceWellFormed, namespacePattern_MatchString.
  destruct name as [|c rest]; [discriminate|]. simpl.
  intros H. apply andb_prop in H as [Hc _]. now rewrite Hc.
Qed.

(** A file without dependency nodes whose namespace name the pattern
    accepts: [ParseText] returns, with the new package stored under the
    file's path, whatever the rest of the name looks like and whatever
    [log.Error] does. *)
Lemma ParseText_accepted_name_returns
    (L : Loader) (fuel : nat) (code : string) (path : Path) (p q : Program.t)
    (name : string) (newPkg : PkgPtr) (k : Package.t) :
  NewSourcefile L path = true ->
  NamespaceFromNodes (Parse L code) = Ok name ->
  namespacePattern_MatchString name = true ->
  FilterNodes (Parse L code) nodeDependency = [] ->
  NewPackage L name (Program.set_ParsedFiles (Program.ParsedFiles p ++ [path]) p)
  = Done newPkg q ->
  Program.packages q !! newPkg = Some k ->
  Program.Packages q !! path = None ->
  exists p',
    ParseText L (S fuel) code path p = Done tt p'
    /\ Program.Packages p' !! path = Some newPkg
    /\ Program.packages p' !! newPkg
       = Some (Package.set_Nodes (Parse L code)
                 (Package.set_Files (<[path := code]> (Package.Files k)) k)).
Proof.
  intros Hsrc Hns Hmatch Hdeps Hnew Hk Hnone.
  change (ParseText L (S fuel) code path)
    with (ParseText_with L (ParseText L fuel) code path).
  unfold ParseText_with, bind, modify, ret, get, updatePackage.
  rewrite Hsrc, Hns, Hmatch. cbn [negb]. cbv beta iota.
  rewrite Hnew. cbv beta iota. rewrite Hk. cbv beta iota.
  cbn [Program.Packages Program.set_packages]. rewrite Hnone, Hdeps.
  cbn [parseDependencies_with]. unfold ret.
  eexists. split; [reflexivity|]. cbn. split.
  - apply lookup_insert_eq.
  - apply list_lookup_insert_eq. eapply lookup_lt_Some; eauto.
Qed.

(** C8, failing input.  The file [/proj/a.g] declares the namespace
    [Foo], which is not made of lowercase letters and underscores only.
    The unanchored pattern finds ["oo"] in it, so [ParseText] reports
    nothing, whether or not [log.Error] would end the process, and
    returns normally with a package called [Foo] stored for the file. *)
Theorem ParseText_accepts_Foo :
  namespaceWellFormed "Foo" = false
  /\ namespacePattern_MatchString "Foo" = true
  /\ forall errorExits : bool,
       exists p',
         ParseText (fooFile errorExits) 1 "A" fileA emptyProgram = Done tt p'
         /\ Program.Packages p' !! fileA = Some 0%nat
         /\ Package.Name <$> Program.packages p' !! 0%nat = Some "Foo".
Proof.
  split; [reflexivity|]. split; [reflexivity|].
  intros []; eexists; (split; [vm_compute; reflexivity|]);
    split; vm_compute; reflexivity.
Qed.

(** A name without any lowercase letter or underscore is the only kind
    the pattern rejects; what follows then is up to [log.Error]: if it
    returns, the package is created all the same. *)
Example ParseText_rejected_name :
  namespacePattern_MatchString "FOO" = false
  /\ (exists msg,
        ParseText (sampleLoader [FromString "/proj"] [(fileA, "A")]
                     [("A", [NNamespace (NamespaceNode.mk "FOO")])] true)
                  1 "A" fileA emptyProgram = Fatal msg)
  /\ (exists p',
        ParseText (sampleLoader [FromString "/proj"] [(fileA, "A")]
                     [("A", [NNamespace (NamespaceNode.mk "FOO")])] false)
                  1 "A" fileA emptyProgram = Done tt p'
        /\ Package.Name <$> Program.packages p' !! 0%nat = Some "FOO").
Proof.
  split; [reflexivity|]. split.
  - eexists. vm_compute. reflexivity.
  - eexists. split; vm_compute; reflexivity.
Qed.

(** * Further properties of the embedded code *)

(** ** Casts *)

Lemma emit_inv i p r p' :
  emit i p = Done r p' ->
  r = i /\ currentInsts p' = (currentInsts p ++ [i])%list.
Proof.
  unfold emit. intros H.
  destruct (CurrentBlock p) as [b|] eqn:Hc; [|discriminate].
  destruct (blockAt p b) as [blk|] eqn:Hb; [|discriminate].
  inversion H; subst. split; [reflexivity|]. now apply currentInsts_emit.
Qed.

Lemma emitted_inv i p r p' :
  emitted i p = Done r p' ->
  r = Ok (Some i) /\ currentInsts p' = (currentInsts p ++ [i])%list.
Proof.
  unfold emitted, bind, ret. intros H.
  destruct (emit i p) as [a q| | |] eqn:He; try discriminate.
  apply emit_inv in He as [-> Hins]. inversion H; subst. auto.
Qed.

Lemma retype_type v to :
  isConstantInt v = true \/ isConstantFloat v = true -> Type_ (retype v to) = to.
Proof. destruct v; simpl; intros [|]; try discriminate; reflexivity. Qed.

Lemma same_size_int_equal t u :
  IsInt t = true -> IsInt u = true -> (typeSize t =? typeSize u)%Z = true -> t = u.
Proof.
  destruct t, u; simpl; try discriminate. intros _ _ H.
  apply Z.eqb_eq in H. congruence.
Qed.

Lemma same_size_float_equal t u :
  IsFloat t = true -> IsFloat u = true -> (typeSize t =? typeSize u)%Z = true -> t = u.
Proof.
  destruct t, u; simpl; try discriminate. intros _ _ H.
  apply Z.eqb_eq in H. congruence.
Qed.

(** X1. Whatever [createTypeCast] returns as a value has the target type,
    and the current block has had nothing appended or exactly the
    returned instruction. *)
Theorem createTypeCast_result_type v to p r p' :
  Lower.createTypeCast v to p = Done (Ok (Some r)) p' ->
  Type_ r = to
  /\ (currentInsts p' = currentInsts p
      \/ currentInsts p' = (currentInsts p ++ [r])%list).
Proof.
  unfold Lower.createTypeCast. cbv zeta. intros H.
  repeat match type of H with
         | (if ?c then _ else _) _ = _ =>
             let E := fresh "E" in destruct c eqn:E
         end.
  all: try (apply emitted_inv in H as [Hr Hins]; inversion Hr; subst;
            split; [reflexivity | now right]).
  all: unfold ret in H; try discriminate H.
  all: try (inversion H; subst; split; [|now left]).
  all: try (apply Equal_eq; assumption).
  all: try (apply retype_type; apply andb_prop in E0 as [? _]; auto; fail).
  all: try (apply retype_type; apply andb_prop in E1 as [? _]; auto; fail).
  all: try (apply andb_prop in E6 as [? ?]; now apply same_size_int_equal).
  all: try (apply andb_prop in E7 as [? ?]; now apply same_size_float_equal).
Qed.

Lemma createTypeCast_prev_typed v to p r p' :
  LowerPrev.createTypeCast v to p = Done (Ok (Some r)) p' -> Type_ r = to.
Proof.
  unfold LowerPrev.createTypeCast. cbv zeta. intros H.
  repeat match type of H with
         | (if ?c then _ else _) _ = _ =>
             let E := fresh "E" in destruct c eqn:E
         end.
  all: try (apply emitted_inv in H as [Hr Hins]; inversion Hr; subst; reflexivity).
  all: unfold ret in H; try discriminate H.
  all: inversion H; subst.
  all: try (apply Equal_eq; assumption).
  all: try (apply retype_type; apply andb_prop in E as [? _]; auto; fail).
  all: try (apply retype_type; apply andb_prop in E0 as [? _]; auto; fail).
  all: try (apply andb_prop in E5 as [? ?]; now apply same_size_int_equal).
  all: try (apply andb_prop in E6 as [? ?]; now apply same_size_float_equal).
Qed.

(** X2. The same holds for the earlier revision of [createTypeCast]:
    a value it returns has the target type, and the current block has
    had nothing appended or exactly the returned instruction. *)
Theorem createTypeCast_prev_result_type v to p r p' :
  LowerPrev.createTypeCast v to p = Done (Ok (Some r)) p' ->
  Type_ r = to
  /\ (currentInsts p' = currentInsts p
      \/ currentInsts p' = (currentInsts p ++ [r])%list).
Proof.
  unfold LowerPrev.createTypeCast. cbv zeta. intros H.
  repeat match type of H with
         | (if ?c then _ else _) _ = _ =>
             let E := fresh "E" in destruct c eqn:E
         end.
  all: try (apply emitted_inv in H as [Hr Hins]; inversion Hr; subst;
            split; [reflexivity | now right]).
  all: unfold ret in H; try discriminate H.
  all: try (inversion H; subst; split; [|now left]).
  all: try (apply Equal_eq; assumption).
  all: try (apply retype_type; apply andb_prop in E as [? _]; auto; fail).
  all: try (apply retype_type; apply andb_prop in E0 as [? _]; auto; fail).
  all: try (apply andb_prop in E5 as [? ?]; now apply same_size_int_equal).
  all: try (apply andb_prop in E6 as [? ?]; now apply same_size_float_equal).
Qed.

Lemma emitted_run i b blk p :
  CurrentBlock p = Some b -> blockAt p b = Some blk ->
  emitted i p = Done (Ok (Some i)) (set_block b (append i blk) p).
Proof.
  intros Hc Hb. unfold emitted, bind, ret. now rewrite (emit_run i b blk p Hc Hb).
Qed.

Lemma constant_int_type v :
  constantWellTyped v = true -> isConstantInt v = true -> IsInt (Type_ v) = true.
Proof. destruct v; simpl; auto; discriminate. Qed.

Lemma constant_float_type v :
  constantWellTyped v = true -> isConstantFloat v = true -> IsFloat (Type_ v) = true.
Proof. destruct v; simpl; auto; discriminate. Qed.

(** X3. With a block to emit into, [createTypeCast] always returns: a value
    (or nil, for a cast to [void]) when the types are equal, the target
    is [void], or source and target are both among integer, float and
    pointer and not a pointer with a float; the error "Failed to
    typecast", with the program untouched, in every other case. *)
Theorem createTypeCast_castable v to p b blk :
  constantWellTyped v = true ->
  CurrentBlock p = Some b -> blockAt p b = Some blk ->
  (castable (Type_ v) to = true ->
   exists r p', Lower.createTypeCast v to p = Done (Ok r) p')
  /\ (castable (Type_ v) to = false ->
      Lower.createTypeCast v to p = Done (Err (typecastError (Type_ v) to)) p).
Proof.
  intros Hwt Hc Hb.
  pose proof (constant_int_type v Hwt) as Hci.
  pose proof (constant_float_type v Hwt) as Hcf.
  pose proof (fun i => emitted_run i b blk p Hc Hb) as Hem.
  unfold castable, castableKinds, isScalar, Lower.createTypeCast. cbv zeta.
  destruct (Equal (Type_ v) to) eqn:He; [split; [eauto|discriminate]|].
  destruct (isConstantInt v) eqn:Hki; [specialize (Hci eq_refl)|clear Hci];
    destruct (isConstantFloat v) eqn:Hkf; [specialize (Hcf eq_refl)| |specialize (Hcf eq_refl)|];
    clear Hkf Hki Hwt;
    destruct (Type_ v) eqn:Ht, to; simpl in *; try discriminate;
    rewrite ?Hem;
    repeat match goal with
           | |- context [if ?c then _ else _] => destruct c eqn:?
           end;
    rewrite ?Hem; unfold ret;
    (split; intros Hx; try discriminate Hx; eauto).
Qed.

Lemma createTypeCast_result_type_witness :
  Type_ (InstSExt (Local 0 I8) I64) = I64
  /\ (currentInsts
         (set_block 0%nat (append (InstSExt (Local 0 I8) I64) (mkBlock "entry" [] None 0%nat))
                    oneBlockProgram)
       = currentInsts oneBlockProgram
      \/ currentInsts
           (set_block 0%nat (append (InstSExt (Local 0 I8) I64) (mkBlock "entry" [] None 0%nat))
                      oneBlockProgram)
         = (currentInsts oneBlockProgram ++ [InstSExt (Local 0 I8) I64])%list).
Proof.
  exact (createTypeCast_result_type (Local 0 I8) I64 oneBlockProgram _ _ eq_refl).
Defined.

Lemma createTypeCast_prev_result_type_witness :
  Type_ (InstTrunc (Local 0 I64) I8) = I8
  /\ (currentInsts
         (set_block 0%nat (append (InstTrunc (Local 0 I64) I8) (mkBlock "entry" [] None 0%nat))
                    oneBlockProgram)
       = currentInsts oneBlockProgram
      \/ currentInsts
           (set_block 0%nat (append (InstTrunc (Local 0 I64) I8) (mkBlock "entry" [] None 0%nat))
                      oneBlockProgram)
         = (currentInsts oneBlockProgram ++ [InstTrunc (Local 0 I64) I8])%list).
Proof.
  exact (createTypeCast_prev_result_type (Local 0 I64) I8 oneBlockProgram _ _ eq_refl).
Defined.

(** A struct value cannot be cast to [i32]; an [i32] can be cast to a
    pointer. *)
Lemma createTypeCast_castable_witness :
  Lower.createTypeCast (Local 0 (StructType "RGB")) I32 oneBlockProgram
  = Done (Err (typecastError (StructType "RGB") I32)) oneBlockProgram
  /\ exists r p',
       Lower.createTypeCast (Local 0 I32) (PointerType I8) oneBlockProgram = Done (Ok r) p'.
Proof.
  split.
  - exact (proj2 (createTypeCast_castable (Local 0 (StructType "RGB")) I32
                    oneBlockProgram 0%nat (mkBlock "entry" [] None 0%nat)
                    eq_refl eq_refl eq_refl) eq_refl).
  - exact (proj1 (createTypeCast_castable (Local 0 I32) (PointerType I8)
                    oneBlockProgram 0%nat (mkBlock "entry" [] None 0%nat)
                    eq_refl eq_refl eq_refl) eq_refl).
Defined.

(** ** Unary operators in the two revisions *)

Lemma bind_ext {A B} (m : M A) (f g : A -> M B) p :
  (forall a q, f a q = g a q) -> bind m f p = bind m g p.
Proof. intros H. unfold bind. destruct (m p); auto. Qed.

(** X5. Where [SyntaxError] only reports (it returns and leaves the
    program as it is), the two revisions of [UnaryNode.Codegen] give
    the same result and the same program for every operator other than
    [&] and [!].  For these two the earlier revision lowers the operand
    and hands its value back, emitting nothing of its own and reporting
    nothing.  On [-] applied to a value that is neither an integer nor a
    float the earlier revision calls [SyntaxError] on the node before
    it returns the error. *)
Theorem UnaryNode_Codegen_revisions (L : NodeLowerer)
    (SyntaxError : UnaryNode.t -> M unit) (OperandSyntaxError : Node -> M unit)
    (n : UnaryNode.t) :
  (revisedOperator (UnaryNode.Operator n) = false ->
   onlyReports (SyntaxError n) ->
   onlyReports (OperandSyntaxError (UnaryNode.Operand n)) ->
   forall p,
     LowerPrevUnary.Codegen L SyntaxError OperandSyntaxError n p = Lower.Codegen L n p)
  /\ (revisedOperator (UnaryNode.Operator n) = true ->
      forall p v p1,
        NodeCodegen L (UnaryNode.Operand n) p = Done (Ok (Some v)) p1 ->
        LowerPrevUnary.Codegen L SyntaxError OperandSyntaxError n p
        = Done (Ok (Some v)) p1)
  /\ (UnaryNode.Operator n = "-" ->
      forall p v p1,
        NodeCodegen L (UnaryNode.Operand n) p = Done (Ok (Some v)) p1 ->
        IsFloat (Type_ v) = false -> IsInt (Type_ v) = false ->
        LowerPrevUnary.Codegen L SyntaxError OperandSyntaxError n p
        = (SyntaxError n ;;;
           ret (Err "Unable to make a non integer/float into a negative"))%go p1).
Proof.
  destruct n as [op operand]. unfold revisedOperator. cbn [UnaryNode.Operator UnaryNode.Operand].
  split; [|split].
  - intros Hop Hs Ho p. apply orb_false_elim in Hop as [Hamp Hnot].
    unfold Lower.Codegen, LowerPrevUnary.Codegen.
    cbn [UnaryNode.Operator UnaryNode.Operand].
    rewrite Hamp, Hnot. apply bind_ext. intros [[v|]|e] p1; try reflexivity.
    + destruct (String.eqb op "-").
      * destruct (IsFloat (Type_ v)); [reflexivity|].
        destruct (IsInt (Type_ v)); [reflexivity|].
        unfold bind. now rewrite Hs.
      * destruct (String.eqb op "*"); [|reflexivity].
        destruct (IsPointer (Type_ v)); [reflexivity|].
        unfold bind. now rewrite Hs.
    + unfold bind. now rewrite Ho.
  - intros Hop p v p1 Hgen.
    unfold LowerPrevUnary.Codegen. unfold bind at 1.
    cbn [UnaryNode.Operator UnaryNode.Operand]. rewrite Hgen.
    destruct (String.eqb_spec op "&") as [->|Hamp]; [reflexivity|].
    destruct (String.eqb_spec op "!") as [->|Hnot]; [reflexivity|discriminate].
  - intros -> p v p1 Hgen Hf Hi.
    unfold LowerPrevUnary.Codegen. unfold bind at 1.
    cbn [UnaryNode.Operator UnaryNode.Operand]. rewrite Hgen.
    change (String.eqb "-" "-") with true. cbv iota. now rewrite Hf, Hi.
Qed.

(** [-x] for a double [x], with a [SyntaxError] that only reports. *)
Lemma UnaryNode_Codegen_revisions_witness :
  LowerPrevUnary.Codegen (sampleLowerer (Local 0 (FloatType 64)))
                         (fun _ => ret tt) (fun _ => ret tt)
                         (UnaryNode.mk "-" (OtherNode 0)) oneBlockProgram
  = Lower.Codegen (sampleLowerer (Local 0 (FloatType 64)))
                  (UnaryNode.mk "-" (OtherNode 0)) oneBlockProgram.
Proof.
  apply (proj1 (UnaryNode_Codegen_revisions
                  (sampleLowerer (Local 0 (FloatType 64)))
                  (fun _ => ret tt) (fun _ => ret tt)
                  (UnaryNode.mk "-" (OtherNode 0))) eq_refl).
  - intros p. reflexivity.
  - intros p. reflexivity.
Defined.

(** ** Terminators *)

(** X6. After [branchIfNoTerminator] a block always has a terminator; a
    terminator that was there is kept, the instructions are untouched,
    and a second call, to any target, changes nothing. *)
Theorem branchIfNoTerminator_terminated (b : BasicBlock) (t1 t2 : BlockPtr) :
  is_Some (Term (LowerPrev.branchIfNoTerminator b t1))
  /\ Insts (LowerPrev.branchIfNoTerminator b t1) = Insts b
  /\ (forall tm, Term b = Some tm ->
                 Term (LowerPrev.branchIfNoTerminator b t1) = Some tm)
  /\ LowerPrev.branchIfNoTerminator (LowerPrev.branchIfNoTerminator b t1) t2
     = LowerPrev.branchIfNoTerminator b t1.
Proof.
  unfold LowerPrev.branchIfNoTerminator, NewBr.
  destruct b as [nm ins [tm|] par]; simpl; repeat split; eauto; congruence.
Qed.

(** ** Literals *)

(** X7. A boolean literal lowers to an [i1] constant that is 1 exactly for
    the text [true]; every other text, not only [false], gives 0. *)
Theorem BooleanNode_Codegen_value (n : BooleanNode.t) :
  BooleanNode_Codegen n
  = ConstInt (if bool_decide (BooleanNode.Value n = "true") then 1 else 0) I1
  /\ BooleanNode_GenAccess n = BooleanNode_Codegen n.
Proof.
  split; [|reflexivity]. unfold BooleanNode_Codegen, booleanOptions.
  case_bool_decide as Ht.
  - rewrite Ht. reflexivity.
  - destruct (decide (BooleanNode.Value n = "false")) as [Hf|Hf].
    + rewrite Hf. reflexivity.
    + rewrite lookup_insert_ne by congruence.
      rewrite lookup_singleton_ne by congruence. reflexivity.
Qed.

(** ** Character arrays *)

Lemma constantByte_of_ascii c t :
  constantByte (ConstInt (Z.of_nat (nat_of_ascii c)) t) = Some c.
Proof.
  unfold constantByte. pose proof (nat_ascii_bounded c) as Hb.
  replace (0 <=? Z.of_nat (nat_of_ascii c))%Z with true by (symmetry; apply Z.leb_le; lia).
  replace (Z.of_nat (nat_of_ascii c) <? 256)%Z with true by (symmetry; apply Z.ltb_lt; lia).
  simpl. rewrite Nat2Z.id, ascii_nat_embedding. reflexivity.
Qed.

Lemma isZeroByte_of_ascii c t :
  Ascii.eqb c zero = false ->
  isZeroByte (ConstInt (Z.of_nat (nat_of_ascii c)) t) = false.
Proof.
  intros Hc. unfold isZeroByte. apply Z.eqb_neq. intros Hz.
  assert (nat_of_ascii c = 0%nat) as H0 by lia.
  apply (f_equal ascii_of_nat) in H0. rewrite ascii_nat_embedding in H0.
  subst c. discriminate Hc.
Qed.

(** X8. For every string, [newCharArray] yields one [i8] constant per
    byte followed by a single zero byte, marked as a character array;
    and for a string without a zero byte, reading the array as a C
    string gives the string back. *)
Theorem newCharArray_round_trip (s : string) :
  (length (ConstantArray.Elems (newCharArray s)) = S (String.length s)
   /\ last (ConstantArray.Elems (newCharArray s)) = Some (ConstInt 0 I8)
   /\ Forall (fun v => Type_ v = I8) (ConstantArray.Elems (newCharArray s))
   /\ map constantByte (removelast (ConstantArray.Elems (newCharArray s)))
      = map Some (chars s)
   /\ ConstantArray.CharArray (newCharArray s) = true)
  /\ (noZeroByte s = true ->
      cString (ConstantArray.Elems (newCharArray s)) = s).
Proof.
  unfold newCharArray. cbn [ConstantArray.Elems ConstantArray.CharArray].
  split; [repeat split|].
  - rewrite length_app, length_map. simpl.
    induction s as [|c s IH]; simpl in *; lia.
  - apply last_snoc.
  - apply Forall_app. split.
    + apply Forall_forall. intros v Hv. apply list_elem_of_In in Hv.
      apply in_map_iff in Hv as (c & <- & _). reflexivity.
    + repeat constructor.
  - rewrite removelast_last. unfold chars.
    induction (String.list_ascii_of_string s) as [|c l IH]; [reflexivity|].
    cbn [map]. now rewrite constantByte_of_ascii, IH.
  - intros Hs. unfold noZeroByte, chars in Hs. induction s as [|c s IH]; [reflexivity|].
    cbn [String.list_ascii_of_string forallb] in Hs.
    apply andb_true_iff in Hs as [Hc Hs]. apply negb_true_iff in Hc.
    cbn [String.list_ascii_of_string map app cString].
    rewrite (isZeroByte_of_ascii _ _ Hc), constantByte_of_ascii, (IH Hs).
    reflexivity.
Qed.

Lemma newCharArray_round_trip_witness :
  cString (ConstantArray.Elems (newCharArray "hi")) = "hi".
Proof. exact (proj2 (newCharArray_round_trip "hi") eq_refl). Defined.

(** ** Mangled names *)

Lemma pretty_N_go_no_underscore x s :
  In "_"%char (chars (pretty_N_go x s)) -> In "_"%char (chars s).
Proof.
  revert s. induction (N.lt_wf_0 x) as [x _ IH]. intros s H.
  assert (x = 0 \/ 0 < x)%N as [->|Hx] by lia.
  - rewrite pretty_N_go_0 in H. exact H.
  - rewrite pretty_N_go_step in H by exact Hx.
    apply IH in H; [|apply N.div_lt; lia].
    destruct H as [H|H]; [|exact H].
    exfalso. unfold pretty_N_char in H. repeat case_match; discriminate H.
Qed.

Lemma pretty_Z_no_underscore (z : Z) : ~ In "_"%char (chars (pretty z)).
Proof.
  destruct z as [|x|x]; unfold pretty, pretty_Z.
  - simpl. intros [H|[]]. discriminate H.
  - unfold pretty, pretty_positive, pretty, pretty_N.
    destruct (decide (N.pos x = 0%N)) as [H|_]; [discriminate H|].
    intros H. apply pretty_N_go_no_underscore in H. destruct H.
  - unfold pretty, pretty_positive, pretty, pretty_N.
    destruct (decide (N.pos x = 0%N)) as [H|_]; [discriminate H|].
    intros [H|H]; [discriminate H|].
    apply pretty_N_go_no_underscore in H. destruct H.
Qed.

Lemma chars_append_sep c s d : In c (chars (s +:+ String c d)).
Proof. induction s as [|a s IH]; simpl; auto. Qed.

Lemma append_sep_inj c s1 d1 s2 d2 :
  ~ In c (chars d1) -> ~ In c (chars d2) ->
  s1 +:+ String c d1 = s2 +:+ String c d2 -> s1 = s2 /\ d1 = d2.
Proof.
  intros H1 H2. revert s2.
  induction s1 as [|a s1 IH]; intros [|b s2] H; simpl in H.
  - injection H as ->. auto.
  - injection H as _ ->. destruct H1. apply chars_append_sep.
  - injection H as _ <-. destruct H2. apply chars_append_sep.
  - injection H as -> H. apply IH in H as [-> ->]. auto.
Qed.

Lemma mangled_inj name1 name2 (j1 j2 : Z) :
  name1 +:+ "_" +:+ pretty j1 = name2 +:+ "_" +:+ pretty j2 ->
  name1 = name2 /\ j1 = j2.
Proof.
  intros H.
  apply append_sep_inj in H as [-> H]; auto using pretty_Z_no_underscore.
  apply (inj pretty) in H. auto.
Qed.

Lemma wrapInt_small z : (- 2 ^ 63 <= z < 2 ^ 63)%Z -> wrapInt z = z.
Proof.
  intros Hz. unfold wrapInt. rewrite Z.mod_small; lia.
Qed.

Lemma mangleNames_elem names k m :
  (- 2 ^ 63 <= k)%Z -> (k + Z.of_nat (length names) < 2 ^ 63)%Z ->
  In m (mangleNames names k) ->
  exists name j, (k < j <= k + Z.of_nat (length names))%Z
                 /\ m = name +:+ "_" +:+ pretty j.
Proof.
  revert k. induction names as [|n names IH]; intros k Hlo Hhi Hin; [destruct Hin|].
  cbn [mangleNames mangleName] in Hin. cbn [length] in Hhi |- *.
  rewrite wrapInt_small in Hin by lia.
  destruct Hin as [<-|Hin].
  - exists n, (k + 1)%Z. split; [lia|reflexivity].
  - apply IH in Hin as (name & j & Hj & ->); [|lia..].
    exists name, j. split; [lia|reflexivity].
Qed.

(** X9. Successive calls of [mangleName] never give the same name twice,
    even for equal base names, as long as the counter stays within the
    range of [int]; and a mangled name determines both the base name
    and the counter value it was made from. *)
Theorem mangleNames_NoDup (names : list string) (k : Z) :
  (- 2 ^ 63 <= k)%Z -> (k + Z.of_nat (length names) < 2 ^ 63)%Z ->
  List.NoDup (mangleNames names k)
  /\ length (mangleNames names k) = length names
  /\ forall name1 name2 k1 k2,
       fst (mangleName name1 k1) = fst (mangleName name2 k2) ->
       name1 = name2 /\ snd (mangleName name1 k1) = snd (mangleName name2 k2).
Proof.
  intros Hlo Hhi. repeat split.
  - revert k Hlo Hhi. induction names as [|n names IH]; intros k Hlo Hhi.
    + constructor.
    + cbn [mangleNames mangleName]. cbn [length] in Hhi.
      rewrite wrapInt_small by lia. constructor.
      * intros Hin. apply mangleNames_elem in Hin as (name & j & Hj & Heq); [|lia..].
        apply mangled_inj in Heq as [_ Heq]. lia.
      * apply IH; lia.
  - clear Hlo Hhi. revert k. induction names as [|n names IH]; intros k; [reflexivity|].
    cbn [mangleNames mangleName length]. f_equal. apply IH.
  - apply mangled_inj in H as [H _]. exact H.
  - apply mangled_inj in H as [_ H]. exact H.
Qed.

Lemma mangleNames_NoDup_witness :
  List.NoDup (mangleNames ["then"; "then"; "merge"] 0)
  /\ length (mangleNames ["then"; "then"; "merge"] 0) = 3%nat
  /\ forall name1 name2 k1 k2,
       fst (mangleName name1 k1) = fst (mangleName name2 k2) ->
       name1 = name2 /\ snd (mangleName name1 k1) = snd (mangleName name2 k2).
Proof.
  apply (mangleNames_NoDup ["then"; "then"; "merge"] 0); simpl; lia.
Defined.

(** ** Casts in the two revisions *)

(** X4. The two revisions of [createTypeCast] return the same result
    and emit the same instruction, except when the value already has
    the target type and that type is a pointer or [void].  Whenever the
    value already has the target type the later revision returns the
    value as it is and emits nothing; the earlier revision then emits a
    bitcast for a pointer type, and returns nil for [void]. *)
Theorem createTypeCast_revisions_agree v to p :
  (Equal (Type_ v) to && (IsPointer to || Equal to Void) = false ->
   Lower.createTypeCast v to p = LowerPrev.createTypeCast v to p)
  /\ (Equal (Type_ v) to = true ->
      Lower.createTypeCast v to p = Done (Ok (Some v)) p
      /\ (IsPointer to = true ->
          LowerPrev.createTypeCast v to p = emitted (InstBitCast v to) p)
      /\ (Equal to Void = true ->
          LowerPrev.createTypeCast v to p = Done (Ok None) p)).
Proof.
  split.
  - intros H. unfold Lower.createTypeCast, LowerPrev.createTypeCast. cbv zeta.
    destruct (Equal (Type_ v) to) eqn:He; [|reflexivity].
    apply Equal_eq in He. cbn [andb] in H. apply orb_false_elim in H as [Hp Hv].
    subst to.
    destruct (isConstantInt v) eqn:Hci.
    { destruct v; try discriminate Hci. cbn [Type_ retype andb] in *.
      destruct Typ; simpl in *; try discriminate; try reflexivity;
        rewrite ?Z.ltb_irrefl, ?Z.eqb_refl, ?Equal_refl; reflexivity. }
    destruct (isConstantFloat v) eqn:Hcf.
    { destruct v; try discriminate Hcf. cbn [Type_ retype andb] in *.
      destruct Typ; simpl in *; try discriminate; try reflexivity;
        rewrite ?Z.ltb_irrefl, ?Z.eqb_refl, ?Equal_refl; reflexivity. }
    cbn [andb]. rewrite Hv, Hp. cbn [andb].
    destruct (Type_ v) eqn:Ht; simpl in *; try discriminate;
      rewrite ?Z.ltb_irrefl, ?Z.eqb_refl, ?Equal_refl; try reflexivity.
  - intros He. split; [|split].
    + unfold Lower.createTypeCast. cbv zeta. now rewrite He.
    + intros Hp. apply Equal_eq in He. subst to.
      unfold LowerPrev.createTypeCast. cbv zeta.
      destruct (Type_ v) eqn:Ht; try discriminate Hp.
      cbn [IsInt IsFloat IsPointer andb]. rewrite !andb_false_r. reflexivity.
    + intros Hv. apply Equal_eq in He. apply Equal_eq in Hv. subst to.
      unfold LowerPrev.createTypeCast. cbv zeta. rewrite Hv.
      cbn [IsInt IsFloat andb]. rewrite !andb_false_r. reflexivity.
Qed.

(** An [i32] value cast to [i64]: both revisions emit the same sign
    extension.  A pointer cast to its own type: the later revision
    returns it, the earlier one emits a bitcast. *)
Lemma createTypeCast_revisions_agree_witness :
  Lower.createTypeCast (Local 0 I32) I64 oneBlockProgram
  = LowerPrev.createTypeCast (Local 0 I32) I64 oneBlockProgram
  /\ Lower.createTypeCast (Local 0 (PointerType I8)) (PointerType I8) oneBlockProgram
     = Done (Ok (Some (Local 0 (PointerType I8)))) oneBlockProgram
  /\ LowerPrev.createTypeCast (Local 0 (PointerType I8)) (PointerType I8) oneBlockProgram
     = emitted (InstBitCast (Local 0 (PointerType I8)) (PointerType I8)) oneBlockProgram.
Proof.
  split; [|split].
  - exact (proj1 (createTypeCast_revisions_agree (Local 0 I32) I64 oneBlockProgram) eq_refl).
  - exact (proj1 (proj2 (createTypeCast_revisions_agree
                           (Local 0 (PointerType I8)) (PointerType I8) oneBlockProgram)
                        eq_refl)).
  - exact (proj1 (proj2 (proj2 (createTypeCast_revisions_agree
                                  (Local 0 (PointerType I8)) (PointerType I8)
                                  oneBlockProgram)
                               eq_refl)) eq_refl).
Defined.

(** ** [ReturnNode.Codegen], earlier revision *)

Lemma newRet_inv x p u p' :
  newRet x p = Done u p' ->
  exists b blk,
    CurrentBlock p = Some b /\ blockAt p b = Some blk
    /\ CurrentBlock p' = Some b /\ blockAt p' b = Some (NewRet blk x)
    /\ Program.Compiler p' = Program.Compiler p.
Proof.
  unfold newRet. intros H.
  destruct (CurrentBlock p) as [b|] eqn:Hc; [|discriminate].
  destruct (blockAt p b) as [blk|] eqn:Hb; [|discriminate].
  inversion H; subst. exists b, blk. repeat split; auto.
  unfold blockAt, set_block. simpl. apply list_lookup_insert_eq.
  unfold blockAt in Hb. now apply lookup_lt_Some in Hb.
Qed.

(** X10. When [ReturnNode.Codegen] hands back a value, the return
    statement had an operand, which was lowered first; the value is the
    operand's value itself when that already has the return type of the
    function the cursor is on, and otherwise, both types being integer
    types, the value [createTypeCast] returns for the operand's value
    and that return type; either way its type is the return type, and
    the last step sets the current block's terminator to a return of
    that value. *)
Theorem ReturnNode_Codegen_typed (L : NodeLowerer) (F : FunctionTable)
    (SyntaxError : ReturnNode.t -> M unit) (n : ReturnNode.t) p v p' :
  LowerPrevReturn.Codegen L F SyntaxError n p = Done (Ok (Some v)) p' ->
  (exists value r p1 fn p2,
      ReturnNode.Value n = Some value
      /\ NodeCodegen L value p = Done (Ok (Some r)) p1
      /\ Compiler.FN (Program.Compiler p1) = Some fn
      /\ Type_ v = SigRet F fn
      /\ ((Type_ r = SigRet F fn /\ v = r /\ p2 = p1)
          \/ (Type_ r <> SigRet F fn
              /\ IsInt (Type_ r) = true /\ IsInt (SigRet F fn) = true
              /\ LowerPrev.createTypeCast r (SigRet F fn) p1 = Done (Ok (Some v)) p2))
      /\ newRet (Some v) p2 = Done tt p')
  /\ exists b blk,
       CurrentBlock p' = Some b /\ blockAt p' b = Some blk
       /\ Term blk = Some (TermRet (Some v)).
Proof.
  unfold LowerPrevReturn.Codegen, currentFN, bind, get, ret, panic. intros H.
  run_cases.
  all: repeat match goal with
              | H : Done _ _ = Done _ _ |- _ => inversion H; subst; clear H
              end.
  all: match goal with
       | H : newRet _ _ = Done ?u _ |- _ =>
           destruct u; pose proof H as Hret;
           apply newRet_inv in H as (b & blk & _ & _ & Hcur & Hblk & _)
       end.
  all: (split; [|exists b, (NewRet blk (Some v)); repeat split; assumption]).
  - do 5 eexists. split; [reflexivity|]. split; [eassumption|]. split; [eassumption|].
    split; [eapply createTypeCast_prev_typed; eassumption|].
    split; [|exact Hret]. right.
    match goal with
    | H : negb (Equal _ _) = true |- _ =>
        apply negb_true_iff in H; split;
        [intros Heq; apply Equal_eq in Heq; congruence|]
    end.
    match goal with
    | H : negb (IsInt _ && IsInt _) = false |- _ =>
        apply negb_false_iff in H; apply andb_prop in H as [? ?]
    end.
    repeat split; assumption.
  - do 5 eexists. split; [reflexivity|]. split; [eassumption|]. split; [eassumption|].
    match goal with
    | H : negb (Equal _ _) = false |- _ =>
        apply negb_false_iff in H; apply Equal_eq in H
    end.
    split; [assumption|]. split; [|exact Hret]. left. auto.
Qed.

(** [return x] for an [i8] value [x] in a function returning [i64]. *)
Lemma ReturnNode_Codegen_typed_witness :
  exists p',
    LowerPrevReturn.Codegen (sampleLowerer (Local 0 I8)) (sampleFunctions I64)
                            (fun _ => ret tt)
                            (ReturnNode.mk (Some (OtherNode 0))) oneBlockProgram
    = Done (Ok (Some (InstSExt (Local 0 I8) I64))) p'
    /\ exists b blk,
         CurrentBlock p' = Some b /\ blockAt p' b = Some blk
         /\ Term blk = Some (TermRet (Some (InstSExt (Local 0 I8) I64))).
Proof.
  assert (Hrun : exists p',
             LowerPrevReturn.Codegen (sampleLowerer (Local 0 I8)) (sampleFunctions I64)
                                     (fun _ => ret tt)
                                     (ReturnNode.mk (Some (OtherNode 0))) oneBlockProgram
             = Done (Ok (Some (InstSExt (Local 0 I8) I64))) p')
    by (eexists; vm_compute; reflexivity).
  destruct Hrun as [p' Hrun]. exists p'. split; [exact Hrun|].
  exact (proj2 (ReturnNode_Codegen_typed _ _ _ _ _ _ _ Hrun)).
Defined.

(** X11. In a function returning [void] the operand of a [return] is
    not lowered at all, and a [return] without operand is accepted in
    any function: in both cases the current block ends in [ret void],
    nothing else changes and no error is raised. *)
Theorem ReturnNode_Codegen_no_value (L : NodeLowerer) (F : FunctionTable)
    (SyntaxError : ReturnNode.t -> M unit) (n : ReturnNode.t) p fn b blk :
  Compiler.FN (Program.Compiler p) = Some fn ->
  CurrentBlock p = Some b -> blockAt p b = Some blk ->
  Equal (SigRet F fn) Void = true \/ ReturnNode.Value n = None ->
  LowerPrevReturn.Codegen L F SyntaxError n p
  = Done (Ok None) (set_block b (NewRet blk None) p).
Proof.
  intros Hfn Hc Hb Hcase.
  unfold LowerPrevReturn.Codegen, currentFN, bind. rewrite Hfn.
  assert (Hret : newRet None p = Done tt (set_block b (NewRet blk None) p))
    by (unfold newRet; now rewrite Hc, Hb).
  destruct Hcase as [Hvoid|Hbare].
  - rewrite Hvoid. cbn [negb]. unfold ret. now rewrite Hret.
  - rewrite Hbare. destruct (negb (Equal (SigRet F fn) Void)); unfold ret; now rewrite Hret.
Qed.

(** [return x] in a function returning [void]. *)
Lemma ReturnNode_Codegen_no_value_witness :
  LowerPrevReturn.Codegen (sampleLowerer (Local 0 I8)) (sampleFunctions Void)
                          (fun _ => ret tt)
                          (ReturnNode.mk (Some (OtherNode 0))) oneBlockProgram
  = Done (Ok None)
         (set_block 0%nat (NewRet (mkBlock "entry" [] None 0%nat) None) oneBlockProgram).
Proof.
  apply (ReturnNode_Codegen_no_value (sampleLowerer (Local 0 I8)) (sampleFunctions Void)
           (fun _ => ret tt)
           (ReturnNode.mk (Some (OtherNode 0))) oneBlockProgram 0%nat 0%nat
           (mkBlock "entry" [] None 0%nat) eq_refl eq_refl eq_refl).
  left. reflexivity.
Defined.

(** ** The function compiler: what a successful call returns *)

Lemma compileVariant_variant C name node saved tys q f q' :
  compileVariant C name node saved tys q = Done (Ok f) q' ->
  f = variantAt (FunctionNode.NameCache (nodeAt name node q')) (nodeAt name node q').
Proof.
  unfold compileVariant, restoreContext, updateNode, modify, get, bind, ret, panic.
  intros H. run_cases; inversion H; subst; clear H.
  all: unfold variantAt, nodeAt in *; simpl in *.
  all: try reflexivity.
  all: match goal with E : _ = Some ?x |- ?x = _ => rewrite E; reflexivity end.
Qed.

(** X12. Every return of [GetFunction] without an error leaves the active
    package, the active scope and the compiler cursor as they were on
    entry, whatever the collaborators did in between.  For a name that
    is not registered the result is nil and the program is untouched;
    for a registered name the function returned is the variant the
    registry holds, at return, under the node's cached mangled name. *)
Theorem GetFunction_returned_variant C name options p f p' :
  GetFunction C name options p = Done (Ok f) p' ->
  (Program.Package p' = Program.Package p
   /\ Program.Scope p' = Program.Scope p
   /\ Program.Compiler p' = Program.Compiler p)
  /\ (Program.Functions p !! name = None -> f = None /\ p' = p)
  /\ (forall node, Program.Functions p !! name = Some node ->
        f = variantAt (FunctionNode.NameCache (nodeAt name node p'))
                      (nodeAt name node p')).
Proof.
  intros H. split; [exact (GetFunction_success_restores C name options p f p' H)|].
  revert H. unfold GetFunction. unfold bind at 1. unfold get at 1. cbv beta iota zeta.
  destruct (Program.Functions p !! name) as [node|] eqn:Hreg.
  - intros H. split; [discriminate|]. intros node' Hnode'. inversion Hnode'; subst node'.
    revert H.
    unfold bind at 1. destruct (primeState C name options node p) as [[] p1| | |]; try discriminate.
    unfold bind at 1. destruct (Arguments C name p1) as [[rawTypes|err] p2| | |]; try discriminate.
    destruct (checkArity _ _ _ _); try discriminate.
    unfold bind at 1. destruct (makeVariants name node p2) as [[] p3| | |]; try discriminate.
    unfold bind at 1.
    destruct (effectiveTypes node options rawTypes p3) as [[tys|err] p4| | |]; try discriminate.
    apply compileVariant_variant.
  - unfold ret. intros H. inversion H; subst. split; [auto|discriminate].
Qed.

Lemma GetFunction_returned_variant_witness :
  exists f p',
    GetFunction (sampleCompiler [Some I32]) "m:f"
                (FunctionCompilationOptions.mk (Some [Some I32]))
                (sampleProgram "m:f" (sampleNode "f" false))
    = Done (Ok f) p'
    /\ f = Some 7%nat
    /\ f = variantAt (FunctionNode.NameCache
                        (nodeAt "m:f" (sampleNode "f" false) p'))
                     (nodeAt "m:f" (sampleNode "f" false) p').
Proof.
  eexists _, _. split; [vm_compute; reflexivity|]. split; [reflexivity|].
  eapply (proj2 (proj2 (GetFunction_returned_variant
                          (sampleCompiler [Some I32]) "m:f"
                          (FunctionCompilationOptions.mk (Some [Some I32]))
                          (sampleProgram "m:f" (sampleNode "f" false)) _ _ _))).
  reflexivity.
  Unshelve. vm_compute. reflexivity.
Defined.

(** ** [FindFunction] *)

Lemma GetFunction_unregistered C name options p :
  Program.Functions p !! name = None ->
  GetFunction C name options p = Done (Ok None) p.
Proof.
  intros H. unfold GetFunction. unfold bind at 1. unfold get at 1.
  cbv beta iota zeta. now rewrite H.
Qed.

Lemma FindFunction_loop_found C names args :
  forall p callee p',
    FindFunction_loop C names args p = Done (Ok (Some callee)) p' ->
    (Program.Package p' = Program.Package p
     /\ Program.Scope p' = Program.Scope p
     /\ Program.Compiler p' = Program.Compiler p)
    /\ exists name, name ∈ names /\ is_Some (Program.Functions p !! name).
Proof.
  induction names as [|name rest IH]; intros p callee p' H.
  - discriminate H.
  - cbn [FindFunction_loop] in H. unfold bind in H.
    destruct (GetFunction C name (FunctionCompilationOptions.mk args) p)
      as [[[f|]|e] p1| | |] eqn:Hget; try discriminate H.
    + unfold ret in H. inversion H; subst. split.
      * exact (GetFunction_success_restores _ _ _ _ _ _ Hget).
      * exists name. split; [apply list_elem_of_here|].
        destruct (Program.Functions p !! name) eqn:Hreg; [eauto|].
        rewrite (GetFunction_unregistered _ _ _ _ Hreg) in Hget. discriminate Hget.
    + pose proof (GetFunction_success_restores _ _ _ _ _ _ Hget) as (Hp & Hs & Hc).
      apply IH in H as ((Hp' & Hs' & Hc') & name' & Hin & Hreg').
      split; [repeat split; congruence|].
      destruct (Program.Functions p !! name) eqn:Hreg.
      * exists name. split; [apply list_elem_of_here|]. rewrite Hreg. eauto.
      * rewrite (GetFunction_unregistered _ _ _ _ Hreg) in Hget.
        inversion Hget; subst p1.
        exists name'. split; [now apply list_elem_of_further|assumption].
Qed.

(** X15. When [FindFunction] returns a function, one of the search names
    is a key of the registry, and the active package, the active scope
    and the compiler cursor are as they were on entry, however many
    names were tried. *)
Theorem FindFunction_found C names args p callee p' :
  FindFunction C names args p = Done (Ok callee) p' ->
  (Program.Package p' = Program.Package p
   /\ Program.Scope p' = Program.Scope p
   /\ Program.Compiler p' = Program.Compiler p)
  /\ exists name, name ∈ names /\ is_Some (Program.Functions p !! name).
Proof.
  unfold FindFunction, bind. intros H.
  destruct (FindFunction_loop C names args p) as [[[f|]|e] p1| | |] eqn:Hloop;
    try discriminate H.
  unfold ret in H. inversion H; subst.
  exact (FindFunction_loop_found _ _ _ _ _ _ Hloop).
Qed.

Lemma FindFunction_found_witness :
  exists p',
    FindFunction (sampleCompiler [Some I32]) ["f"; "m:f"] (Some [Some I32])
                 (sampleProgram "m:f" (sampleNode "f" false))
    = Done (Ok 7%nat) p'
    /\ Program.Scope p' = 0%nat
    /\ exists name, name ∈ ["f"; "m:f"]
                    /\ is_Some (Program.Functions
                                  (sampleProgram "m:f" (sampleNode "f" false)) !! name).
Proof.
  assert (Hrun : exists p',
             FindFunction (sampleCompiler [Some I32]) ["f"; "m:f"] (Some [Some I32])
                          (sampleProgram "m:f" (sampleNode "f" false))
             = Done (Ok 7%nat) p') by (eexists; vm_compute; reflexivity).
  destruct Hrun as [p' Hrun]. exists p'. split; [exact Hrun|].
  destruct (FindFunction_found _ _ _ _ _ _ Hrun) as ((_ & Hs & _) & Hname).
  split; assumption.
Defined.

(** X16. When none of the search names is a key of the registry,
    [FindFunction] returns the error "unable to find function with
    names [...]" listing all of them, and the program is untouched: no
    scope is pushed and no collaborator runs. *)
Theorem FindFunction_unregistered C names args p :
  Forall (fun name => Program.Functions p !! name = None) names ->
  FindFunction C names args p
  = Done (Err ("unable to find function with names ["
               +:+ String.concat " " names +:+ "]")) p.
Proof.
  intros Hall. unfold FindFunction, bind.
  assert (Hloop : FindFunction_loop C names args p = Done (Ok None) p).
  { induction Hall as [|name rest Hname Hrest IH]; [reflexivity|].
    cbn [FindFunction_loop]. unfold bind.
    now rewrite (GetFunction_unregistered _ _ _ _ Hname). }
  now rewrite Hloop.
Qed.

Lemma FindFunction_unregistered_witness :
  FindFunction (sampleCompiler [Some I32]) ["g"; "m:g"] None
               (sampleProgram "m:f" (sampleNode "f" false))
  = Done (Err "unable to find function with names [g m:g]")
         (sampleProgram "m:f" (sampleNode "f" false)).
Proof.
  apply (FindFunction_unregistered (sampleCompiler [Some I32]) ["g"; "m:g"] None
           (sampleProgram "m:f" (sampleNode "f" false))).
  repeat constructor.
Defined.

(** ** The effective parameter types *)

Lemma checkTypes_effective node args :
  forall rawTypes i acc p tys p',
    checkTypes node args i rawTypes acc p = Done (Ok tys) p' ->
    exists rest,
      tys = (acc ++ rest)%list /\ length rest = length rawTypes
      /\ forall j expected,
           rawTypes !! j = Some expected ->
           exists param given,
             FunctionNode.Args node !! (i + j)%nat = Some param
             /\ args !! (i + j)%nat = Some given
             /\ rest !! j
                = Some (if TypeNode.Unknown (VariableDefnNode.Type_ param)
                        then given else expected)
             /\ (TypeNode.Unknown (VariableDefnNode.Type_ param) = false ->
                 typesMismatch expected given = false).
Proof.
  induction rawTypes as [|expected raw IH]; intros i acc p tys p' H.
  - cbn [checkTypes] in H. unfold ret in H. inversion H; subst.
    exists []. rewrite app_nil_r. repeat split. intros j e Hj. discriminate Hj.
  - cbn [checkTypes] in H.
    destruct (FunctionNode.Args node !! i) as [param|] eqn:Hparam; [|discriminate H].
    destruct (args !! i) as [given|] eqn:Hgiven; [|discriminate H].
    cbv zeta in H.
    destruct (TypeNode.Unknown (VariableDefnNode.Type_ param)) eqn:Hunk.
    + rewrite andb_false_r in H. unfold bind, get in H.
      destruct (RegisterType _ _ _ p) as [[] p1| | |]; try discriminate H.
      apply IH in H as (rest & -> & Hlen & Hrest).
      exists (given :: rest). rewrite <- app_assoc. split; [reflexivity|].
      split; [simpl; lia|].
      intros [|j] e Hj.
      * inversion Hj; subst e. exists param, given.
        rewrite Nat.add_0_r, Hunk. repeat split; auto. discriminate.
      * simpl in Hj. destruct (Hrest j e Hj) as (pa & gi & ? & ? & ? & ?).
        exists pa, gi. replace (i + S j)%nat with (S i + j)%nat by lia. auto.
    + rewrite andb_true_r in H.
      destruct (typesMismatch expected given) eqn:Hmis; [discriminate H|].
      cbn [negb] in H. cbv iota in H.
      apply IH in H as (rest & -> & Hlen & Hrest).
      exists (expected :: rest). rewrite <- app_assoc. split; [reflexivity|].
      split; [simpl; lia|].
      intros [|j] e Hj.
      * inversion Hj; subst e. exists param, given.
        rewrite Nat.add_0_r, Hunk. repeat split; auto.
      * simpl in Hj. destruct (Hrest j e Hj) as (pa & gi & ? & ? & ? & ?).
        exists pa, gi. replace (i + S j)%nat with (S i + j)%nat by lia. auto.
Qed.

(** X14. For a supplied argument list and a function that is not
    variadic, the effective parameter types [GetFunction] mangles and
    compiles with are one per declared parameter type: the argument's
    type where the parameter's type is a type variable, the declared
    type otherwise; and for a parameter of a known type, when both the
    declared and the given type are present, they are equal or both
    numeric. *)
Theorem effectiveTypes_checked node options rawTypes args p tys p' :
  FunctionCompilationOptions.ArgTypes options = Some args ->
  FunctionNode.Variadic node = false ->
  effectiveTypes node options rawTypes p = Done (Ok tys) p' ->
  length tys = length rawTypes
  /\ forall i expected,
       rawTypes !! i = Some expected ->
       exists param given,
         FunctionNode.Args node !! i = Some param
         /\ args !! i = Some given
         /\ tys !! i
            = Some (if TypeNode.Unknown (VariableDefnNode.Type_ param)
                    then given else expected)
         /\ (TypeNode.Unknown (VariableDefnNode.Type_ param) = false ->
             forall e g, expected = Some e -> given = Some g ->
                         Equal e g = true \/ (IsNumber g && IsNumber e) = true).
Proof.
  intros Hopt Hvar H. unfold effectiveTypes in H. rewrite Hopt, Hvar in H.
  cbn [negb] in H. cbv iota in H.
  apply checkTypes_effective in H as (rest & -> & Hlen & Hrest).
  split; [exact Hlen|].
  intros i expected Hi. destruct (Hrest i expected Hi) as (param & given & Ha & Hg & Ht & Hm).
  exists param, given. repeat split; auto.
  intros Hunk e g -> ->. specialize (Hm Hunk).
  unfold typesMismatch, typesAreLooselyEqual in Hm.
  destruct (Equal e g); [now left|]. right.
  destruct (IsNumber g && IsNumber e); [reflexivity|discriminate Hm].
Qed.

Lemma effectiveTypes_checked_witness :
  length [Some I32] = length [Some I32]
  /\ forall i expected,
       [Some I32] !! i = Some expected ->
       exists param given,
         FunctionNode.Args (sampleNode "f" false) !! i = Some param
         /\ [Some I8] !! i = Some given
         /\ [Some I32] !! i
            = Some (if TypeNode.Unknown (VariableDefnNode.Type_ param)
                    then given else expected)
         /\ (TypeNode.Unknown (VariableDefnNode.Type_ param) = false ->
             forall e g, expected = Some e -> given = Some g ->
                         Equal e g = true \/ (IsNumber g && IsNumber e) = true).
Proof.
  exact (effectiveTypes_checked (sampleNode "f" false)
           (FunctionCompilationOptions.mk (Some [Some I8])) [Some I32] [Some I8]
           (samplePrimed "m:f" (sampleNode "f" false)) [Some I32]
           (samplePrimed "m:f" (sampleNode "f" false))
           eq_refl eq_refl eq_refl).
Defined.

(** ** The function compiler: error returns *)

Lemma checkTypes_scope node args :
  forall rawTypes i acc p r p',
    checkTypes node args i rawTypes acc p = Done r p' ->
    Program.Scope p' = Program.Scope p.
Proof.
  induction rawTypes as [|expected raw IH]; intros i acc p r p' H.
  - cbn [checkTypes] in H. unfold ret in H. now inversion H.
  - cbn [checkTypes] in H.
    destruct (FunctionNode.Args node !! i) as [param|]; [|discriminate H].
    destruct (args !! i) as [given|]; [|discriminate H].
    cbv zeta in H.
    destruct (typesMismatch expected given
              && negb (TypeNode.Unknown (VariableDefnNode.Type_ param))).
    { unfold ret in H. now inversion H. }
    destruct (TypeNode.Unknown (VariableDefnNode.Type_ param)).
    + unfold bind, get in H.
      destruct (RegisterType _ _ _ p) as [[] p1| | |] eqn:Hreg; try discriminate H.
      apply IH in H. rewrite H.
      unfold RegisterType, updateScope in Hreg.
      destruct (scopeAt p (Program.Scope p)); inversion Hreg; reflexivity.
    + now apply IH in H.
Qed.

Lemma effectiveTypes_scope node options rawTypes p r p' :
  effectiveTypes node options rawTypes p = Done r p' ->
  Program.Scope p' = Program.Scope p.
Proof.
  unfold effectiveTypes.
  destruct (FunctionCompilationOptions.ArgTypes options) as [args|];
    [destruct (negb (FunctionNode.Variadic node))|].
  - apply checkTypes_scope.
  - unfold ret. intros H. now inversion H.
  - unfold ret. intros H. now inversion H.
Qed.

Lemma makeVariants_scope name node p r p' :
  makeVariants name node p = Done r p' -> Program.Scope p' = Program.Scope p.
Proof.
  unfold makeVariants, updateNode, modify, get, bind, ret. intros H.
  destruct (FunctionNode.Variants (nodeAt name node p)); now inversion H.
Qed.

Lemma compileVariant_error_scope C name node saved tys q e q' :
  (forall nm s r s', DeclareFn C nm s = Done r s' -> Program.Scope s' = Program.Scope s) ->
  (forall nm s r s', CodegenFn C nm s = Done r s' -> Program.Scope s' = Program.Scope s) ->
  compileVariant C name node saved tys q = Done (Err e) q' ->
  Program.Scope q' = Program.Scope q.
Proof.
  intros Hdecl Hgen.
  unfold compileVariant, restoreContext, updateNode, modify, get, bind, ret, panic.
  intros H. run_cases.
  all: repeat match goal with
              | H : Done _ _ = Done _ _ |- _ => inversion H; subst; clear H
              end.
  all: repeat match goal with
              | H : DeclareFn _ _ _ = Done _ _ |- _ => apply Hdecl in H
              | H : CodegenFn _ _ _ = Done _ _ |- _ => apply Hgen in H
              end.
  all: simpl in *; congruence.
Qed.

(** X13. No error return of [GetFunction] restores the saved context.
    For a registered name, if the collaborators leave the scope pointer
    alone, then on every return with an error the active scope is the
    scope pushed for the callee, not the scope that was active at
    entry. *)
Theorem GetFunction_error_skips_restore_always C name options node p e p' :
  (forall nm pk args q r q',
      Discover C nm pk args q = Done r q' -> Program.Scope q' = Program.Scope q) ->
  (forall nm q r q', Arguments C nm q = Done r q' -> Program.Scope q' = Program.Scope q) ->
  (forall nm q r q', DeclareFn C nm q = Done r q' -> Program.Scope q' = Program.Scope q) ->
  (forall nm q r q', CodegenFn C nm q = Done r q' -> Program.Scope q' = Program.Scope q) ->
  Program.Functions p !! name = Some node ->
  (Program.Scope p < length (Program.scopes p))%nat ->
  GetFunction C name options p = Done (Err e) p' ->
  Program.Scope p' = length (Program.scopes p)
  /\ Program.Scope p' <> Program.Scope p.
Proof.
  intros Hdisc Hargs Hdecl Hgen Hreg Hvalid H.
  assert (Hscope : Program.Scope p' = length (Program.scopes p)); [|split; [exact Hscope|lia]].
  revert H. unfold GetFunction. unfold bind at 1. unfold get at 1. cbv beta iota zeta.
  rewrite Hreg.
  unfold bind at 1.
  destruct (primeState C name options node p) as [[] p1| | |] eqn:Hprime; try discriminate.
  apply (primeState_scope C name options node p p1 Hdisc) in Hprime.
  unfold bind at 1.
  destruct (Arguments C name p1) as [[rawTypes|err] p2| | |] eqn:Ha; try discriminate.
  2:{ unfold ret. intros H. inversion H; subst. apply Hargs in Ha. congruence. }
  apply Hargs in Ha.
  destruct (checkArity _ _ _ _).
  { unfold ret. intros H. inversion H; subst. congruence. }
  unfold bind at 1.
  destruct (makeVariants name node p2) as [[] p3| | |] eqn:Hmk; try discriminate.
  apply makeVariants_scope in Hmk.
  unfold bind at 1.
  destruct (effectiveTypes node options rawTypes p3) as [[tys|err] p4| | |] eqn:Heff;
    try discriminate.
  - apply effectiveTypes_scope in Heff. intros H.
    apply (compileVariant_error_scope _ _ _ _ _ _ _ _ Hdecl Hgen) in H. congruence.
  - apply effectiveTypes_scope in Heff. unfold ret. intros H. inversion H; subst.
    congruence.
Qed.

(** A call with an argument of the wrong type: the type error comes
    back with the callee's scope still active. *)
Lemma GetFunction_error_skips_restore_always_witness :
  exists e p',
    GetFunction (sampleCompiler [Some I32]) "m:f"
                (FunctionCompilationOptions.mk (Some [Some (PointerType I8)]))
                (sampleProgram "m:f" (sampleNode "f" false))
    = Done (Err e) p'
    /\ Program.Scope p' = 1%nat
    /\ Program.Scope p' <> Program.Scope (sampleProgram "m:f" (sampleNode "f" false)).
Proof.
  assert (Hrun : exists e p',
             GetFunction (sampleCompiler [Some I32]) "m:f"
                         (FunctionCompilationOptions.mk (Some [Some (PointerType I8)]))
                         (sampleProgram "m:f" (sampleNode "f" false))
             = Done (Err e) p')
    by (eexists _, _; vm_compute; reflexivity).
  destruct Hrun as (e & p' & Hrun). exists e, p'. split; [exact Hrun|].
  apply (GetFunction_error_skips_restore_always
           (sampleCompiler [Some I32]) "m:f"
           (FunctionCompilationOptions.mk (Some [Some (PointerType I8)]))
           (sampleNode "f" false)
           (sampleProgram "m:f" (sampleNode "f" false)) e p').
  - intros nm pk args q r q' H. now inversion H.
  - intros nm q r q' H. now inversion H.
  - intros nm q r q' H. now inversion H.
  - intros nm q r q' H. now inversion H.
  - reflexivity.
  - simpl. lia.
  - exact Hrun.
Defined.

(** ** The list of parsed files *)

Lemma grows_ret {A} (a : A) : growsParsedFiles (ret a).
Proof. intros p a' p' H. inversion H; subst. exists []. now rewrite app_nil_r. Qed.

Lemma grows_bind {A B} (m : M A) (f : A -> M B) :
  growsParsedFiles m -> (forall a, growsParsedFiles (f a)) -> growsParsedFiles (bind m f).
Proof.
  intros Hm Hf p b p' H. unfold bind in H.
  destruct (m p) as [a p1| | |] eqn:Hmp; try discriminate.
  destruct (Hm _ _ _ Hmp) as [l1 H1]. destruct (Hf _ _ _ _ H) as [l2 H2].
  exists (l1 ++ l2)%list. now rewrite H2, H1, app_assoc.
Qed.

Lemma grows_modify (f : Program.t -> Program.t) :
  (forall p, Program.ParsedFiles (f p) = Program.ParsedFiles p) ->
  growsParsedFiles (modify f).
Proof.
  intros Hf p a p' H. inversion H; subst. exists []. now rewrite Hf, app_nil_r.
Qed.

Lemma grows_get : growsParsedFiles get.
Proof. intros p a p' H. inversion H; subst. exists []. now rewrite app_nil_r. Qed.

Lemma grows_fatal {A} msg : growsParsedFiles (@fatal A msg).
Proof. intros p a p' H. discriminate. Qed.

Lemma grows_panic {A} : growsParsedFiles (@panic A).
Proof. intros p a p' H. discriminate. Qed.

Lemma grows_updatePackage k f : growsParsedFiles (updatePackage k f).
Proof.
  intros p a p' H. unfold updatePackage in H.
  destruct (Program.packages p !! k); inversion H; subst.
  exists []. now rewrite app_nil_r.
Qed.

Lemma grows_logError L msg : growsParsedFiles (logError L msg).
Proof. unfold logError. destruct (ErrorExits L); auto using grows_fatal, grows_ret. Qed.

Lemma grows_freshPackage name : growsParsedFiles (freshPackage name).
Proof. intros p a p' H. inversion H; subst. exists []. now rewrite app_nil_r. Qed.

Create HintDb grows.

#[local] Hint Resolve grows_ret grows_get grows_fatal grows_panic
  grows_updatePackage grows_logError : grows.

Section LoaderGrows.

Variable L : Loader.
Variable parseText : string -> Path -> M unit.
Hypothesis parseText_grows : forall code path, growsParsedFiles (parseText code path).

Lemma grows_ParseFile_with path : growsParsedFiles (ParseFile_with L parseText path).
Proof. unfold ParseFile_with. destruct (ReadFile L path); auto with grows. Qed.

Lemma grows_parseFiles_with files : growsParsedFiles (parseFiles_with L parseText files).
Proof.
  induction files; simpl; auto with grows.
  apply grows_bind; auto using grows_ParseFile_with.
Qed.

Lemma grows_ParsePath_with dir : growsParsedFiles (ParsePath_with L parseText dir).
Proof.
  unfold ParsePath_with. destruct (Abs L _) as [absEntry|]; auto with grows.
  apply grows_bind; auto with grows. intros q.
  destruct (ParseDir L absEntry q); auto using grows_parseFiles_with with grows.
Qed.

Lemma grows_ParseDep_with base path : growsParsedFiles (ParseDep_with L parseText base path).
Proof.
  unfold ParseDep_with. apply grows_bind; auto with grows. intros p.
  destruct (CanParse p _); auto using grows_ParsePath_with with grows.
Qed.

Lemma grows_parseDepPaths_with newPkg base cLinkage paths :
  growsParsedFiles (parseDepPaths_with L parseText newPkg base cLinkage paths).
Proof.
  induction paths as [|depPath rest IH]; simpl; auto with grows.
  apply grows_bind; [|auto]. destruct cLinkage.
  - now apply grows_modify.
  - apply grows_bind; auto using grows_ParseDep_with with grows.
Qed.

Lemma grows_parseDependencies_with newPkg path nodes :
  growsParsedFiles (parseDependencies_with L parseText newPkg path nodes).
Proof.
  induction nodes as [|node rest IH]; simpl; auto with grows.
  apply grows_bind; [|auto].
  destruct node; auto using grows_parseDepPaths_with with grows.
Qed.

(** What follows the marking of the file in [ParseText]. *)
Lemma grows_ParseText_rest code path :
  (forall name, growsParsedFiles (NewPackage L name)) ->
  forall p a p',
    ParseText_with L parseText code path p = Done a p' ->
    exists added,
      Program.ParsedFiles p' = (Program.ParsedFiles p ++ path :: added)%list.
Proof.
  intros Hnew p a p' H. unfold ParseText_with in H.
  unfold bind at 1 in H. unfold modify at 1 in H.
  set (q := Program.set_ParsedFiles _ p) in H.
  assert (Hrest : exists added,
             Program.ParsedFiles p' = (Program.ParsedFiles q ++ added)%list).
  { revert H. generalize q. clear q. intros q H.
    destruct (negb (NewSourcefile L path)); [discriminate|].
    destruct (NamespaceFromNodes (Parse L code)) as [name|]; [|discriminate].
    revert q a p' H.
    change (growsParsedFiles
              ((if negb (namespacePattern_MatchString name)
                then logError L
                       ("Invalid Namespace name " +:+ quote name
                        +:+ ". Namespaces can only contain lowercase letters and underscores")
                else ret tt) ;;;
               newPkg <- NewPackage L name ;;
               updatePackage newPkg
                 (fun k => Package.set_Nodes (Parse L code)
                             (Package.set_Files (<[path := code]> (Package.Files k)) k)) ;;;
               p <- get ;;
               match Program.Packages p !! path with
               | Some _ => ret tt
               | None =>
                   modify (fun p => Program.set_Packages
                                      (<[path := newPkg]> (Program.Packages p)) p)
               end ;;;
               parseDependencies_with L parseText newPkg path
                 (FilterNodes (Parse L code) nodeDependency))%go).
    apply grows_bind; [destruct (negb _); auto with grows|]. intros _.
    apply grows_bind; [apply Hnew|]. intros newPkg.
    apply grows_bind; auto with grows. intros _.
    apply grows_bind; auto with grows. intros p0.
    apply grows_bind; [|intros _; apply grows_parseDependencies_with].
    destruct (Program.Packages p0 !! path); auto with grows.
    now apply grows_modify. }
  destruct Hrest as [added Hadded]. exists added.
  rewrite Hadded. subst q. simpl. now rewrite <- app_assoc.
Qed.

End LoaderGrows.

Lemma grows_ParseText L fuel :
  (forall name, growsParsedFiles (NewPackage L name)) ->
  forall code path, growsParsedFiles (ParseText L fuel code path).
Proof.
  intros Hnew. induction fuel as [|fuel IH]; intros code path.
  - intros p a p' H. discriminate.
  - intros p a p' H. simpl in H.
    destruct (grows_ParseText_rest L (ParseText L fuel) IH code path Hnew p a p' H)
      as [added Hadded].
    eauto.
Qed.

Lemma CanParse_false p file :
  CanParse p file = false <-> file ∈ Program.ParsedFiles p.
Proof.
  unfold CanParse. rewrite negb_false_iff, existsb_exists. split.
  - intros (x & Hin & Hx). apply bool_decide_eq_true in Hx. subst.
    now apply list_elem_of_In.
  - intros Hin. exists file. split; [now apply list_elem_of_In|].
    now apply bool_decide_eq_true.
Qed.

(** X19. Loading only ever appends to the list of parsed files.  When
    [ParseText] returns, the list is the one it started from, then the
    file's path, then the files parsed for its dependencies; so the file
    can no longer be parsed, nor can any file that could not be parsed
    before; the same holds for every file a run of [ParsePath] or
    [ParseDep] was refused before.  (The package constructor is taken
    to leave the list alone or to append to it.) *)
Theorem ParseText_marks_file (L : Loader) (fuel : nat) :
  (forall name, growsParsedFiles (NewPackage L name)) ->
  (forall code path p p',
      ParseText L fuel code path p = Done tt p' ->
      (exists added,
          Program.ParsedFiles p' = (Program.ParsedFiles p ++ path :: added)%list)
      /\ CanParse p' path = false
      /\ forall file, CanParse p file = false -> CanParse p' file = false)
  /\ (forall dir p p',
        ParsePath L fuel dir p = Done tt p' ->
        forall file, CanParse p file = false -> CanParse p' file = false)
  /\ (forall base path p p',
        ParseDep L fuel base path p = Done tt p' ->
        forall file, CanParse p file = false -> CanParse p' file = false).
Proof.
  intros Hnew.
  assert (Hmono : forall p p' : Program.t,
             (exists added,
                 Program.ParsedFiles p' = (Program.ParsedFiles p ++ added)%list) ->
             forall file, CanParse p file = false -> CanParse p' file = false).
  { intros p p' [added Hadded] file Hfile. apply CanParse_false in Hfile.
    apply CanParse_false. rewrite Hadded. apply elem_of_app. now left. }
  split; [|split].
  - intros code path p p' H.
    assert (Hpath : exists added,
               Program.ParsedFiles p' = (Program.ParsedFiles p ++ path :: added)%list).
    { destruct fuel as [|fuel]; [discriminate|]. simpl in H.
      exact (grows_ParseText_rest L (ParseText L fuel) (grows_ParseText L fuel Hnew)
               code path Hnew p tt p' H). }
    split; [exact Hpath|]. destruct Hpath as [added Hadded]. split.
    + apply CanParse_false. rewrite Hadded. apply elem_of_app. right.
      apply list_elem_of_here.
    + apply Hmono. exists (path :: added). exact Hadded.
  - intros dir p p' H. apply Hmono.
    exact (grows_ParsePath_with L (ParseText L fuel) (grows_ParseText L fuel Hnew)
             dir p tt p' H).
  - intros base path p p' H. apply Hmono.
    exact (grows_ParseDep_with L (ParseText L fuel) (grows_ParseText L fuel Hnew)
             base path p tt p' H).
Qed.

Lemma ParseText_marks_file_witness :
  exists p',
    ParseText twoFiles 1 "A" fileA emptyProgram = Done tt p'
    /\ CanParse p' fileA = false.
Proof.
  assert (Hrun : exists p', ParseText twoFiles 1 "A" fileA emptyProgram = Done tt p')
    by (eexists; vm_compute; reflexivity).
  destruct Hrun as [p' Hrun]. exists p'. split; [exact Hrun|].
  exact (proj1 (proj2 (proj1 (ParseText_marks_file twoFiles 1 grows_freshPackage)
                         "A" fileA emptyProgram p' Hrun))).
Defined.

(** ** The entry path *)

(** X20. Given a source file whose directory exists, [ParsePath] loads
    the directory: it does exactly what it does when given the
    directory itself, so every source file of the directory is parsed,
    not only the one named. *)
Theorem ParsePath_of_file (L : Loader) (fuel : nat) (file : Path) (p : Program.t) :
  fst (PathIsDir L file) = false ->
  fst (PathIsDir L (Dir file)) = true ->
  ParsePath L fuel file p = ParsePath L fuel (Dir file) p.
Proof.
  intros Hfile Hdir. unfold ParsePath, ParsePath_with.
  rewrite Hfile, Hdir. cbn [negb]. cbv iota.
  unfold ReduceToDir.
  destruct (PathIsDir L (Dir file)) as [isDir err] eqn:Hstat.
  cbn [fst] in Hdir. subst isDir.
  unfold PathIsDir in Hstat. destruct (Stat L (Dir file)); inversion Hstat; subst.
  reflexivity.
Qed.

Lemma ParsePath_of_file_witness :
  ParsePath twoFiles 2 fileA emptyProgram
  = ParsePath twoFiles 2 (Dir fileA) emptyProgram.
Proof.
  exact (ParsePath_of_file twoFiles 2 fileA emptyProgram eq_refl eq_refl).
Defined.

(** ** C linkages *)

Lemma Program_set_CLinkages_eta p : Program.set_CLinkages (Program.CLinkages p) p = p.
Proof. now destruct p. Qed.

Lemma parseDepPaths_clinkage L parseText newPkg base paths :
  forall p,
    parseDepPaths_with L parseText newPkg base true paths p
    = Done tt (Program.set_CLinkages
                 (Program.CLinkages p ++ map (ResolveDepPath L base) paths) p).
Proof.
  induction paths as [|depPath rest IH]; intros p.
  - simpl. unfold ret. now rewrite app_nil_r, Program_set_CLinkages_eta.
  - cbn [parseDepPaths_with]. unfold bind at 1. unfold modify. rewrite IH.
    destruct p. simpl. now rewrite <- app_assoc.
Qed.

Lemma parseDependencies_clinkage L parseText newPkg path nodes :
  Forall (fun n => Kind n = nodeDependency) nodes ->
  onlyCLinkage nodes = true ->
  forall p,
    parseDependencies_with L parseText newPkg path nodes p
    = Done tt (Program.set_CLinkages
                 (Program.CLinkages p ++ linkedPaths L path nodes) p).
Proof.
  intros Hkind. induction Hkind as [|node rest Hnode Hrest IH]; intros Hc p.
  - simpl. unfold ret. now rewrite app_nil_r, Program_set_CLinkages_eta.
  - destruct node; try discriminate Hnode.
    cbn [onlyCLinkage forallb] in Hc. apply andb_prop in Hc as [Hd Hc].
    cbn [parseDependencies_with]. unfold bind at 1. rewrite Hd.
    rewrite parseDepPaths_clinkage. rewrite (IH Hc).
    destruct p. simpl. now rewrite <- app_assoc.
Qed.

Lemma FilterNodes_kind nodes t : Forall (fun n => Kind n = t) (FilterNodes nodes t).
Proof.
  unfold FilterNodes. apply Forall_forall. intros n Hn.
  now apply list_elem_of_filter in Hn as [Hk _].
Qed.

Lemma onlyCLinkage_filter nodes :
  onlyCLinkage nodes = true -> onlyCLinkage (FilterNodes nodes nodeDependency) = true.
Proof.
  unfold onlyCLinkage, FilterNodes. rewrite !forallb_forall.
  intros H n Hn. apply H. apply list_elem_of_In in Hn. apply list_elem_of_In.
  now apply list_elem_of_filter in Hn as [_ Hn].
Qed.

(** X21. A file whose dependency nodes are all C linkages is parsed
    without any other file being parsed: its dependency loop only
    appends the resolved paths, in order, to the program's list of C
    linkages, and the outcome of [ParseText] is the same whatever the
    depth left for dependencies. *)
Theorem ParseText_clinkage_only (L : Loader) (fuel : nat) (code : string)
    (path : Path) (p : Program.t) :
  onlyCLinkage (Parse L code) = true ->
  ParseText L (S fuel) code path p = ParseText L 1 code path p
  /\ forall parseText newPkg q,
       parseDependencies_with L parseText newPkg path
         (FilterNodes (Parse L code) nodeDependency) q
       = Done tt (Program.set_CLinkages
                    (Program.CLinkages q
                     ++ linkedPaths L path (FilterNodes (Parse L code) nodeDependency)) q).
Proof.
  intros Hc.
  assert (Hloop : forall parseText newPkg q,
             parseDependencies_with L parseText newPkg path
               (FilterNodes (Parse L code) nodeDependency) q
             = Done tt (Program.set_CLinkages
                          (Program.CLinkages q
                           ++ linkedPaths L path
                                (FilterNodes (Parse L code) nodeDependency)) q)).
  { intros parseText newPkg q. apply parseDependencies_clinkage.
    - apply FilterNodes_kind.
    - now apply onlyCLinkage_filter. }
  split; [|exact Hloop].
  change (ParseText L (S fuel) code path p)
    with (ParseText_with L (ParseText L fuel) code path p).
  change (ParseText L 1 code path p)
    with (ParseText_with L (ParseText L 0) code path p).
  unfold ParseText_with.
  apply bind_ext. intros _ p1.
  destruct (negb (NewSourcefile L path)); [reflexivity|].
  destruct (NamespaceFromNodes (Parse L code)) as [name|]; [|reflexivity].
  apply bind_ext. intros _ p2.
  apply bind_ext. intros newPkg p3.
  apply bind_ext. intros _ p4.
  apply bind_ext. intros p5 p6.
  apply bind_ext. intros _ p7.
  now rewrite !Hloop.
Qed.

(** ** Namespaces *)

(** X18. [NamespaceFromNodes] returns the name of the first namespace
    node of the list, that is of the first node that [FilterNodes]
    keeps for the namespace kind, and the error "nodes have no package
    name" exactly when [FilterNodes] keeps nothing. *)
Theorem NamespaceFromNodes_first (nodes : list Node) :
  NamespaceFromNodes nodes
  = match FilterNodes nodes nodeNamespace with
    | NNamespace ns :: _ => Ok (NamespaceNode.Name ns)
    | _ => Err "nodes have no package name"
    end.
Proof.
  unfold FilterNodes. induction nodes as [|n rest IH]; [reflexivity|].
  destruct n; cbn [NamespaceFromNodes]; try reflexivity.
  all: rewrite filter_cons_False by discriminate; exact IH.
Qed.

Lemma ParseText_clinkage_only_witness :
  ParseText linkFile 5 "A" fileA emptyProgram
  = ParseText linkFile 1 "A" fileA emptyProgram.
Proof.
  exact (proj1 (ParseText_clinkage_only linkFile 4 "A" fileA emptyProgram eq_refl)).
Defined.

(** ** The driver: the node list and the class registry *)

Lemma congealNode_class_step (pkgPtr : PkgPtr) (pkg : Package.t) (node : Node) p u p1 :
  congealNode pkgPtr pkg node p = Done u p1 ->
  Program.packages p1 = Program.packages p
  /\ ((Program.Classes p1 = Program.Classes p /\ forall cls, node <> NClass cls)
      \/ exists cls, node = NClass cls
                     /\ Program.Classes p1
                        = <[classKey (Package.Name pkg) (ClassNode.Name cls)
                            := ClassNode.set_Package (Some pkgPtr) cls]>
                            (Program.Classes p)).
Proof.
  intros Hnode.
  destruct node; simpl in Hnode; inversion Hnode; subst; simpl;
    try (split; [reflexivity|]; left; split; [reflexivity|]; intros c; discriminate).
  split; [reflexivity|]. right. eexists. split; [reflexivity|].
  unfold classKey.
  destruct (String.eqb_spec (Package.Name pkg) "runtime") as [Hp|Hp];
    case_bool_decide; try contradiction; reflexivity.
Qed.

Lemma congealNodes_classes (pkgPtr : PkgPtr) (pkg : Package.t) (pkgNodes : list Node) :
  forall acc p nodes p',
    congealNodes pkgPtr pkg pkgNodes acc p = Done nodes p' ->
    Program.packages p' = Program.packages p
    /\ nodes = (acc ++ map (PackagedNode.mk pkgPtr) pkgNodes)%list
    /\ (forall key node,
          Program.Classes p' !! key = Some node ->
          Program.Classes p !! key = Some node
          \/ exists cls, NClass cls ∈ pkgNodes
                         /\ node = ClassNode.set_Package (Some pkgPtr) cls
                         /\ key = classKey (Package.Name pkg) (ClassNode.Name cls))
    /\ (forall key, is_Some (Program.Classes p !! key) ->
                    is_Some (Program.Classes p' !! key))
    /\ (forall cls, NClass cls ∈ pkgNodes ->
                    is_Some (Program.Classes p'
                             !! classKey (Package.Name pkg) (ClassNode.Name cls))).
Proof.
  induction pkgNodes as [|node rest IH]; intros acc p nodes p' H.
  - simpl in H. inversion H; subst. rewrite app_nil_r. repeat split; auto.
    intros cls Hin. inversion Hin.
  - simpl in H. unfold bind in H.
    destruct (congealNode pkgPtr pkg node p) as [[] p1| | |] eqn:Hnode; try discriminate.
    apply IH in H as (Hpk & Hnodes & Hsound & Hmono & Hcomplete).
    apply congealNode_class_step in Hnode as [Hpk1 Hcls].
    split; [congruence|]. split.
    { rewrite Hnodes, <- app_assoc. reflexivity. }
    split; [|split].
    + intros key nd Hk. destruct (Hsound key nd Hk) as [Hold|(cls & Hin & -> & ->)].
      * destruct Hcls as [[Hsame _]|(cls & -> & Hf)];
          [left; now rewrite <- Hsame|].
        rewrite Hf in Hold.
        destruct (decide (classKey (Package.Name pkg) (ClassNode.Name cls) = key))
          as [<-|Hne].
        -- rewrite lookup_insert_eq in Hold. inversion Hold; subst.
           right. exists cls. split; [apply list_elem_of_here|]. auto.
        -- rewrite lookup_insert_ne in Hold by auto. now left.
      * right. exists cls. split; [now apply list_elem_of_further|]. auto.
    + intros key Hk. apply Hmono.
      destruct Hcls as [[-> _]|(cls & -> & ->)]; [auto|].
      destruct (decide (classKey (Package.Name pkg) (ClassNode.Name cls) = key))
        as [<-|Hne].
      * rewrite lookup_insert_eq. eauto.
      * now rewrite lookup_insert_ne by auto.
    + intros cls Hin. apply elem_of_cons in Hin as [Heq|Hin]; [|now apply Hcomplete].
      apply Hmono. destruct Hcls as [[_ Hno]|(cls' & Heq' & ->)].
      * now elim (Hno cls).
      * rewrite <- Heq in Heq'. inversion Heq'; subst cls'.
        rewrite lookup_insert_eq. eauto.
Qed.

Lemma packagedNodes_packages p q order :
  Program.packages p = Program.packages q -> packagedNodes p order = packagedNodes q order.
Proof. intros H. unfold packagedNodes. now rewrite H. Qed.

Lemma congealPackages_classes (order : list PkgPtr) :
  forall acc p nodes p',
    congealPackages order acc p = Done nodes p' ->
    Program.packages p' = Program.packages p
    /\ nodes = (acc ++ packagedNodes p order)%list
    /\ (forall key node,
          Program.Classes p' !! key = Some node ->
          Program.Classes p !! key = Some node
          \/ exists pkgPtr pkg cls,
               pkgPtr ∈ order /\ Program.packages p !! pkgPtr = Some pkg
               /\ NClass cls ∈ Package.Nodes pkg
               /\ node = ClassNode.set_Package (Some pkgPtr) cls
               /\ key = classKey (Package.Name pkg) (ClassNode.Name cls))
    /\ (forall key, is_Some (Program.Classes p !! key) ->
                    is_Some (Program.Classes p' !! key))
    /\ (forall pkgPtr pkg cls,
          pkgPtr ∈ order -> Program.packages p !! pkgPtr = Some pkg ->
          NClass cls ∈ Package.Nodes pkg ->
          is_Some (Program.Classes p'
                   !! classKey (Package.Name pkg) (ClassNode.Name cls))).
Proof.
  induction order as [|pkgPtr rest IH]; intros acc p nodes p' H.
  - simpl in H. inversion H; subst. rewrite app_nil_r. repeat split; auto.
    intros pkgPtr pkg cls Hin. inversion Hin.
  - simpl in H. unfold bind, get in H.
    destruct (Program.packages p !! pkgPtr) as [pkg|] eqn:Hpkg; [|discriminate].
    destruct (congealNodes pkgPtr pkg (Package.Nodes pkg) acc p)
      as [nodes1 p1| | |] eqn:Hnodes; try discriminate.
    apply congealNodes_classes in Hnodes as (Hpk1 & Hn1 & Hsound1 & Hmono1 & Hcomplete1).
    apply IH in H as (Hpk & Hn & Hsound & Hmono & Hcomplete).
    split; [congruence|]. split.
    { rewrite Hn, Hn1, <- app_assoc. f_equal.
      unfold packagedNodes at 2. cbn [flat_map]. rewrite Hpkg. f_equal.
      now apply packagedNodes_packages. }
    split; [|split].
    + intros key nd Hk.
      destruct (Hsound key nd Hk) as [Hold|(k & pk & cls & Hin & Hat & Hcls & -> & ->)].
      * destruct (Hsound1 key nd Hold) as [Hold1|(cls & Hin & -> & ->)]; [now left|].
        right. exists pkgPtr, pkg, cls. repeat split; auto. apply list_elem_of_here.
      * right. exists k, pk, cls. rewrite Hpk1 in Hat. repeat split; auto.
        now apply list_elem_of_further.
    + intros key Hk. auto.
    + intros k pk cls Hin Hat Hcls.
      apply elem_of_cons in Hin as [->|Hin].
      * rewrite Hpkg in Hat. inversion Hat; subst pk. auto.
      * eapply Hcomplete; eauto. now rewrite Hpk1.
Qed.

Lemma congealRegister_nodes_list D order p nodes p' :
  congealRegister D order p = Done nodes p' -> nodes = packagedNodes p order.
Proof.
  unfold congealRegister, bind, modify. intros H.
  apply congealPackages_classes in H as (_ & Hn & _). exact Hn.
Qed.

(** X22. The registration loop of [Congeal] starts from an empty
    module and leaves the packages as they are; the node list it builds
    holds every node of every visited package, of whatever kind, with
    its package, in the order of the visit. *)
Theorem congealRegister_nodes
    (D : Driver) (order : list PkgPtr) (p p' : Program.t)
    (nodes : list PackagedNode.t) :
  congealRegister D order p = Done nodes p' ->
  nodes = packagedNodes p order
  /\ Program.packages p' = Program.packages p
  /\ Program.Module_ p' = IRModule.mk [] [].
Proof.
  unfold congealRegister, bind, modify. intros H.
  assert (Hmod : Program.Module_ p' = IRModule.mk [] []).
  { revert H. generalize (@nil PackagedNode.t).
    set (q := Program.set_Compiler _ _).
    assert (Hq : Program.Module_ q = IRModule.mk [] []) by reflexivity.
    revert Hq. generalize q. clear q.
    induction order as [|k rest IH]; intros q Hq acc H.
    - simpl in H. inversion H; subst. exact Hq.
    - simpl in H. unfold bind, get in H.
      destruct (Program.packages q !! k) as [pkg|]; [|discriminate].
      destruct (congealNodes k pkg (Package.Nodes pkg) acc q) as [nodes1 q1| | |] eqn:Hn;
        try discriminate.
      apply (IH q1) in H; [exact H|].
      rewrite <- Hq. clear - Hn. revert acc q Hn.
      induction (Package.Nodes pkg) as [|node ns IHn]; intros acc q Hn.
      + simpl in Hn. now inversion Hn.
      + simpl in Hn. unfold bind in Hn.
        destruct (congealNode k pkg node q) as [[] q2| | |] eqn:Hnode; try discriminate.
        apply IHn in Hn. rewrite Hn.
        destruct node; simpl in Hnode; inversion Hnode; reflexivity. }
  apply congealPackages_classes in H as (Hpk & Hn & _).
  simpl in Hn, Hpk. subst nodes. repeat split; auto.
Qed.

(** X23. After the registration loop of [Congeal], whatever the order
    in which the packages are visited: every entry of the class
    registry holds a class node of one of the packages, with its
    package back-pointer set, under the key ["<pkg>:<name>"], or under
    the bare name when its package is called [runtime]; every class
    node of every package has an entry under its key; and what the
    registry held before is gone.  Unlike a function, a class called
    [main] gets no bare key. *)
Theorem congealRegister_class_keys
    (D : Driver) (order : list PkgPtr) (p p' : Program.t)
    (nodes : list PackagedNode.t) :
  congealRegister D order p = Done nodes p' ->
  (forall key node,
      Program.Classes p' !! key = Some node ->
      exists pkgPtr pkg cls,
        pkgPtr ∈ order /\ Program.packages p !! pkgPtr = Some pkg
        /\ NClass cls ∈ Package.Nodes pkg
        /\ node = ClassNode.set_Package (Some pkgPtr) cls
        /\ key = classKey (Package.Name pkg) (ClassNode.Name cls))
  /\ (forall pkgPtr pkg cls,
        pkgPtr ∈ order -> Program.packages p !! pkgPtr = Some pkg ->
        NClass cls ∈ Package.Nodes pkg ->
        is_Some (Program.Classes p'
                 !! classKey (Package.Name pkg) (ClassNode.Name cls))).
Proof.
  unfold congealRegister, bind, modify. intros H.
  apply congealPackages_classes in H as (Hpk & _ & Hsound & _ & Hcomplete).
  simpl in *. split.
  - intros key node Hk. destruct (Hsound key node Hk) as [Hold|Hnew]; [|exact Hnew].
    now rewrite lookup_empty in Hold.
  - exact Hcomplete.
Qed.

Lemma congealRegister_nodes_witness :
  exists nodes p',
    congealRegister sampleDriver [1%nat; 0%nat] sampleClasses = Done nodes p'
    /\ nodes = packagedNodes sampleClasses [1%nat; 0%nat]
    /\ Program.packages p' = Program.packages sampleClasses
    /\ Program.Module_ p' = IRModule.mk [] [].
Proof.
  assert (Hrun : exists nodes p',
             congealRegister sampleDriver [1%nat; 0%nat] sampleClasses = Done nodes p')
    by (eexists _, _; vm_compute; reflexivity).
  destruct Hrun as (nodes & p' & Hrun). exists nodes, p'. split; [exact Hrun|].
  exact (congealRegister_nodes sampleDriver [1%nat; 0%nat] sampleClasses p' nodes Hrun).
Defined.

(** The class [main] of [m] is registered under ["m:main"]. *)
Lemma congealRegister_class_keys_witness :
  exists nodes p',
    congealRegister sampleDriver [0%nat; 1%nat] sampleClasses = Done nodes p'
    /\ classKey "m" "main" = "m:main"
    /\ is_Some (Program.Classes p' !! classKey "m" "main").
Proof.
  assert (Hrun : exists nodes p',
             congealRegister sampleDriver [0%nat; 1%nat] sampleClasses = Done nodes p')
    by (eexists _, _; vm_compute; reflexivity).
  destruct Hrun as (nodes & p' & Hrun). exists nodes, p'. split; [exact Hrun|].
  split; [reflexivity|].
  apply (proj2 (congealRegister_class_keys sampleDriver [0%nat; 1%nat]
                  sampleClasses p' nodes Hrun)
               0%nat
               (Package.mk "m" ∅ [NNamespace (NamespaceNode.mk "m");
                                  NClass (ClassNode.mk "main" None);
                                  NClass (ClassNode.mk "point" None)] [])
               (ClassNode.mk "main" None)).
  - apply list_elem_of_here.
  - reflexivity.
  - apply list_elem_of_further, list_elem_of_here.
Defined.

(** ** Errors of [Congeal] *)

Lemma forEachNode_error (f : Node -> M (option string)) (nodes : list PackagedNode.t) :
  forall p e p',
    forEachNode f nodes p = Done (Some e) p' ->
    exists n q q', n ∈ nodes /\ f (PackagedNode.Node_ n) q = Done (Some e) q'.
Proof.
  induction nodes as [|n rest IH]; intros p e p' H.
  - discriminate H.
  - cbn [forEachNode] in H. unfold bind in H.
    destruct (SetupContext n p) as [[] p1| | |]; try discriminate.
    destruct (f (PackagedNode.Node_ n) p1) as [[e1|] p2| | |] eqn:Hf; try discriminate.
    + unfold ret in H. inversion H; subst.
      exists n, p1, p'. split; [apply list_elem_of_here|exact Hf].
    + apply IH in H as (n' & q & q' & Hin & Hn').
      exists n', q, q'. split; [now apply list_elem_of_further|exact Hn'].
Qed.

(** X24. An error [Congeal] returns is one that declaring a class,
    lowering a class or declaring a global variable returned, for a
    class node, respectively a global-variable node, of one of the
    visited packages. *)
Theorem Congeal_error_origin (D : Driver) (order : list PkgPtr) p e p' :
  Congeal D order p = Done (Some e) p' ->
  (exists c q q', NClass c ∈ map PackagedNode.Node_ (packagedNodes p order)
                  /\ ClassDeclare D c q = Done (Some e) q')
  \/ (exists c q q', NClass c ∈ map PackagedNode.Node_ (packagedNodes p order)
                     /\ ClassCodegen D c q = Done (Some e) q')
  \/ (exists g q q', NGlobalDecl g ∈ map PackagedNode.Node_ (packagedNodes p order)
                     /\ GlobalDeclare D g q = Done (Some e) q').
Proof.
  unfold Congeal. unfold bind at 1. intros H.
  destruct (congealRegister D order p) as [nodes p1| | |] eqn:Hreg; try discriminate.
  apply congealRegister_nodes_list in Hreg. subst nodes.
  assert (Hin : forall n t,
             n ∈ FilterPackagedNodes (packagedNodes p order) t ->
             PackagedNode.Node_ n ∈ map PackagedNode.Node_ (packagedNodes p order)
             /\ Kind (PackagedNode.Node_ n) = t).
  { intros n t Hn. unfold FilterPackagedNodes in Hn.
    apply list_elem_of_filter in Hn as [Hk Hn]. split; [|exact Hk].
    apply list_elem_of_fmap. eauto. }
  unfold bind at 1 in H.
  destruct (forEachNode _ (FilterPackagedNodes (packagedNodes p order) nodeClass) p1)
    as [[e1|] p2| | |] eqn:H1; try discriminate.
  { unfold ret in H. inversion H; subst. left.
    apply forEachNode_error in H1 as (n & q & q' & Hn & Hf).
    apply Hin in Hn as [Hn Hk].
    destruct (PackagedNode.Node_ n) as [| | |c| |]; try discriminate Hk; try discriminate Hf.
    eauto. }
  unfold bind at 1 in H.
  destruct (forEachNode _ (FilterPackagedNodes (packagedNodes p order) nodeClass) p2)
    as [[e2|] p3| | |] eqn:H2; try discriminate.
  { unfold ret in H. inversion H; subst. right. left.
    apply forEachNode_error in H2 as (n & q & q' & Hn & Hf).
    apply Hin in Hn as [Hn Hk].
    destruct (PackagedNode.Node_ n) as [| | |c| |]; try discriminate Hk; try discriminate Hf.
    unfold bind in Hf.
    destruct (ClassVerifyCorrectness D c q) as [[] q1| | |]; try discriminate.
    eauto. }
  right. right.
  apply forEachNode_error in H as (n & q & q' & Hn & Hf).
  apply Hin in Hn as [Hn Hk].
  destruct (PackagedNode.Node_ n) as [| | | |g|]; try discriminate Hk; try discriminate Hf.
  eauto.
Qed.

Lemma Congeal_error_origin_witness :
  (exists c q q', NClass c ∈ map PackagedNode.Node_ (packagedNodes sampleClasses [0%nat; 1%nat])
                  /\ ClassDeclare failingDriver c q = Done (Some "cannot lower point") q')
  \/ (exists c q q', NClass c ∈ map PackagedNode.Node_ (packagedNodes sampleClasses [0%nat; 1%nat])
                     /\ ClassCodegen failingDriver c q = Done (Some "cannot lower point") q')
  \/ (exists g q q', NGlobalDecl g ∈ map PackagedNode.Node_ (packagedNodes sampleClasses [0%nat; 1%nat])
                     /\ GlobalDeclare failingDriver g q = Done (Some "cannot lower point") q').
Proof.
  assert (Hrun : exists p',
             Congeal failingDriver [0%nat; 1%nat] sampleClasses
             = Done (Some "cannot lower point") p')
    by (eexists; vm_compute; reflexivity).
  destruct Hrun as [p' Hrun].
  exact (Congeal_error_origin failingDriver [0%nat; 1%nat] sampleClasses _ p' Hrun).
Defined.

(** ** The search paths *)

Lemma SearchPaths_loop_fuel (n : nat) :
  forall (extra : nat) (base : Path) (sp : list Path),
    length (Elems base) = n ->
    SearchPaths_loop (S n + extra) base sp = SearchPaths_loop (S n) base sp.
Proof.
  induction n as [|n IH]; intros extra base sp Hlen.
  - destruct base as [[] [|e es]]; try discriminate; reflexivity.
  - assert (Hne : base <> Root /\ base <> Dot).
    { split; intros ->; discriminate. }
    destruct Hne as [Hr Hd].
    change (SearchPaths_loop (S (S n) + extra) base sp)
      with (if negb (bool_decide (base = Root)) && negb (bool_decide (base = Dot))
            then SearchPaths_loop (S n + extra) (Dir base) (sp ++ [Join base packagedir])
            else sp).
    change (SearchPaths_loop (S (S n)) base sp)
      with (if negb (bool_decide (base = Root)) && negb (bool_decide (base = Dot))
            then SearchPaths_loop (S n) (Dir base) (sp ++ [Join base packagedir])
            else sp).
    rewrite (bool_decide_eq_false_2 _ Hr), (bool_decide_eq_false_2 _ Hd).
    cbn [negb andb]. apply IH.
    simpl. rewrite removelast_firstn_len, length_take. lia.
Qed.

(** X17. The loop of [SearchPaths] ends after one round per element of
    the base path.  The result is the base, the system directory, then
    the [geodepkgs] directory of the base and of each of its ancestors
    short of the root, nearest first: two entries more than the base
    has elements. *)
Theorem SearchPaths_shape (base : Path) :
  SearchPaths base
  = base :: FromString "/usr/local/lib/geodelib"
    :: map (fun b => Join b packagedir) (ancestors base)
  /\ length (SearchPaths base) = (2 + length (Elems base))%nat
  /\ forall rounds sp,
       (length (Elems base) < rounds)%nat ->
       SearchPaths_loop rounds base sp
       = (sp ++ map (fun b => Join b packagedir) (ancestors base))%list.
Proof.
  assert (Hloop : forall rounds sp,
             (length (Elems base) < rounds)%nat ->
             SearchPaths_loop rounds base sp
             = (sp ++ map (fun b => Join b packagedir) (ancestors base))%list).
  { intros rounds sp Hr.
    replace rounds with (S (length (Elems base)) + (rounds - S (length (Elems base))))%nat
      by lia.
    rewrite (SearchPaths_loop_fuel _ _ base sp eq_refl).
    exact (SearchPaths_loop_ancestors _ base sp eq_refl). }
  assert (Heq : SearchPaths base
                = base :: FromString "/usr/local/lib/geodelib"
                  :: map (fun b => Join b packagedir) (ancestors base)).
  { unfold SearchPaths. now rewrite Hloop by lia. }
  split; [exact Heq|]. split; [|exact Hloop].
  rewrite Heq. cbn [length]. rewrite length_map. unfold ancestors.
  f_equal. f_equal. generalize (length (Elems base)). intros n.
  induction n as [|n IH]; simpl; auto.
Qed.

(** ** Scopes *)

(** X25. Stepping down and up again comes back to the scope one
    started from: [ScopeDown] makes the freshly spawned child the
    active scope and [ScopeUp] then returns no error and re-activates
    the parent; the scope heap has grown by the one child.  At a scope
    without parent [ScopeUp] returns its error and changes nothing. *)
Theorem ScopeDown_ScopeUp (debug : bool) (tok : Token) (p : Program.t) (sc : Scope.t) :
  scopeAt p (Program.Scope p) = Some sc ->
  (exists p1 p2,
      ScopeDown debug tok p = Done tt p1
      /\ Program.Scope p1 = length (Program.scopes p)
      /\ ScopeUp p1 = Done None p2
      /\ Program.Scope p2 = Program.Scope p
      /\ length (Program.scopes p2) = S (length (Program.scopes p))
      /\ scopeAt p2 (Program.Scope p) = Some sc)
  /\ (Scope.Parent sc = None ->
      ScopeUp p = Done (Some "scope step up failed. Ask the developer") p).
Proof.
  intros Hsc. split.
  - unfold ScopeDown, SpawnChild, ScopeUp, updateScope, bind, get, modify, ret.
    rewrite Hsc. unfold scopeAt in *. cbn.
    assert (Hlt : (Program.Scope p < length (Program.scopes p))%nat)
      by (eapply lookup_lt_Some; eauto).
    destruct debug; cbn.
    + rewrite lookup_app_r by lia. rewrite Nat.sub_diag. cbn.
      do 2 eexists. split; [reflexivity|]. cbn. split; [reflexivity|].
      rewrite list_lookup_insert_eq by (rewrite length_app; simpl; lia). cbn.
      split; [reflexivity|]. cbn. split; [reflexivity|].
      split.
      * rewrite length_insert, length_app. simpl. lia.
      * rewrite list_lookup_insert_ne by lia. now rewrite lookup_app_l by lia.
    + do 2 eexists. split; [reflexivity|]. cbn. split; [reflexivity|].
      rewrite lookup_app_r by lia. rewrite Nat.sub_diag. cbn.
      split; [reflexivity|]. cbn. split; [reflexivity|].
      split.
      * rewrite length_app. simpl. lia.
      * now rewrite lookup_app_l by lia.
  - intros Hroot. unfold ScopeUp. now rewrite Hsc, Hroot.
Qed.

Lemma ScopeDown_ScopeUp_witness :
  (exists p1 p2,
      ScopeDown true (mkToken 0) emptyProgram = Done tt p1
      /\ Program.Scope p1 = length (Program.scopes emptyProgram)
      /\ ScopeUp p1 = Done None p2
      /\ Program.Scope p2 = Program.Scope emptyProgram
      /\ length (Program.scopes p2) = S (length (Program.scopes emptyProgram))
      /\ scopeAt p2 (Program.Scope emptyProgram) = Some (Scope.mk None "" 0 ∅ None))
  /\ (Scope.Parent (Scope.mk None "" 0 ∅ None) = None ->
      ScopeUp emptyProgram
      = Done (Some "scope step up failed. Ask the developer") emptyProgram).
Proof.
  exact (ScopeDown_ScopeUp true (mkToken 0) emptyProgram (Scope.mk None "" 0 ∅ None)
           eq_refl).
Defined.
